(** * tsutil: command-line utilities around tree sequences and sample data

    A shallow embedding of [src/all-data/tsutil.py] and the proofs of the
    properties its specification states.

    Conventions of the embedding.
    - A numpy array is a [list]; a two-dimensional array is a list of rows.
    - Site positions and sequence lengths are genome coordinates and
      genotypes are allele indices: they are integers ([Z]). Times of nodes
      and individuals are binary64 floating-point numbers ([float]), added
      and compared as the processor does.
    - A Python exception is a constructor of [exn]; code that can raise
      returns a [result].
    - Calls into tskit and tsinfer that the handlers only pass data through
      (loading, dumping, matching, simplifying, sorting) are recorded as
      events or taken as section variables. *)

From stdpp Require Import base option list gmap strings sorting pretty.
From Stdlib Require Import Ascii ZArith Lia PrimFloat.

Open Scope string_scope.
Open Scope nat_scope.
Open Scope list_scope.

(** ** Exceptions and results *)

Inductive exn :=
  | AssertionError
  | ValueError
  | KeyError
  | IndexError
  | TypeError
  | AttributeError
  | UnboundLocalError
  | FileNotFoundError
  | UnsupportedOperation
  | StopIteration
  | SystemExit.

Inductive result (A : Type) :=
  | Ok (a : A)
  | Raise (e : exn).
Arguments Ok {A} a.
Arguments Raise {A} e.

#[global] Instance result_ret : MRet result := fun A a => Ok a.
#[global] Instance result_bind : MBind result := fun A B k r =>
  match r with
  | Ok a => k a
  | Raise e => Raise e
  end.

#[global] Instance exn_eq_dec : EqDecision exn.
Proof. solve_decision. Defined.

(** [assert c] *)
Definition py_assert (c : bool) : result unit :=
  if c then Ok tt else Raise AssertionError.

(** ** The command-line entry point ([main]) *)

Module Cli.

(** The handler functions that [set_defaults(func=...)] names. *)
Inductive handler :=
  | run_simplify
  | run_sequential_augment
  | run_combine_ukbb_1kg
  | run_benchmark_tskit
  | run_benchmark_vcf
  | run_compute_1kg_ukbb_gnn
  | run_compute_ukbb_gnn
  | run_compute_1kg_gnn
  | run_compute_sgdp_gnn
  | run_compute_hgdp_gnn
  | run_snip_centromere
  | run_combine_sampledata
  | run_merge_sampledata
  | make_sampledata_compatible.

#[global] Instance handler_eq_dec : EqDecision handler.
Proof. solve_decision. Defined.

Inductive arg_type := TStr | TInt.

(** [add_argument]: a positional, or an option with its default
    ([None] is Python's [None]). *)
Inductive argument :=
  | Positional (name : string) (ty : arg_type)
  | Option_ (flag : string) (ty : arg_type) (default : option Z).

Record subparser := {
  command : string;
  arguments : list argument;
  func : handler
}.

Definition gnn_arguments : list argument :=
  [Positional "input" TStr; Positional "output" TStr;
   Option_ "--num-threads" TInt (Some 16%Z)].

(** The [add_parser] calls of [main], in source order. *)
Definition subparsers : list subparser := [
  {| command := "simplify";
     arguments := [Positional "input" TStr; Positional "output" TStr];
     func := run_simplify |};
  {| command := "sequential-augment";
     arguments := [Positional "input" TStr;
                   Option_ "--num-threads" TInt (Some 0%Z);
                   Option_ "--seed" TInt (Some 1%Z)];
     func := run_sequential_augment |};
  {| command := "combine-ukbb-1kg";
     arguments := [Positional "chromosome" TStr;
                   Option_ "--num-individuals" TInt None];
     func := run_combine_ukbb_1kg |};
  {| command := "benchmark-tskit";
     arguments := [Positional "input" TStr;
                   Option_ "--num-variants" TInt None];
     func := run_benchmark_tskit |};
  {| command := "benchmark-vcf";
     arguments := [Positional "input" TStr;
                   Option_ "--num-variants" TInt None];
     func := run_benchmark_vcf |};
  {| command := "compute-1kg-ukbb-gnn";
     arguments := gnn_arguments; func := run_compute_1kg_ukbb_gnn |};
  {| command := "compute-ukbb-gnn";
     arguments := gnn_arguments; func := run_compute_ukbb_gnn |};
  {| command := "compute-1kg-gnn";
     arguments := gnn_arguments; func := run_compute_1kg_gnn |};
  {| command := "compute-sgdp-gnn";
     arguments := gnn_arguments; func := run_compute_sgdp_gnn |};
  {| command := "compute-hgdp-gnn";
     arguments := gnn_arguments; func := run_compute_hgdp_gnn |};
  {| command := "snip-centromere";
     arguments := [Positional "input" TStr; Positional "output" TStr;
                   Positional "chrom" TStr; Positional "centromeres" TStr];
     func := run_snip_centromere |};
  {| command := "combine-sampledata";
     arguments := [Positional "input" TStr; Positional "output" TStr];
     func := run_combine_sampledata |};
  {| command := "merge-sampledata";
     arguments := [Positional "input" TStr; Positional "output" TStr];
     func := run_merge_sampledata |};
  {| command := "make-sampledata-compatible";
     arguments := [Positional "input" TStr; Positional "output" TStr];
     func := make_sampledata_compatible |}
].

(** [subparsers.required = True] *)
Definition required : bool := true.

(** The choice of the sub-parser by [parse_args]: the first token of the
    command line is looked up among the registered names, and the tokens
    after it go to the sub-parser. A first token that is no registered name
    (an option of the main parser, which has only the help, included) ends
    in an error of the parser. Without a token the parser stops with an
    error when a subcommand is required, and leaves [args.func] unset
    otherwise. *)
Definition select_subparser (argv : list string)
    : result (option (subparser * list string)) :=
  match argv with
  | [] => if required then Raise SystemExit else Ok None
  | c :: rest =>
      match List.find (λ sp, bool_decide (command sp = c)) subparsers with
      | Some sp => Ok (Some (sp, rest))
      | None => Raise SystemExit
      end
  end.

(** *** The sub-parser's reading of its arguments

    What argparse does with the tokens after the subcommand, for parsers
    as [main] builds them: positionals that take one string each, options
    with a long flag that take one value, and the [-h] and [--help] every
    parser has. Every error of the parser, and the help, is a
    [SystemExit]. *)

(** A value of the namespace. *)
Inductive value :=
  | VStr (s : string)
  | VInt (z : Z)
  | VNone.

#[global] Instance value_eq_dec : EqDecision value.
Proof. solve_decision. Defined.

Definition hyphen : ascii := "-"%char.

(** [c in s] *)
Fixpoint contains (c : ascii) (s : string) : bool :=
  match s with
  | EmptyString => false
  | String a s' => bool_decide (a = c) || contains c s'
  end.

(** [s.split(c, 1)] when [c] is in [s] *)
Fixpoint split_first (c : ascii) (s : string) : option (string * string) :=
  match s with
  | EmptyString => None
  | String a s' =>
      if decide (a = c) then Some (EmptyString, s')
      else '(l, r) ← split_first c s'; Some (String a l, r)
  end.

(** The attribute of an option: the flag without its leading hyphens, the
    other hyphens turned into underscores. *)
Fixpoint lstrip_hyphens (s : string) : string :=
  match s with
  | String a s' => if decide (a = hyphen) then lstrip_hyphens s' else s
  | EmptyString => EmptyString
  end.

Fixpoint underscores (s : string) : string :=
  match s with
  | String a s' =>
      String (if decide (a = hyphen) then "_"%char else a) (underscores s')
  | EmptyString => EmptyString
  end.

Definition dest_of (flag : string) : string :=
  underscores (lstrip_hyphens flag).

(** The test [^-\d+$|^-\d*\.\d+$] for an argument that looks like a negative
    number, on ASCII text; [$] also matches before a final line feed. *)
Definition is_digit (a : ascii) : bool :=
  (48 <=? nat_of_ascii a) && (nat_of_ascii a <=? 57).

Fixpoint all_digits (s : string) : bool :=
  match s with
  | EmptyString => true
  | String a s' => is_digit a && all_digits s'
  end.

Definition some_digits (s : string) : bool :=
  negb (bool_decide (s = EmptyString)) && all_digits s.

Fixpoint chomp (s : string) : string :=
  match s with
  | EmptyString => EmptyString
  | String a EmptyString =>
      if decide (a = "010"%char) then EmptyString else s
  | String a s' => String a (chomp s')
  end.

Definition negative_number_like (s : string) : bool :=
  match s with
  | String a t =>
      bool_decide (a = hyphen)
      && (some_digits (chomp t)
          || match split_first "."%char (chomp t) with
             | Some (whole, fraction) => all_digits whole && some_digits fraction
             | None => false
             end)
  | EmptyString => false
  end.

(** How the parser reads one token that comes before any [--]. *)
Inductive token :=
  | Arg                                       (* a positional argument *)
  | Opt (option_string : string) (explicit_arg : option string)
  | UnknownOpt                                (* an option of no action *)
  | Ambiguous.                                (* several options fit *)

Definition option_strings (args : list argument) : list string :=
  "-h" :: "--help"
  :: omap (λ a, match a with
                | Option_ flag _ _ => Some flag
                | Positional _ _ => None
                end) args.

(** [_get_option_tuples]: the options a token abbreviates. *)
Definition get_option_tuples (opts : list string) (arg : string)
    : list (string * option string) :=
  match arg with
  | String a (String b rest) =>
      if decide (a = hyphen) then
        if decide (b = hyphen) then
          let '(option_prefix, explicit_arg) :=
            match split_first "="%char arg with
            | Some (p, e) => (p, Some e)
            | None => (arg, None)
            end in
          (λ o, (o, explicit_arg))
          <$> filter (λ o, String.prefix option_prefix o = true) opts
        else
          omap (λ o, if decide (o = String a (String b EmptyString))
                     then Some (o, Some rest)
                     else if String.prefix arg o then Some (o, None)
                     else None) opts
      else []
  | _ => []
  end.

(** [_parse_optional] *)
Definition parse_optional (opts : list string) (arg : string) : token :=
  match arg with
  | EmptyString => Arg
  | String a _ =>
      if decide (a ≠ hyphen) then Arg
      else if decide (arg ∈ opts) then Opt arg None
      else if decide (String.length arg = 1) then Arg
      else
        match split_first "="%char arg ≫= λ oe,
              if decide (oe.1 ∈ opts) then Some oe else None with
        | Some (o, e) => Opt o (Some e)
        | None =>
            match get_option_tuples opts arg with
            | _ :: _ :: _ => Ambiguous
            | [(o, e)] => Opt o e
            | [] =>
                if negative_number_like arg then Arg
                else if contains " "%char arg then Arg
                else UnknownOpt
            end
        end
  end.

Section parse_args.

(** [int(s)] on text: [None] when Python raises [ValueError]. *)
Variable py_int : string → option Z.

(** [type(arg_string)]; a [ValueError] is an error of the parser. *)
Definition get_value (ty : arg_type) (s : string) : result value :=
  match ty with
  | TStr => Ok (VStr s)
  | TInt => match py_int s with
            | Some z => Ok (VInt z)
            | None => Raise SystemExit
            end
  end.

(** The type of the option with this flag; [None] for the help. *)
Definition option_type (args : list argument) (flag : string)
    : option arg_type :=
  head (omap (λ a, match a with
                   | Option_ f ty _ => if decide (f = flag) then Some ty else None
                   | Positional _ _ => None
                   end) args).

(** The namespace before any token is read: each attribute at its
    default, [None] for a positional. *)
Definition defaults (args : list argument) : gmap string value :=
  list_to_map
    ((λ a, match a with
           | Positional name _ => (name, VNone)
           | Option_ flag _ d =>
               (dest_of flag, match d with Some z => VInt z | None => VNone end)
           end) <$> args).

Definition positionals (args : list argument) : list (string * arg_type) :=
  omap (λ a, match a with
             | Positional name ty => Some (name, ty)
             | Option_ _ _ _ => None
             end) args.

(** The tokens in turn: [todo] are the positionals still to fill and
    [literal] says that a [--] was read, after which every token is an
    argument. An argument fills the next positional, and is in excess when
    there is none left; an option takes its value after an [=] in the token
    or from the next token, which must be an argument. At the end every
    positional must be filled. *)
Fixpoint parse_tokens (args : list argument) (todo : list (string * arg_type))
    (ns : gmap string value) (literal : bool) (argv : list string)
    : result (gmap string value) :=
  match argv with
  | [] => match todo with
          | [] => Ok ns
          | _ :: _ => Raise SystemExit
          end
  | a :: rest =>
      if literal then
        match todo with
        | [] => Raise SystemExit
        | (name, ty) :: todo' =>
            v ← get_value ty a;
            parse_tokens args todo' (<[name := v]> ns) literal rest
        end
      else if decide (a = "--") then parse_tokens args todo ns true rest
      else
        match parse_optional (option_strings args) a with
        | Arg =>
            match todo with
            | [] => Raise SystemExit
            | (name, ty) :: todo' =>
                v ← get_value ty a;
                parse_tokens args todo' (<[name := v]> ns) literal rest
            end
        | UnknownOpt | Ambiguous => Raise SystemExit
        | Opt o explicit_arg =>
            match option_type args o with
            | None => Raise SystemExit
            | Some ty =>
                match explicit_arg with
                | Some e =>
                    v ← get_value ty e;
                    parse_tokens args todo (<[dest_of o := v]> ns) literal rest
                | None =>
                    match rest with
                    | [] => Raise SystemExit
                    | b :: rest' =>
                        if decide (b = "--") then
                          match rest' with
                          | [] => Raise SystemExit
                          | c :: rest'' =>
                              v ← get_value ty c;
                              parse_tokens args todo (<[dest_of o := v]> ns)
                                           true rest''
                          end
                        else
                          match parse_optional (option_strings args) b with
                          | Arg =>
                              v ← get_value ty b;
                              parse_tokens args todo (<[dest_of o := v]> ns)
                                           literal rest'
                          | _ => Raise SystemExit
                          end
                    end
                end
            end
        end
  end.

Definition parse_arguments (args : list argument) (argv : list string)
    : result (gmap string value) :=
  parse_tokens args (positionals args) (defaults args) false argv.

(** [args = parser.parse_args(); args.func(args)]: the handler that [main]
    calls and the namespace it is called with ([func] apart). *)
Definition main (argv : list string)
    : result (handler * gmap string value) :=
  sel ← select_subparser argv;
  match sel with
  | Some (sp, rest) =>
      ns ← parse_arguments (arguments sp) rest;
      Ok (func sp, <["command" := VStr (command sp)]> ns)
  | None => Raise AttributeError
  end.

End parse_args.

(** The subcommand names and handlers, as the specification lists them. *)
Definition spec_commands : list (string * handler) := [
  ("simplify", run_simplify);
  ("sequential-augment", run_sequential_augment);
  ("combine-ukbb-1kg", run_combine_ukbb_1kg);
  ("benchmark-tskit", run_benchmark_tskit);
  ("benchmark-vcf", run_benchmark_vcf);
  ("compute-1kg-ukbb-gnn", run_compute_1kg_ukbb_gnn);
  ("compute-ukbb-gnn", run_compute_ukbb_gnn);
  ("compute-1kg-gnn", run_compute_1kg_gnn);
  ("compute-sgdp-gnn", run_compute_sgdp_gnn);
  ("compute-hgdp-gnn", run_compute_hgdp_gnn);
  ("snip-centromere", run_snip_centromere);
  ("combine-sampledata", run_combine_sampledata);
  ("merge-sampledata", run_merge_sampledata);
  ("make-sampledata-compatible", make_sampledata_compatible)
].

End Cli.

(** ** Strings, slices and searches of the Python and numpy runtime *)

(** [s.split(c)] for a one-character separator. *)
Fixpoint py_split (c : ascii) (s : string) : list string :=
  match s with
  | EmptyString => [""]
  | String a s' =>
      if decide (a = c) then "" :: py_split c s'
      else match py_split c s' with
           | h :: t => String a h :: t
           | [] => [String a ""]
           end
  end.

(** [sep.join(l)] *)
Definition py_join (sep : string) (l : list string) : string :=
  match l with
  | [] => ""
  | h :: t => fold_left (λ acc x, acc +:+ sep +:+ x) t h
  end.

(** [l[:-1]] *)
Definition all_but_last {A} (l : list A) : list A := take (length l - 1) l.

(** [s[:-k]] for k > 0 *)
Definition drop_suffix (k : nat) (s : string) : string :=
  String.substring 0 (String.length s - k) s.


(** [s.rstrip] of line feeds *)
Fixpoint rstrip_nl (s : string) : string :=
  match s with
  | EmptyString => EmptyString
  | String a s' =>
      match rstrip_nl s' with
      | EmptyString => if decide (a = "010"%char) then EmptyString
                       else String a EmptyString
      | t => String a t
      end
  end.

(** [a[i:j]] *)
Definition py_slice {A} (i j : nat) (a : list A) : list A :=
  take (j - i) (drop i a).

(** [np.searchsorted(a, v)] on an array in increasing order: the number of
    entries below [v]. *)
Definition searchsorted (a : list Z) (v : Z) : nat :=
  length (filter (λ x, (x < v)%Z) a).

(** [np.argmax(a)]: the first index of the largest entry; numpy raises
    [ValueError] on an empty array. *)
Fixpoint argmax_from (best : Z) (besti i : nat) (a : list Z) : nat :=
  match a with
  | [] => besti
  | x :: a' =>
      if decide (best < x)%Z then argmax_from x i (S i) a'
      else argmax_from best besti (S i) a'
  end.

Definition argmax (a : list Z) : result nat :=
  match a with
  | [] => Raise ValueError
  | x :: a' => Ok (argmax_from x 0 1 a')
  end.

(** [X[1:] - X[:-1]] *)
Definition diffs (X : list Z) : list Z :=
  zip_with Z.sub (drop 1 X) (all_but_last X).

(** ** What a handler does to the outside world *)

Inductive event :=
  | OpenRead (path : string)
  | LoadSampleData (path : string)
  | LoadTrees (path : string)
  | SaveNpy (path : string) (a : list nat)
  | Augment (subset : list nat) (num_threads : Z)
  | MatchSamples (num_threads : Z)
  | SnipCentromere (left right : Z)
  | DumpTrees (path : string)
  | CreateSampleData (path : string).

#[global] Instance event_eq_dec : EqDecision event.
Proof. solve_decision. Defined.

(** ** sequential-augment *)

Record augment_args := {
  aug_input : string;
  aug_num_threads : Z;
  aug_seed : Z
}.

(** The first [while] loop: the total number of samples the rounds need.
    [None] when the fuel runs out. *)
Fixpoint total_required (fuel n total num_samples : nat) : option nat :=
  match fuel with
  | O => None
  | S fuel' =>
      if decide (n < Nat.div num_samples 4)
      then total_required fuel' (n * 2) (total + n) num_samples
      else Some total
  end.

Record augment_state := {
  st_n : nat;
  st_j : nat;
  st_samples : list nat;
  st_final_file : option string;      (* [None]: the local is unbound *)
  st_trace : list event
}.

(** One round of the second [while] loop. [subset] is a view of
    [samples], so [subset.sort()] sorts that stretch of [samples] too. *)
Definition augment_round (base : string) (num_threads : Z)
    (st : augment_state) : augment_state :=
  let n := st_n st in
  let j := st_j st in
  let augmented_file :=
    base +:+ ".augmented_" +:+ pretty n +:+ ".ancestors.trees" in
  let final_file :=
    base +:+ ".augmented_" +:+ pretty n +:+ ".nosimplify.trees" in
  let subset := merge_sort le (py_slice j (j + n) (st_samples st)) in
  {| st_n := n * 2;
     st_j := j + n;
     st_samples := take j (st_samples st) ++ subset
                   ++ drop (j + n) (st_samples st);
     st_final_file := Some final_file;
     st_trace := st_trace st
                 ++ [Augment subset num_threads; DumpTrees augmented_file] |}.

Fixpoint augment_rounds (fuel : nat) (base : string) (num_threads : Z)
    (num_samples : nat) (st : augment_state) : option augment_state :=
  match fuel with
  | O => None
  | S fuel' =>
      if decide (st_n st < Nat.div num_samples 4)
      then augment_rounds fuel' base num_threads num_samples
             (augment_round base num_threads st)
      else Some st
  end.

Section sequential_augment.

(** [np.random.seed(seed); np.random.choice(np.arange(n), size, replace=False)] *)
Variable choice : Z → nat → nat → list nat.

(** [num_samples] is what the loaded sample data reports. The outcome is
    the trace of library calls and how the handler ends; [None] when the
    loops run out of fuel. *)
Definition run_sequential_augment (fuel : nat) (args : augment_args)
    (num_samples : nat) : option (list event * result unit) :=
  let base := py_join "." (all_but_last (py_split "."%char (aug_input args))) in
  total ← total_required fuel 2 0 num_samples;
  let samples := choice (aug_seed args) num_samples total in
  let tr := [LoadSampleData (aug_input args);
             LoadTrees (base +:+ ".ancestors.trees");
             SaveNpy (base +:+ ".augmented_samples.npy") samples] in
  st ← augment_rounds fuel base (aug_num_threads args) num_samples
         {| st_n := 2; st_j := 0; st_samples := samples;
            st_final_file := None; st_trace := tr |};
  let tr := st_trace st ++ [MatchSamples (aug_num_threads args)] in
  Some match st_final_file st with
       | None => (tr, Raise UnboundLocalError)
       | Some f => (tr ++ [DumpTrees f], Ok tt)
       end.

End sequential_augment.

(** ** snip-centromere *)

(** A cell of a [csv.DictReader] row: text, or [None] for a short row. *)
Inductive pyval :=
  | PyStr (s : string)
  | PyNone.

#[global] Instance pyval_eq_dec : EqDecision pyval.
Proof. solve_decision. Defined.

(** [row[key]] *)
Definition getitem (row : gmap string pyval) (key : string) : result pyval :=
  match row !! key with
  | Some v => Ok v
  | None => Raise KeyError
  end.

Record snip_args := {
  snip_input : string;
  snip_output : string;
  snip_chrom : string;
  snip_centromeres : string
}.

Section snip_centromere.

(** [int(s)] on text: [None] when Python raises [ValueError]. *)
Variable py_int : string → option Z.

Definition int_of (v : pyval) : result Z :=
  match v with
  | PyNone => Raise TypeError
  | PyStr s => match py_int s with
               | Some z => Ok z
               | None => Raise ValueError
               end
  end.

(** The [for ... else] over the rows of the reader. *)
Fixpoint find_centromere (chrom : string) (rows : list (gmap string pyval))
    : result (Z * Z) :=
  match rows with
  | [] => Raise ValueError
  | row :: rows' =>
      c ← getitem row "chrom";
      if decide (c = PyStr chrom) then
        s ← getitem row "start";
        start ← int_of s;
        e ← getitem row "end";
        end_ ← int_of e;
        Ok (start, end_)
      else find_centromere chrom rows'
  end.

(** The gap to snip, from the site positions of the loaded tree sequence. *)
Definition largest_gap (position : list Z) (start end_ : Z) : result (Z * Z) :=
  let s_index := searchsorted position start in
  let e_index := searchsorted position end_ in
  let X := py_slice s_index (e_index + 1) position in
  j ← argmax (diffs X);
  match X !! j, X !! (j + 1) with
  | Some a, Some b => Ok ((a + 1)%Z, b)
  | _, _ => Raise IndexError
  end.

(** [rows] is the content of the centromeres file and [position] the site
    positions of the input tree sequence. *)
Definition run_snip_centromere (args : snip_args)
    (rows : list (gmap string pyval)) (position : list Z)
    : list event * result unit :=
  let tr := [OpenRead (snip_centromeres args)] in
  match find_centromere (snip_chrom args) rows with
  | Raise e => (tr, Raise e)
  | Ok (start, end_) =>
      let tr := tr ++ [LoadTrees (snip_input args)] in
      match largest_gap position start end_ with
      | Raise e => (tr, Raise e)
      | Ok (real_start, real_end) =>
          (tr ++ [SnipCentromere real_start real_end;
                  DumpTrees (snip_output args)], Ok tt)
      end
  end.

End snip_centromere.

(** ** Sample-data containers *)

(** [tskit.MISSING_DATA] *)
Definition MISSING_DATA : Z := (-1)%Z.

(** The alleles of a site: the ancestral allele [allele[0]] and the others;
    a site of a container lists at least one allele. *)
Record Alleles := {
  ancestral : string;
  alternatives : list string
}.

(** One site of a container: entry [i] of [sites_position], [sites_alleles],
    [sites_genotypes] and [sites_metadata], arrays of one length. *)
Record Site := {
  position : Z;
  alleles : Alleles;
  genotypes : list Z;
  site_metadata : gmap string string
}.

Record Individual := {
  ind_metadata : gmap string string;
  ind_time : float
}.

Record SampleData := {
  sequence_length : Z;
  num_samples : nat;
  sites : list Site;
  populations_metadata : list (gmap string string);
  individuals : list Individual;
  samples_population : list Z
}.

Definition sites_position (sd : SampleData) : list Z := position <$> sites sd.
Definition sites_genotypes (sd : SampleData) : list (list Z) :=
  genotypes <$> sites sd.
Definition sites_metadata (sd : SampleData) : list (gmap string string) :=
  site_metadata <$> sites sd.

(** [allele[1] if len(allele) > 1 else ...] *)
Definition derived (a : Alleles) : option string := head (alternatives a).

(** A row handed to [add_site]; an allele [None] is a NaN. *)
Record SiteRow := {
  row_position : Z;
  row_genotypes : list Z;
  row_alleles : list (option string);
  row_metadata : gmap string string
}.

(** The container under construction: what [add_population],
    [add_individual] and [add_site] were called with, in order (population,
    time when given; ploidy is always 2). *)
Record Output := {
  out_path : string;
  out_sequence_length : option Z;
  out_populations : list (gmap string string);
  out_individuals : list (gmap string string * nat * option float);
  out_sites : list SiteRow
}.

Fixpoint foldM {A B} (f : B → A → result B) (b : B) (l : list A) : result B :=
  match l with
  | [] => Ok b
  | a :: l' => b' ← f b a; foldM f b' l'
  end.

(** [samples.add_site(position, genotypes, alleles, metadata)]: tsinfer
    takes the sites of a container in increasing order of position and
    raises [ValueError] for a position that is not greater than that of the
    site added last. [sites] are the rows added so far. (What tsinfer
    checks of the genotypes of a row is not part of the model.) *)
Definition add_site (sites : list SiteRow) (row : SiteRow)
    : result (list SiteRow) :=
  match last sites with
  | Some l =>
      if decide (row_position l < row_position row)%Z
      then Ok (sites ++ [row])
      else Raise ValueError
  | None => Ok (sites ++ [row])
  end.

(** [l[i]] with Python's negative indices. *)
Definition py_index {A} (l : list A) (i : Z) : result A :=
  let n := Z.of_nat (length l) in
  let j := if decide (i < 0)%Z then (i + n)%Z else i in
  if decide (0 ≤ j < n)%Z then
    match l !! Z.to_nat j with
    | Some x => Ok x
    | None => Raise IndexError
    end
  else Raise IndexError.

(** [pop["name"]] *)
Definition pop_name (pop : gmap string string) : result string :=
  match pop !! "name" with
  | Some s => Ok s
  | None => Raise KeyError
  end.

(** *** Loading the input files

    The loop over the lines of [args.input]. [sequence_length] starts as
    [None]; [if sequence_length:] is Python's truth test, false for [None]
    and for zero. *)
Definition truthy (o : option Z) : bool :=
  match o with
  | Some z => negb (z =? 0)%Z
  | None => false
  end.

Definition load_step (acc : option Z * nat) (sd : SampleData)
    : result (option Z * nat) :=
  let '(seq_len, total_samples) := acc in
  let total_samples := total_samples + num_samples sd in
  if truthy seq_len then
    _ ← py_assert (bool_decide (seq_len = Some (sequence_length sd)));
    Ok (seq_len, total_samples)
  else Ok (Some (sequence_length sd), total_samples).

Definition load_sampledata_files (files : list SampleData)
    : result (option Z * nat) :=
  foldM load_step (None, 0) files.

(** *** Populations and individuals of the output *)

(** The first pair of loops: [mk] builds the metadata given to
    [add_population]; the result is the populations added and
    [population_id_map]. *)
Definition add_population_step (mk : gmap string string → string → gmap string string)
    (acc : list (gmap string string) * gmap string nat)
    (pop : gmap string string)
    : result (list (gmap string string) * gmap string nat) :=
  let '(pops, id_map) := acc in
  name ← pop_name pop;
  Ok (pops ++ [mk pop name], <[name := length pops]> id_map).

Definition add_populations (mk : gmap string string → string → gmap string string)
    (files : list SampleData)
    : result (list (gmap string string) * gmap string nat) :=
  foldM (λ acc sd, foldM (add_population_step mk) acc (populations_metadata sd))
        ([], ∅) files.

Definition individual_population (id_map : gmap string nat) (sd : SampleData)
    (id : nat) : result nat :=
  p ← py_index (samples_population sd) (Z.of_nat (id * 2));
  pop ← py_index (populations_metadata sd) p;
  name ← pop_name pop;
  match id_map !! name with
  | Some pid => Ok pid
  | None => Raise KeyError
  end.

Definition add_individuals (with_time : bool) (id_map : gmap string nat)
    (files : list SampleData)
    : result (list (gmap string string * nat * option float)) :=
  foldM (λ acc sd,
           foldM (λ acc '(id, ind),
                    pid ← individual_population id_map sd id;
                    Ok (acc ++ [(ind_metadata ind, pid,
                                 if with_time then Some (ind_time ind) else None)]))
                 acc (imap (λ id ind, (id, ind)) (individuals sd)))
        [] files.

(** *** Blocks of the combined matrices *)

(** [row[cur:cur+len(block)] = block] *)
Definition write_columns {A} (cur : nat) (block : list A) (row : list A)
    : list A :=
  list_inserts cur block row.

(** [M[rows, cur:cur+n] = G]: block [j] of [G] goes to row [rows[j]]. The
    two must have as many rows. *)
Fixpoint scatter_rows {A} (cur : nat) (rows : list nat) (G : list (list A))
    (M : list (list A)) : list (list A) :=
  match rows, G with
  | r :: rows', g :: G' =>
      scatter_rows cur rows' G' (alter (write_columns cur g) r M)
  | _, _ => M
  end.

Definition assign_block {A} (cur : nat) (rows : list nat) (G : list (list A))
    (M : list (list A)) : result (list (list A)) :=
  if decide (length rows = length G) then Ok (scatter_rows cur rows G M)
  else Raise ValueError.

(** [np.full((num_rows, num_cols), x)] *)
Definition full {A} (num_rows num_cols : nat) (x : A) : list (list A) :=
  replicate num_rows (replicate num_cols x).

Fixpoint mapM {A B} (f : A → result B) (l : list A) : result (list B) :=
  match l with
  | [] => Ok []
  | a :: l' => b ← f a; bs ← mapM f l'; Ok (b :: bs)
  end.

(** [a[mask]] *)
Definition mask_select {A} (mask : list bool) (a : list A) : list A :=
  snd <$> filter (λ x, fst x = true) (zip mask a).

(** [np.where(mask)[0]]: the indices of the true entries, in order. *)
Fixpoint np_where_from (i : nat) (mask : list bool) : list nat :=
  match mask with
  | [] => []
  | b :: mask' =>
      if b then i :: np_where_from (S i) mask'
      else np_where_from (S i) mask'
  end.

Definition np_where (mask : list bool) : list nat := np_where_from 0 mask.

(** [md[0]] *)
Definition first_metadata (md : list (gmap string string))
    : result (gmap string string) :=
  match md with
  | m :: _ => Ok m
  | [] => Raise IndexError
  end.

(** ** merge-sampledata *)

Definition position_set (sd : SampleData) : gset Z :=
  list_to_set (sites_position sd).

(** [set.intersection] of the sets given as arguments; with none, Python
    raises [TypeError]. *)
Definition set_intersection (sets : list (gset Z)) : result (gset Z) :=
  match sets with
  | [] => Raise TypeError
  | s :: ss => Ok (foldl (∩) s ss)
  end.

(** [np.sort(list(s))] *)
Definition np_sort_set (s : gset Z) : list Z := merge_sort Z.le (elements s).

(** The sites [a[np.isin(sites_position, merged_pos)]] selects. *)
Definition select_sites (merged_pos : list Z) (sd : SampleData) : list Site :=
  filter (λ s, position s ∈ merged_pos) (sites sd).

Definition derived_or_empty (s : Site) : string :=
  default "" (derived (alleles s)).

(** A numpy array of strings has the width of its longest entry at
    creation (one at least); a longer string stored later is cut. *)
Definition unicode_width (a : list string) : nat :=
  Nat.max 1 (max_list (String.length <$> a)).

Definition store_unicode (w : nat) (s : string) : string :=
  String.substring 0 w s.

Definition is_empty_string (s : string) : bool := bool_decide (s = "").

(** The body of the loop over [sampledata_files[1:]]. *)
Definition merge_alleles_step (w : nat) (merged_pos : list Z)
    (anc_alleles : list string) (acc : list string * list bool)
    (sd : SampleData) : result (list string * list bool) :=
  let '(deriv_alleles, biallelic_sites) := acc in
  let sel := select_sites merged_pos sd in
  _ ← py_assert (bool_decide
         (anc_alleles = (λ s, ancestral (alleles s)) <$> sel));
  let cur_derived := derived_or_empty <$> sel in
  let no_deriv_bool :=
    zip_with orb (is_empty_string <$> deriv_alleles)
                 (is_empty_string <$> cur_derived) in
  let deriv_alleles :=
    zip_with (λ (md : bool * string) (c : string),
                if fst md then store_unicode w c else snd md)
             (zip no_deriv_bool deriv_alleles) cur_derived in
  let biallelic_sites :=
    zip_with andb biallelic_sites
      (zip_with (λ d c : string, bool_decide (d = c))
                deriv_alleles cur_derived) in
  Ok (deriv_alleles, biallelic_sites).

(** The body of the loop that fills [combined_genos] and
    [combined_metadata]. *)
Definition merge_block_step (merged_pos : list Z)
    (acc : nat * list (list Z) * list (list (gmap string string)))
    (isd : nat * SampleData)
    : result (nat * list (list Z) * list (list (gmap string string))) :=
  let '(cur_sample, combined_genos, combined_metadata) := acc in
  let '(index, sd) := isd in
  let sel := select_sites merged_pos sd in
  let all_rows := seq 0 (length merged_pos) in
  combined_genos ←
    assign_block cur_sample all_rows (genotypes <$> sel) combined_genos;
  combined_metadata ←
    assign_block index all_rows ((λ s, [site_metadata s]) <$> sel)
                 combined_metadata;
  Ok (cur_sample + num_samples sd, combined_genos, combined_metadata).

Definition merge_site_row
    (row : Z * (list Z * (string * (string * list (gmap string string)))))
    : result SiteRow :=
  let '(pos, (genos, (anc, (deriv, md)))) := row in
  m ← first_metadata md;
  Ok {| row_position := pos; row_genotypes := genos;
        row_alleles := [Some anc; Some deriv]; row_metadata := m |}.

(** The part of the handler from [merged_pos] on: the rows that the last
    loop gives to [add_site], in order. *)
Definition merge_rows (total_samples : nat) (files : list SampleData)
    : result (list SiteRow) :=
  inter ← set_intersection (position_set <$> files);
  let merged_pos := np_sort_set inter in
  match files with
  | [] => Raise IndexError
  | first :: rest =>
      let sel := select_sites merged_pos first in
      let anc_alleles := (λ s, ancestral (alleles s)) <$> sel in
      let deriv_alleles := derived_or_empty <$> sel in
      let w := unicode_width deriv_alleles in
      let biallelic_sites := replicate (length merged_pos) true in
      '(deriv_alleles, biallelic_sites) ←
        foldM (merge_alleles_step w merged_pos anc_alleles)
              (deriv_alleles, biallelic_sites) rest;
      let merged_pos := mask_select biallelic_sites merged_pos in
      let num_sites := length merged_pos in
      let num_files := length files in
      '(_, combined_genos, combined_metadata) ←
        foldM (merge_block_step merged_pos)
              (0, full num_sites total_samples MISSING_DATA,
               full num_sites num_files ∅)
              (imap pair files);
      mapM merge_site_row
        (zip merged_pos (zip combined_genos (zip anc_alleles
           (zip deriv_alleles combined_metadata))))
  end.

(** The handler: the events are what happened to the file system before
    the handler ended. *)
Definition run_merge_sampledata (output : string) (files : list SampleData)
    : list event * result Output :=
  match load_sampledata_files files with
  | Raise e => ([], Raise e)
  | Ok (seq_len, total_samples) =>
      ([CreateSampleData output],
       '(pops, id_map) ←
         add_populations (λ _ name, {["name" := name]}) files;
       inds ← add_individuals false id_map files;
       rows ← merge_rows total_samples files;
       sites ← foldM add_site [] rows;
       Ok {| out_path := output; out_sequence_length := seq_len;
             out_populations := pops; out_individuals := inds;
             out_sites := sites |})
  end.

(** ** combine-sampledata *)

(** A row of the data frame of site keys: the columns ["Position"],
    ["Ancestral Allele"], ["Derived Allele"], ["i Site ID"] and
    ["Derived Allele i"] for each file [i]; a missing entry of the last two
    is a NaN. *)
Record df_row := {
  Position : Z;
  Ancestral : string;
  Derived : option string;
  SiteID : gmap nat nat;
  DerivedOf : gmap nat string
}.

#[global] Instance df_row_eq_dec : EqDecision df_row.
Proof. solve_decision. Defined.

Definition make_site_df (samples : SampleData) (file_index : nat)
    : list df_row :=
  imap (λ i s, {| Position := position s;
                  Ancestral := ancestral (alleles s);
                  Derived := derived (alleles s);
                  SiteID := {[file_index := i]};
                  DerivedOf := ∅ |}) (sites samples).

Definition same_key (a b : df_row) : bool :=
  bool_decide (Position a = Position b ∧ Ancestral a = Ancestral b).

Definition add_derived (index : nat) (d : option string)
    (m : gmap nat string) : gmap nat string :=
  match d with
  | Some s => <[index := s]> m
  | None => m
  end.

(** [pd.merge(left, right, how="outer", suffixes=("", index),
    on=["Position", "Ancestral Allele"])] for frames whose keys do not
    repeat: the rows of [left], completed where [right] has the key, then
    the rows only [right] has. *)
Definition pd_merge_outer (index : nat) (left right : list df_row)
    : list df_row :=
  ((λ l, match List.find (same_key l) right with
         | Some r => {| Position := Position l; Ancestral := Ancestral l;
                        Derived := Derived l;
                        SiteID := SiteID l ∪ SiteID r;
                        DerivedOf := add_derived index (Derived r) (DerivedOf l) |}
         | None => l
         end) <$> left)
  ++ ((λ r, {| Position := Position r; Ancestral := Ancestral r;
               Derived := None; SiteID := SiteID r;
               DerivedOf := add_derived index (Derived r) ∅ |})
      <$> filter (λ r, List.find (same_key r) left = None) right).

(** [df["Derived Allele"].fillna(df["Derived Allele" + str(index)])] *)
Definition fillna (index : nat) (r : df_row) : df_row :=
  {| Position := Position r; Ancestral := Ancestral r;
     Derived := match Derived r with
                | Some d => Some d
                | None => DerivedOf r !! index
                end;
     SiteID := SiteID r; DerivedOf := DerivedOf r |}.

(** The loop over [sampledata_pos_dfs] from [index] on. *)
Fixpoint merge_dfs (index : nat) (combined_pos_df : list df_row)
    (dfs : list (list df_row)) : list df_row :=
  match dfs with
  | [] => combined_pos_df
  | df :: dfs' =>
      merge_dfs (S index)
        (fillna index <$> pd_merge_outer index combined_pos_df df) dfs'
  end.

(** [df.sort_values(by=["Position"])] *)
Definition position_le (a b : df_row) : Prop := (Position a ≤ Position b)%Z.

#[global] Instance position_le_dec : RelDecision position_le.
Proof. intros a b. unfold position_le. apply _. Defined.

Definition sort_values (df : list df_row) : list df_row :=
  merge_sort position_le df.

Definition multiallelic (index : nat) (r : df_row) : bool :=
  match DerivedOf r !! index with
  | Some d => bool_decide (Derived r ≠ Some d)
  | None => false
  end.

(** [multi_genos[multi_genos == 1] = MISSING_DATA] on the rows [ids]. *)
Definition missing_if_derived (g : Z) : Z :=
  if bool_decide (g = 1%Z) then MISSING_DATA else g.

Definition mark_missing (ids : list nat) (genos : list (list Z))
    : list (list Z) :=
  imap (λ s row,
          if bool_decide (s ∈ ids) then missing_if_derived <$> row else row)
       genos.

Definition combine_block_step (combined_pos_df : list df_row)
    (acc : nat * list (list Z) * list (list (gmap string string)))
    (isd : nat * SampleData)
    : result (nat * list (list Z) * list (list (gmap string string))) :=
  let '(cur_sample, combined_genos, combined_metadata) := acc in
  let '(index, sd) := isd in
  let pos_bool :=
    np_where ((λ r, bool_decide (is_Some (SiteID r !! index)))
           <$> combined_pos_df) in
  let genos :=
    if decide (index ≠ 0) then
      let multiallelic_site_id :=
        omap (λ r, SiteID r !! index)
             (filter (λ r, multiallelic index r = true) combined_pos_df) in
      mark_missing multiallelic_site_id (sites_genotypes sd)
    else sites_genotypes sd in
  combined_genos ← assign_block cur_sample pos_bool genos combined_genos;
  combined_metadata ←
    assign_block index pos_bool ((λ m, [m]) <$> sites_metadata sd)
                 combined_metadata;
  Ok (cur_sample + num_samples sd, combined_genos, combined_metadata).

Definition combine_site_row
    (row : df_row * (list Z * list (gmap string string))) : result SiteRow :=
  let '(r, (genos, md)) := row in
  m ← first_metadata md;
  Ok {| row_position := Position r; row_genotypes := genos;
        row_alleles := [Some (Ancestral r); Derived r]; row_metadata := m |}.

(** The data frame of all site keys, sorted; without input files the
    variable is never bound. *)
Definition combined_frame (files : list SampleData) : result (list df_row) :=
  match imap (λ index sd, make_site_df sd index) files with
  | [] => Raise UnboundLocalError
  | df :: dfs => Ok (sort_values (merge_dfs 1 df dfs))
  end.

(** The part of the handler from the join of the data frames on: the rows
    that the last loop gives to [add_site], in order. *)
Definition combine_rows (total_samples : nat) (files : list SampleData)
    : result (list SiteRow) :=
  combined_pos_df ← combined_frame files;
  let num_sites := length combined_pos_df in
  let num_files := length files in
  '(_, combined_genos, combined_metadata) ←
    foldM (combine_block_step combined_pos_df)
          (0, full num_sites total_samples MISSING_DATA,
           full num_sites num_files ∅)
          (imap pair files);
  mapM combine_site_row
    (zip combined_pos_df (zip combined_genos combined_metadata)).

Definition run_combine_sampledata (output : string) (files : list SampleData)
    : list event * result Output :=
  match load_sampledata_files files with
  | Raise e => ([], Raise e)
  | Ok (seq_len, total_samples) =>
      ([CreateSampleData output],
       '(pops, id_map) ← add_populations (λ pop _, pop) files;
       inds ← add_individuals true id_map files;
       rows ← combine_rows total_samples files;
       sites ← foldM add_site [] rows;
       Ok {| out_path := output; out_sequence_length := seq_len;
             out_populations := pops; out_individuals := inds;
             out_sites := sites |})
  end.

(** ** make-sampledata-compatible *)

(** Text files (their lines) and sample-data containers, by path. *)
Record World := {
  text_files : gmap string (list string);
  sample_files : gmap string SampleData
}.

(** [tsinfer.load(fn)] *)
Definition load_sample_data (store : gmap string SampleData) (fn : string)
    : result SampleData :=
  match store !! fn with
  | Some sd => Ok sd
  | None => Raise FileNotFoundError
  end.

(** [sd.delete(sites=ids)] *)
Definition delete_sites (ids : list nat) (sd : SampleData) : SampleData :=
  {| sequence_length := sequence_length sd;
     num_samples := num_samples sd;
     sites := snd <$> filter (λ x, fst x ∉ ids) (imap pair (sites sd));
     populations_metadata := populations_metadata sd;
     individuals := individuals sd;
     samples_population := samples_population sd |}.

(** The loop over the lines after the first: each file loses the sites
    the target does not have and is copied under a new name. The store is
    returned as it is when the loop stops. *)
Fixpoint compatible_copies (target_sd : SampleData)
    (store : gmap string SampleData) (new_names : list string)
    (lines : list string) : gmap string SampleData * result (list string) :=
  match lines with
  | [] => (store, Ok new_names)
  | line :: lines' =>
      let fn := rstrip_nl line in
      match load_sample_data store fn with
      | Raise e => (store, Raise e)
      | Ok cur_sd =>
          let to_delete :=
            np_where ((λ p, negb (bool_decide (p ∈ sites_position target_sd)))
                      <$> sites_position cur_sd) in
          let small_cur_sd := delete_sites to_delete cur_sd in
          let name := drop_suffix 8 fn +:+ "deleted.samples" in
          compatible_copies target_sd (<[name := small_cur_sd]> store)
            (new_names ++ [name]) lines'
      end
  end.

Definition load_and_copy (store : gmap string SampleData)
    (lines : list string) : gmap string SampleData * result (list string) :=
  match lines with
  | [] => (store, Ok [])
  | line :: lines' =>
      match load_sample_data store (rstrip_nl line) with
      | Raise e => (store, Raise e)
      | Ok target_sd => compatible_copies target_sd store [] lines'
      end
  end.

Inductive file_mode := ReadMode | WriteMode.

Record file_handle := {
  handle_path : string;
  handle_mode : file_mode
}.

(** [open(path, "r")]: the file must exist. *)
Definition open_read (files : gmap string (list string)) (path : string)
    : result file_handle :=
  match files !! path with
  | Some _ => Ok {| handle_path := path; handle_mode := ReadMode |}
  | None => Raise FileNotFoundError
  end.

(** [f.write(s)]: a file opened for reading is not writable. *)
Definition file_write (files : gmap string (list string)) (f : file_handle)
    (s : string) : result (gmap string (list string)) :=
  match handle_mode f with
  | ReadMode => Raise UnsupportedOperation
  | WriteMode =>
      Ok (<[handle_path f := default [] (files !! handle_path f) ++ [s]]> files)
  end.

(** [f.writelines(lines)]: one [write] for each line, none for an empty
    list. *)
Definition file_writelines (files : gmap string (list string))
    (f : file_handle) (lines : list string)
    : result (gmap string (list string)) :=
  foldM (λ files s, file_write files f s) files lines.

(** The handler: the world it leaves and how it ends. The text files are
    only touched by the last step. *)
Definition make_sampledata_compatible (input output : string) (w : World)
    : World * result unit :=
  match text_files w !! input with
  | None => (w, Raise FileNotFoundError)
  | Some lines =>
      match load_and_copy (sample_files w) lines with
      | (store, Raise e) =>
          ({| text_files := text_files w; sample_files := store |}, Raise e)
      | (store, Ok new_names) =>
          match f ← open_read (text_files w) output;
                file_writelines (text_files w) f new_names with
          | Raise e =>
              ({| text_files := text_files w; sample_files := store |},
               Raise e)
          | Ok files =>
              ({| text_files := files; sample_files := store |}, Ok tt)
          end
      end
  end.

(** ** combine-ukbb-1kg *)

(** The rows of tskit's tables. Node ids are 32-bit integers that the
    handler only increments, far from their bound, and are integers here;
    node times are binary64 floating-point numbers. *)
Record NodeRow := {
  node_flags : Z;
  node_time : float;
  node_population : Z;
  node_individual : Z;
  node_metadata : string
}.

Record EdgeRow := {
  edge_left : Z;
  edge_right : Z;
  edge_parent : Z;
  edge_child : Z
}.

Record TsSite := {
  ts_position : Z;
  ancestral_state : string;
  ts_site_metadata : string
}.

Record MutationRow := {
  mut_site : Z;
  mut_node : Z;
  derived_state : string;
  mut_parent : Z;
  mut_metadata : string
}.

Record Tables := {
  ts_sequence_length : Z;
  nodes : list NodeRow;
  edges : list EdgeRow;
  ts_sites : list TsSite;
  mutations : list MutationRow
}.

#[global] Instance EdgeRow_eq_dec : EqDecision EdgeRow.
Proof. solve_decision. Defined.

(** [tskit.NULL] *)
Definition NULL : Z := (-1)%Z.

(** [site.mutations] of the site with the given id. *)
Definition site_mutations (t : Tables) (id : nat) : list MutationRow :=
  filter (λ m, mut_site m = Z.of_nat id) (mutations t).

(** The body of the loop over [tg_ancestors_ts.sites()]. *)
Definition subset_step (intersecting_sites : gset Z) (tg : Tables)
    (acc : list TsSite * list MutationRow) (isite : nat * TsSite)
    : result (list TsSite * list MutationRow) :=
  let '(new_sites, new_mutations) := acc in
  let '(id, site) := isite in
  if decide (ts_position site ∈ intersecting_sites) then
    let site_id := Z.of_nat (length new_sites) in
    let new_sites :=
      new_sites ++ [{| ts_position := ts_position site;
                       ancestral_state := "0"; ts_site_metadata := "" |}] in
    _ ← py_assert (bool_decide (length (site_mutations tg id) = 1));
    match site_mutations tg id with
    | mutation :: _ =>
        Ok (new_sites,
            new_mutations ++ [{| mut_site := site_id;
                                 mut_node := mut_node mutation;
                                 derived_state := "1"; mut_parent := NULL;
                                 mut_metadata := "" |}])
    | [] => Raise IndexError
    end
  else Ok acc.

(** [ancestors_sites & ukbb_sites] *)
Definition intersecting_sites (ukbb_samples : SampleData) (tg : Tables)
    : gset Z :=
  list_to_set (ts_position <$> ts_sites tg) ∩ position_set ukbb_samples.

(** The tables after the sites were subset down to the UKBB sites. *)
Definition subset_sites (ukbb_samples : SampleData) (tg : Tables)
    : result Tables :=
  '(new_sites, new_mutations) ←
    foldM (subset_step (intersecting_sites ukbb_samples tg) tg) ([], [])
          (imap pair (ts_sites tg));
  Ok {| ts_sequence_length := ts_sequence_length tg; nodes := nodes tg;
        edges := edges tg; ts_sites := new_sites;
        mutations := new_mutations |}.

(** [np.maximum(a, b)]: the larger one; a NaN wins. *)
Definition np_maximum (a b : float) : float :=
  if PrimFloat.leb b a || PrimFloat.is_nan a then a else b.

(** [np.max(a)]; numpy raises [ValueError] on an empty array. *)
Definition np_max (a : list float) : result float :=
  match a with
  | [] => Raise ValueError
  | x :: a' => Ok (foldl np_maximum x a')
  end.

Definition renumber_node (n : NodeRow) : NodeRow :=
  {| node_flags := Z.lor (node_flags n) 1;
     node_time := (node_time n + 1)%float;
     node_population := node_population n;
     node_individual := node_individual n;
     node_metadata := node_metadata n |}.

Definition renumber_edge (e : EdgeRow) : EdgeRow :=
  {| edge_left := edge_left e; edge_right := edge_right e;
     edge_parent := (edge_parent e + 1)%Z;
     edge_child := (edge_child e + 1)%Z |}.

Definition renumber_mutation (m : MutationRow) : MutationRow :=
  {| mut_site := mut_site m; mut_node := (mut_node m + 1)%Z;
     derived_state := derived_state m; mut_parent := mut_parent m;
     mut_metadata := mut_metadata m |}.

(** The loop over the trees after the first: an edge from the new node 0
    to each root in turn; [trees] are the left end and the root of each
    remaining tree. *)
Fixpoint root_edges (left root : Z) (trees : list (Z * Z))
    (sequence_length : Z) : list EdgeRow :=
  match trees with
  | [] => [{| edge_left := left; edge_right := sequence_length;
              edge_parent := 0; edge_child := (root + 1)%Z |}]
  | (tree_left, tree_root) :: trees' =>
      if decide (tree_root ≠ root) then
        {| edge_left := left; edge_right := tree_left;
           edge_parent := 0; edge_child := (root + 1)%Z |}
        :: root_edges tree_left tree_root trees' sequence_length
      else root_edges left root trees' sequence_length
  end.

Section combine_ukbb_1kg.

(** [tables.simplify(reduce_to_site_topology=True, filter_sites=False)],
    the left end and the root of each tree of [tables.tree_sequence()], and
    [tables.sort()]: tskit's, taken as given. *)
Variable simplify : Tables → Tables.
Variable trees_of : Tables → list (Z * Z).
Variable sort : Tables → Tables.

(** The node, edge and mutation tables rewritten so that node 0 is new. *)
Definition renumber (reduced : Tables) : result Tables :=
  oldest ← np_max (node_time <$> nodes reduced);
  let new_nodes :=
    {| node_flags := 1; node_time := (oldest + 2)%float;
       node_population := NULL; node_individual := NULL;
       node_metadata := "" |}
    :: (renumber_node <$> nodes reduced) in
  let new_edges := renumber_edge <$> edges reduced in
  let new_mutations := renumber_mutation <$> mutations reduced in
  match trees_of reduced with
  | [] => Raise StopIteration
  | (_, root) :: trees =>
      Ok {| ts_sequence_length := ts_sequence_length reduced;
            nodes := new_nodes;
            edges := new_edges
                     ++ root_edges 0 root trees (ts_sequence_length reduced);
            ts_sites := ts_sites reduced;
            mutations := new_mutations |}
  end.

(** The tables of the ancestors tree sequence that is dumped. *)
Definition ancestors_tables (ukbb_samples : SampleData) (tg : Tables)
    : result Tables :=
  tables ← subset_sites ukbb_samples tg;
  tables ← renumber (simplify tables);
  Ok (sort tables).

(** The sites of the new samples file: those of the UKBB file at the
    intersecting positions, with the genotypes of the first [n]
    individuals. *)
Definition ukbb_subset_rows (n : nat) (ukbb_samples : SampleData) (tg : Tables)
    : list SiteRow :=
  (λ s, {| row_position := position s;
           row_genotypes := take (2 * n) (genotypes s);
           row_alleles := Some <$> (ancestral (alleles s)
                                    :: alternatives (alleles s));
           row_metadata := site_metadata s |})
  <$> filter (λ s, position s ∈ intersecting_sites ukbb_samples tg)
             (sites ukbb_samples).

(** The handler: the files it wrote, and the ancestors tables and the rows
    of the new samples file when it got that far. *)
Definition run_combine_ukbb_1kg (chromosome : string)
    (num_individuals : option nat) (ukbb_samples : SampleData) (tg : Tables)
    : list event * result (Tables * list SiteRow) :=
  let ukbb_samples_file := "ukbb_" +:+ chromosome +:+ ".samples" in
  let tg_ancestors_ts_file := "1kg_" +:+ chromosome +:+ ".trees" in
  let ancestors_ts_file := "1kg_ukbb_" +:+ chromosome +:+ ".ancestors.trees" in
  let samples_file := "1kg_ukbb_" +:+ chromosome +:+ ".samples" in
  let tr := [LoadSampleData ukbb_samples_file; LoadTrees tg_ancestors_ts_file] in
  match ancestors_tables ukbb_samples tg with
  | Raise e => (tr, Raise e)
  | Ok ancestors =>
      let n := default (length (individuals ukbb_samples)) num_individuals in
      (tr ++ [DumpTrees ancestors_ts_file; CreateSampleData samples_file],
       Ok (ancestors, ukbb_subset_rows n ukbb_samples tg))
  end.

End combine_ukbb_1kg.

(** ** Notions of the specification *)

(** A finalised container: the sequence length is positive (tsinfer sets
    an unspecified one from the last position), the site positions increase
    strictly and each site has a genotype for each sample. *)
Definition wf_sampledata (sd : SampleData) : Prop :=
  (0 < sequence_length sd)%Z
  ∧ Sorted Z.lt (sites_position sd)
  ∧ Forall (λ s, length (genotypes s) = num_samples sd) (sites sd).

#[global] Instance wf_sampledata_dec sd : Decision (wf_sampledata sd).
Proof. unfold wf_sampledata. apply _. Defined.

(** The intersection and the union of the site-position sets of the input
    files [first :: rest]. *)
Definition positions_intersection (first : SampleData)
    (rest : list SampleData) : gset Z :=
  foldl (∩) (position_set first) (position_set <$> rest).

Definition positions_union (files : list SampleData) : gset Z :=
  ⋃ (position_set <$> files).

(** The files list the same derived allele, or the same ancestral allele,
    wherever they share a position. *)
Definition agree_on {A} (f : Alleles → A) (files : list SampleData) : Prop :=
  Forall (λ sd, Forall (λ sd',
    Forall (λ s, Forall (λ s',
      position s = position s' → f (alleles s) = f (alleles s'))
      (sites sd')) (sites sd)) files) files.

Definition same_derived (files : list SampleData) : Prop :=
  agree_on derived files.

Definition same_ancestral (files : list SampleData) : Prop :=
  agree_on ancestral files.

#[global] Instance same_derived_dec files : Decision (same_derived files).
Proof. unfold same_derived, agree_on. apply _. Defined.

#[global] Instance same_ancestral_dec files : Decision (same_ancestral files).
Proof. unfold same_ancestral, agree_on. apply _. Defined.

(** The first column of the [i]-th file in the combined matrix: the sum of
    the sample counts of the files before it. *)
Definition column_offset (files : list SampleData) (i : nat) : nat :=
  sum_list (num_samples <$> take i files).

(** The columns of the [i]-th file in a combined row. *)
Definition file_columns (files : list SampleData) (i : nat) (sd : SampleData)
    (row : list Z) : list Z :=
  take (num_samples sd) (drop (column_offset files i) row).

(** The key of a site in the join of combine-sampledata, and the site of a
    file under a key, with its index. *)
Definition site_key (s : Site) : Z * string :=
  (position s, ancestral (alleles s)).

Definition row_key (r : df_row) : Z * string := (Position r, Ancestral r).

Definition find_site (sd : SampleData) (k : Z * string)
    : option (nat * Site) :=
  list_find (λ s, site_key s = k) (sites sd).

(** The site of a file at a position. *)
Definition site_at (sd : SampleData) (p : Z) : option Site :=
  snd <$> list_find (λ s, position s = p) (sites sd).

(** What the columns of the [i]-th file hold in a row of the output of
    combine-sampledata: the genotypes of the site of the file at the
    position of the row, and -1, which is [tskit.MISSING_DATA], when the
    file has no site there. In a file after the first, a site whose derived
    allele is not the one of the row has its genotypes 1 turned into -1. *)
Definition combined_columns (i : nat) (sd : SampleData) (row : SiteRow)
    : list Z :=
  match site_at sd (row_position row) with
  | Some s =>
      if bool_decide (i ≠ 0 ∧ is_Some (derived (alleles s))
                      ∧ row_alleles row !! 1 ≠ Some (derived (alleles s)))
      then (λ g, if bool_decide (g = 1%Z) then (-1)%Z else g) <$> genotypes s
      else genotypes s
  | None => replicate (num_samples sd) (-1)%Z
  end.

(** The same in terms of the join, which is on the position and the
    ancestral allele: the site of the file is looked up under the key of
    the row. *)
Definition keyed_columns (i : nat) (sd : SampleData) (row : SiteRow)
    : list Z :=
  match row_alleles row with
  | [Some anc; der] =>
      match find_site sd (row_position row, anc) with
      | Some (_, s) =>
          if bool_decide (i ≠ 0 ∧ is_Some (derived (alleles s))
                          ∧ der ≠ derived (alleles s))
          then missing_if_derived <$> genotypes s
          else genotypes s
      | None => replicate (num_samples sd) MISSING_DATA
      end
  | _ => []
  end.

(** The data frame after the files before [j] were joined: each row has
    the site index and the derived allele of its key in each of them, the
    keys do not repeat and are those of the files. *)
Definition frame_row_ok (files : list SampleData) (j : nat) (r : df_row)
    : Prop :=
  ∀ i,
    SiteID r !! i
    = (if decide (i < j)
       then files !! i ≫= λ sd, fst <$> find_site sd (row_key r)
       else None)
    ∧ DerivedOf r !! i
      = (if decide (1 ≤ i < j)
         then files !! i ≫= λ sd,
              find_site sd (row_key r) ≫= λ x, derived (alleles (snd x))
         else None).

Definition frame_ok (files : list SampleData) (j : nat) (df : list df_row)
    : Prop :=
  NoDup (row_key <$> df)
  ∧ Forall (frame_row_ok files j) df
  ∧ ∀ k, k ∈ row_key <$> df
         ↔ ∃ i sd, i < j ∧ files !! i = Some sd ∧ k ∈ site_key <$> sites sd.

(** The state of the combined matrix [M] while the loop over the files
    fills it. [E ρ i sd] is what the columns of the [i]-th file are to hold
    in row [ρ]. After the files [done], with [cur] the next free column:
    each row has [total] columns, those from [cur] on still hold
    [MISSING_DATA], and the columns of each file of [done] hold what they
    are to hold. *)
Definition blocks_written (E : nat → nat → SampleData → list Z)
    (total : nat) (done : list SampleData) (cur : nat) (M : list (list Z))
    : Prop :=
  ∀ ρ row, M !! ρ = Some row →
    length row = total
    ∧ drop cur row = replicate (total - cur) MISSING_DATA
    ∧ ∀ i sd, done !! i = Some sd → file_columns done i sd row = E ρ i sd.

(** The block [G] that the [i]-th file [sd] contributes and the rows
    [rows] it goes to, against [E]: block [j] is what row [rows !! j] is to
    hold, and the rows that get no block are to hold [MISSING_DATA]. *)
Definition block_source (E : nat → nat → SampleData → list Z)
    (num_rows : nat) (rows : list nat) (G : list (list Z)) (i : nat)
    (sd : SampleData) : Prop :=
  NoDup rows
  ∧ length rows = length G
  ∧ (∀ j ρ, rows !! j = Some ρ → ρ < num_rows ∧ G !! j = Some (E ρ i sd))
  ∧ (∀ ρ, ρ < num_rows → length (E ρ i sd) = num_samples sd)
  ∧ (∀ ρ, ρ < num_rows → ρ ∉ rows →
          E ρ i sd = replicate (num_samples sd) MISSING_DATA).

(** What the columns of a file are to hold in row [ρ] of the output of
    merge-sampledata, and of combine-sampledata, in terms of the merged
    positions and of the data frame. *)
Definition merged_block (merged_pos : list Z) (ρ i : nat) (sd : SampleData)
    : list Z :=
  default [] (genotypes <$> select_sites merged_pos sd !! ρ).

Definition combine_genos (combined_pos_df : list df_row) (index : nat)
    (sd : SampleData) : list (list Z) :=
  if decide (index ≠ 0) then
    mark_missing
      (omap (λ r, SiteID r !! index)
            (filter (λ r, multiallelic index r = true) combined_pos_df))
      (sites_genotypes sd)
  else sites_genotypes sd.

Definition combined_block (combined_pos_df : list df_row) (ρ i : nat)
    (sd : SampleData) : list Z :=
  match combined_pos_df !! ρ with
  | Some r =>
      match SiteID r !! i with
      | Some s => default [] (combine_genos combined_pos_df i sd !! s)
      | None => replicate (num_samples sd) MISSING_DATA
      end
  | None => []
  end.

(** What tskit's passes over the tables keep. The view of the mutation
    table that matters here is the site and the derived state of each row,
    in order. *)
Definition mutation_view (t : Tables) : list (Z * string) :=
  (λ m, (mut_site m, derived_state m)) <$> mutations t.

(** [simplify] with [filter_sites=False] keeps every row of the site table,
    with or without mutations. It keeps the mutations in their order, each
    with its site and derived state (its node and parent are renumbered),
    except for those it removes: the mutations above no sample. *)
Definition simplify_keeps_sites (f : Tables → Tables) : Prop :=
  ∀ t, ts_sites (f t) = ts_sites t
       ∧ mutation_view (f t) `sublist_of` mutation_view t.

(** [sort] puts the sites in increasing order of position and the
    mutations in the order of their sites: a site table that is in
    increasing order stays as it is, and the mutations are reordered. *)
Definition sort_keeps_sites (f : Tables → Tables) : Prop :=
  ∀ t, StronglySorted Z.lt (ts_position <$> ts_sites t) →
       ts_sites (f t) = ts_sites t ∧ mutation_view (f t) ≡ₚ mutation_view t.



(** The populations of the input files in the order in which the first
    pair of loops visits them, and the individuals, each with its file and
    its index in the file. *)
Definition input_populations (files : list SampleData)
    : list (gmap string string) :=
  concat (populations_metadata <$> files).

Definition input_individuals (files : list SampleData)
    : list (SampleData * nat * Individual) :=
  concat ((λ sd, imap (λ id ind, (sd, id, ind)) (individuals sd)) <$> files).

(** The population of the [id]-th individual of a file: the one its first
    sample points to. *)
Definition own_population (sd : SampleData) (id : nat)
    : result (gmap string string) :=
  p ← py_index (samples_population sd) (Z.of_nat (id * 2));
  py_index (populations_metadata sd) p.

(** A file lists another ancestral allele than the first file at a
    position that all the files have. *)
Definition ancestral_conflict (first : SampleData) (rest : list SampleData)
    : Prop :=
  Exists (λ sd,
    Exists (λ s, Exists (λ s',
      position s = position s'
      ∧ position s ∈ positions_intersection first rest
      ∧ ancestral (alleles s) ≠ ancestral (alleles s')) (sites sd))
      (sites first)) rest.

#[global] Instance ancestral_conflict_dec first rest :
  Decision (ancestral_conflict first rest).
Proof. unfold ancestral_conflict. apply _. Defined.

(** The derived allele that the join of combine-sampledata gives a key:
    that of the first file, in input order, that lists one under the key. *)
Definition first_derived (files : list SampleData) (k : Z * string)
    : option string :=
  head (omap (λ sd, find_site sd k ≫= λ x, derived (alleles x.2)) files).

(** ** Example inputs *)

Definition example_site (p : Z) (anc : string) (alts : list string)
    (g : list Z) : Site :=
  {| position := p;
     alleles := {| ancestral := anc; alternatives := alts |};
     genotypes := g; site_metadata := ∅ |}.

(** A finalised container of [n] individuals of one population, with two
    samples each. *)
Definition example_file (len : Z) (n : nat) (s : list Site) : SampleData :=
  {| sequence_length := len; num_samples := 2 * n; sites := s;
     populations_metadata := [{["name" := "pop"]}];
     individuals := replicate n {| ind_metadata := ∅; ind_time := 0 |};
     samples_population := replicate (2 * n) 0%Z |}.

(** Two samples, sites at 1, 2 and 5. *)
Definition example_file_a : SampleData :=
  example_file 10 1
    [example_site 1 "A" ["C"] [0; 1]%Z;
     example_site 2 "A" ["C"] [1; 1]%Z;
     example_site 5 "G" ["T"] [1; 0]%Z].

(** Four samples, sites at 2, 3 and 5; at 2 the derived allele is not
    that of [example_file_a]. *)
Definition example_file_b : SampleData :=
  example_file 10 2
    [example_site 2 "A" ["G"] [0; 1; 1; 0]%Z;
     example_site 3 "A" ["G"] [1; 1; 0; 1]%Z;
     example_site 5 "G" ["T"] [1; 0; 1; 0]%Z].

(** Two samples, sites at 5 and 7; at 5 the ancestral allele is not that of
    the other files. *)
Definition example_file_c : SampleData :=
  example_file 10 1
    [example_site 5 "C" [] [0; 0]%Z;
     example_site 7 "C" ["T"] [0; 1]%Z].

(** Two samples, sites at 2 and 5 with the alleles of [example_file_a]. *)
Definition example_file_d : SampleData :=
  example_file 10 1
    [example_site 2 "A" ["C"] [0; 1]%Z;
     example_site 5 "G" ["T"] [1; 1]%Z].

(** A tree sequence with two samples under one root, the node times
    given, and sites at 1, 2 and 7 with one mutation each. *)
Definition example_tables (sample_time root_time : float) : Tables :=
  {| ts_sequence_length := 10;
     nodes := [ {| node_flags := 1; node_time := sample_time;
                   node_population := NULL; node_individual := NULL;
                   node_metadata := "" |};
                {| node_flags := 1; node_time := sample_time;
                   node_population := NULL; node_individual := NULL;
                   node_metadata := "" |};
                {| node_flags := 0; node_time := root_time;
                   node_population := NULL; node_individual := NULL;
                   node_metadata := "" |} ];
     edges := [ {| edge_left := 0; edge_right := 10; edge_parent := 2;
                   edge_child := 0 |};
                {| edge_left := 0; edge_right := 10; edge_parent := 2;
                   edge_child := 1 |} ];
     ts_sites := [ {| ts_position := 1; ancestral_state := "A";
                      ts_site_metadata := "" |};
                   {| ts_position := 2; ancestral_state := "A";
                      ts_site_metadata := "" |};
                   {| ts_position := 7; ancestral_state := "G";
                      ts_site_metadata := "" |} ];
     mutations := [ {| mut_site := 0; mut_node := 0; derived_state := "C";
                       mut_parent := NULL; mut_metadata := "" |};
                    {| mut_site := 1; mut_node := 1; derived_state := "C";
                       mut_parent := NULL; mut_metadata := "" |};
                    {| mut_site := 2; mut_node := 0; derived_state := "T";
                       mut_parent := NULL; mut_metadata := "" |} ] |}.

(** On that tree sequence every node is above a sample and the tables are
    in tskit's order, before and after the renumbering: [simplify] and
    [sort] give back the tables they get, and there is one tree, from 0 on,
    with root 2. *)
Definition example_simplify (t : Tables) : Tables := t.
Definition example_sort (t : Tables) : Tables := t.
Definition example_trees_of (t : Tables) : list (Z * Z) := [(0, 2)%Z].

(** The same tree sequence with one more node, which is no sample and has
    no edge, and with the mutation of the site at 1 above that node. *)
Definition example_tables_isolated : Tables :=
  let t := example_tables 0 1 in
  {| ts_sequence_length := ts_sequence_length t;
     nodes := nodes t ++ [ {| node_flags := 0; node_time := 0.5;
                              node_population := NULL; node_individual := NULL;
                              node_metadata := "" |} ];
     edges := edges t;
     ts_sites := ts_sites t;
     mutations := [ {| mut_site := 0; mut_node := 3; derived_state := "C";
                       mut_parent := NULL; mut_metadata := "" |};
                    {| mut_site := 1; mut_node := 1; derived_state := "C";
                       mut_parent := NULL; mut_metadata := "" |};
                    {| mut_site := 2; mut_node := 0; derived_state := "T";
                       mut_parent := NULL; mut_metadata := "" |} ] |}.

(** [simplify] on tables whose last node is the only one above no sample:
    the node goes, and the mutations above it; the sites stay. *)
Definition example_simplify_isolated (t : Tables) : Tables :=
  let isolated := Z.of_nat (length (nodes t) - 1) in
  {| ts_sequence_length := ts_sequence_length t;
     nodes := all_but_last (nodes t);
     edges := edges t;
     ts_sites := ts_sites t;
     mutations := filter (λ m, mut_node m ≠ isolated) (mutations t) |}.



(** Files with populations and individuals: one individual of two samples
    each. In [example_file_e] the individual belongs to the second of two
    populations; in [example_file_f] its samples have no population
    ([tskit.NULL]); the population of [example_file_g] has no name. *)
Definition example_individuals_file (pops : list (gmap string string))
    (pop : Z) (t : float) : SampleData :=
  {| sequence_length := 10; num_samples := 2;
     sites := [example_site 2 "A" ["C"] [0; 1]%Z;
               example_site 5 "G" ["T"] [1; 1]%Z];
     populations_metadata := pops;
     individuals := [{| ind_metadata := {["id" := "i"]}; ind_time := t |}];
     samples_population := [pop; pop] |}.

Definition example_file_e : SampleData :=
  example_individuals_file [{["name" := "CEU"]}; {["name" := "YRI"]}] 1 0.

Definition example_file_f : SampleData :=
  example_individuals_file [{["name" := "YRI"; "region" := "Africa"]}]
                           (-1) 1.


(** Two samples, sites at 2 and 5 with the alleles of [example_file_a],
    each with metadata. *)
Definition example_file_h : SampleData :=
  example_file 10 1
    [ {| position := 2;
         alleles := {| ancestral := "A"; alternatives := ["C"] |};
         genotypes := [0; 1]%Z; site_metadata := {["id" := "rs2"]} |};
      {| position := 5;
         alleles := {| ancestral := "G"; alternatives := ["T"] |};
         genotypes := [1; 0]%Z; site_metadata := {["id" := "rs5"]} |} ].

(** * Properties *)

(** ** The result monad *)

Lemma bind_Ok {A B} (r : result A) (k : A → result B) (b : B) :
  r ≫= k = Ok b → ∃ a, r = Ok a ∧ k a = Ok b.
Proof. destruct r as [a|e]; simpl; [eauto | discriminate]. Qed.

Lemma py_assert_Ok c : py_assert c = Ok tt → c = true.
Proof. by destruct c. Qed.

Ltac inv_bind H :=
  let a := fresh "a" in
  let Ha := fresh "Ha" in
  apply bind_Ok in H as (a & Ha & H).

Lemma NoDup_fmap_eq {A B} (f : A → B) (l : list A) x y :
  NoDup (f <$> l) → x ∈ l → y ∈ l → f x = f y → x = y.
Proof.
  intros Hnd [a Ha]%list_elem_of_lookup [b Hb]%list_elem_of_lookup Hf.
  assert (a = b) as ->; [|congruence].
  apply (NoDup_lookup _ _ _ (f x) Hnd); rewrite list_lookup_fmap.
  - by rewrite Ha.
  - by rewrite Hb, Hf.
Qed.

(** ** The command-line entry point *)

Section main_facts.
Variable py_int : string → option Z.

Lemma main_Ok_inv argv h ns :
  Cli.main py_int argv = Ok (h, ns) →
  ∃ sp rest ns',
    argv = Cli.command sp :: rest ∧ sp ∈ Cli.subparsers ∧ h = Cli.func sp
    ∧ Cli.parse_arguments py_int (Cli.arguments sp) rest = Ok ns'
    ∧ ns = <["command" := Cli.VStr (Cli.command sp)]> ns'.
Proof.
  unfold Cli.main, Cli.select_subparser. destruct argv as [|c rest]; [done|].
  destruct (List.find _ Cli.subparsers) as [sp|] eqn:Hfind; [|done].
  cbn [mbind result_bind]. intros H.
  apply bind_Ok in H as (ns' & Hparse & [= <- <-]).
  apply find_some in Hfind as [Hin Hc].
  apply bool_decide_eq_true in Hc as <-.
  exists sp, rest, ns'. by rewrite list_elem_of_In.
Qed.

(** C7: [main] registers exactly the fourteen subcommands of the
    specification, each with its handler. A subcommand is required: a
    command line without one, or whose first token is none of the fourteen
    names, ends in an error of the parser. Whenever [main] calls a handler,
    the first token is one of the fourteen names and the handler is the one
    registered under it; and each of the fourteen handlers is called on
    some command line that starts with its name. *)
Theorem main_registers_fourteen_subcommands :
  (λ sp, (Cli.command sp, Cli.func sp)) <$> Cli.subparsers = Cli.spec_commands
  ∧ length Cli.subparsers = 14
  ∧ NoDup (Cli.command <$> Cli.subparsers)
  ∧ NoDup (Cli.func <$> Cli.subparsers)
  ∧ Cli.required = true
  ∧ Cli.main py_int [] = Raise SystemExit
  ∧ (∀ c rest, c ∉ Cli.command <$> Cli.subparsers →
               Cli.main py_int (c :: rest) = Raise SystemExit)
  ∧ (∀ argv h ns, Cli.main py_int argv = Ok (h, ns) →
       ∃ c rest, argv = c :: rest ∧ (c, h) ∈ Cli.spec_commands
                 ∧ ns !! "command" = Some (Cli.VStr c)
                 ∧ ∀ h', (c, h') ∈ Cli.spec_commands → h' = h)
  ∧ (∀ c h, (c, h) ∈ Cli.spec_commands →
       ∃ rest ns, Cli.main py_int (c :: rest) = Ok (h, ns)).
Proof.
  assert (NoDup (Cli.command <$> Cli.subparsers)) as Hnames
    by (apply (bool_decide_unpack _); by vm_compute).
  assert ((λ sp, (Cli.command sp, Cli.func sp)) <$> Cli.subparsers
          = Cli.spec_commands) as Htable by reflexivity.
  split; [done|]. split; [reflexivity|]. split; [done|].
  split; [apply (bool_decide_unpack _); by vm_compute|].
  split; [reflexivity|]. split; [reflexivity|].
  split; [|split].
  - intros c rest Hc. unfold Cli.main, Cli.select_subparser.
    destruct (List.find _ Cli.subparsers) as [sp|] eqn:Hfind; [|done].
    apply find_some in Hfind as [Hin Hsp%bool_decide_eq_true].
    exfalso. apply Hc, list_elem_of_fmap. exists sp.
    by rewrite list_elem_of_In.
  - intros argv h ns (sp & rest & ns' & -> & Hsp & -> & _ & ->)%main_Ok_inv.
    exists (Cli.command sp), rest. split; [done|].
    split; [|split].
    + rewrite <- Htable. apply list_elem_of_fmap. by exists sp.
    + by rewrite lookup_insert_eq.
    + intros h'. rewrite <- Htable.
      intros (sp' & [= Hc ->] & Hsp')%list_elem_of_fmap. f_equal.
      by apply (NoDup_fmap_eq Cli.command Cli.subparsers).
  - intros c h Hin. unfold Cli.spec_commands in Hin.
    repeat (apply elem_of_cons in Hin as [[= -> ->]|Hin];
            [first [eexists ["a"; "b"], _; reflexivity
                   |eexists ["a"], _; reflexivity
                   |eexists ["a"; "b"; "c"; "d"], _; reflexivity]|]).
    by apply elem_of_nil in Hin.
Qed.

End main_facts.

(** ** sequential-augment *)

Section sequential_augment_facts.
Variable choice : Z → nat → nat → list nat.

Lemma total_required_terminates (fuel n total num_samples : nat) :
  1 ≤ n → Nat.div num_samples 4 - n < fuel →
  is_Some (total_required fuel n total num_samples).
Proof.
  revert n total. induction fuel as [|fuel IH]; intros n total Hn Hf; [lia|].
  cbn [total_required]. case_decide; [|by eexists]. apply IH; lia.
Qed.

Lemma augment_rounds_terminates (fuel : nat) base t (num_samples : nat) st :
  1 ≤ st_n st → Nat.div num_samples 4 - st_n st < fuel →
  ∃ st', augment_rounds fuel base t num_samples st = Some st'.
Proof.
  revert st. induction fuel as [|fuel IH]; intros st Hn Hf; [lia|].
  cbn [augment_rounds]. case_decide; [|by eexists].
  apply IH; cbn [augment_round st_n]; lia.
Qed.

(** Once a round has run, [final_file] stays bound to the name of a round. *)
Lemma augment_rounds_final_file fuel base t num_samples st st' :
  augment_rounds fuel base t num_samples st = Some st' →
  (∃ n : nat, st_final_file st
     = Some (base +:+ ".augmented_" +:+ pretty n +:+ ".nosimplify.trees")) →
  ∃ n : nat, st_final_file st'
     = Some (base +:+ ".augmented_" +:+ pretty n +:+ ".nosimplify.trees").
Proof.
  revert st. induction fuel as [|fuel IH]; intros st; [discriminate|].
  cbn [augment_rounds]. case_decide.
  - intros Hr _. apply (IH _ Hr). by eexists.
  - by intros [= <-].
Qed.

(** A round only adds events to the trace. *)
Lemma augment_rounds_trace fuel base t num_samples st st' :
  augment_rounds fuel base t num_samples st = Some st' →
  ∃ tr, st_trace st' = st_trace st ++ tr.
Proof.
  revert st. induction fuel as [|fuel IH]; intros st; [discriminate|].
  cbn [augment_rounds]. case_decide.
  - intros Hr. destruct (IH _ Hr) as [tr ->]. cbn [augment_round st_trace].
    rewrite <- app_assoc. by eexists.
  - intros [= <-]. exists []. by rewrite app_nil_r.
Qed.

(** C8: with fewer than 12 samples no augmentation round runs and the
    handler ends with an unbound-local error on [final_file], after the
    samples were matched and before anything is dumped; with 12 samples or
    more the rounds end, [final_file] is bound to the name of the last round
    and the final dump is reached. *)
Theorem sequential_augment_final_file (fuel : nat) args (num_samples : nat) :
  num_samples < fuel →
  let base := py_join "." (all_but_last (py_split "."%char (aug_input args))) in
  (num_samples < 12 →
     run_sequential_augment choice fuel args num_samples
     = Some ([LoadSampleData (aug_input args);
              LoadTrees (base +:+ ".ancestors.trees");
              SaveNpy (base +:+ ".augmented_samples.npy")
                      (choice (aug_seed args) num_samples 0);
              MatchSamples (aug_num_threads args)],
             Raise UnboundLocalError))
  ∧ (12 ≤ num_samples →
     ∃ tr (n : nat) subset,
       run_sequential_augment choice fuel args num_samples
       = Some (tr ++ [MatchSamples (aug_num_threads args);
                      DumpTrees (base +:+ ".augmented_" +:+ pretty n
                                 +:+ ".nosimplify.trees")],
               Ok tt)
       ∧ Augment subset (aug_num_threads args) ∈ tr).
Proof.
  intros Hfuel base. split.
  - intros Hsmall. unfold run_sequential_augment. fold base.
    destruct fuel as [|fuel]; [lia|].
    assert (¬ 2 < Nat.div num_samples 4) as Hq.
    { intros Hlt. assert (3 * 4 ≤ num_samples); [|lia].
      etrans; [|apply (Nat.Div0.mul_div_le _ 4)]. lia. }
    cbn [total_required augment_rounds st_n]. rewrite decide_False by done.
    cbn [mbind option_bind]. rewrite decide_False by done. reflexivity.
  - intros Hbig. unfold run_sequential_augment. fold base.
    assert (2 < Nat.div num_samples 4) as Hq.
    { apply (Nat.Div0.div_le_mono 12 num_samples 4) in Hbig.
      change (Nat.div 12 4) with 3 in Hbig. lia. }
    destruct (total_required_terminates fuel 2 0 num_samples) as [total ->];
      [lia| |].
    { pose proof (Nat.Div0.div_le_upper_bound num_samples 4 num_samples). lia. }
    cbn [mbind option_bind].
    destruct fuel as [|fuel]; [lia|].
    cbn [augment_rounds st_n]. rewrite decide_True by done.
    match goal with |- context [augment_rounds fuel ?b ?t ?n ?st] =>
      destruct (augment_rounds_terminates fuel b t n st) as [st' Hst'];
      [cbn [augment_round st_n]; lia
      |cbn [augment_round st_n];
       pose proof (Nat.Div0.div_le_upper_bound num_samples 4 num_samples); lia|]
    end.
    rewrite Hst'. cbn [mbind option_bind].
    destruct (augment_rounds_final_file _ _ _ _ _ _ Hst') as [n Hn];
      [by eexists|].
    destruct (augment_rounds_trace _ _ _ _ _ _ Hst') as [tr Htr].
    rewrite Hn, Htr. cbn [augment_round st_trace].
    eexists _, n, _. split; [by rewrite <- app_assoc|].
    cbn [app]. do 3 apply list_elem_of_further. apply list_elem_of_here.
Qed.

End sequential_augment_facts.

(** [sequential_augment_final_file] at 50 samples, the picked samples
    being the first ones. *)
Lemma sequential_augment_final_file_witness :
  50 < 100
  ∧ ∃ tr (n : nat) subset,
      run_sequential_augment (λ _ _ total, seq 0 total) 100
        {| aug_input := "ukbb.samples"; aug_num_threads := 0;
           aug_seed := 1 |} 50
      = Some (tr ++ [MatchSamples 0;
                     DumpTrees ("ukbb.augmented_" +:+ pretty n
                                +:+ ".nosimplify.trees")],
              Ok tt)
      ∧ Augment subset 0 ∈ tr.
Proof.
  split; [lia|].
  apply (sequential_augment_final_file (λ _ _ total, seq 0 total) 100
           {| aug_input := "ukbb.samples"; aug_num_threads := 0;
              aug_seed := 1 |} 50); lia.
Defined.

(** ** snip-centromere *)

Section snip_centromere_facts.
Variable py_int : string → option Z.

Lemma find_centromere_no_row chrom rows :
  Forall (λ row : gmap string pyval,
            ∃ v, row !! "chrom" = Some v ∧ v ≠ PyStr chrom) rows →
  find_centromere py_int chrom rows = Raise ValueError.
Proof.
  induction 1 as [|row rows (v & Hv & Hne) _ IH]; [reflexivity|].
  cbn [find_centromere]. unfold getitem. rewrite Hv.
  cbn [mbind result_bind]. by rewrite decide_False.
Qed.

(** C6: when every row of the centromeres file has a ["chrom"] field and
    none equals the chromosome name, the handler raises [ValueError] having
    only opened the centromeres file: the tree sequence is not loaded and
    nothing is dumped. *)
Theorem snip_centromere_missing_chromosome args rows position :
  Forall (λ row : gmap string pyval,
            ∃ v, row !! "chrom" = Some v ∧ v ≠ PyStr (snip_chrom args)) rows →
  run_snip_centromere py_int args rows position
  = ([OpenRead (snip_centromeres args)], Raise ValueError).
Proof.
  intros Hrows. unfold run_snip_centromere.
  by rewrite (find_centromere_no_row _ _ Hrows).
Qed.

End snip_centromere_facts.

(** [snip_centromere_missing_chromosome] on a file with the rows of
    chromosomes 1 and 2, asked for chromosome 3. *)
Lemma snip_centromere_missing_chromosome_witness :
  let rows : list (gmap string pyval) :=
    [ {["chrom" := PyStr "chr1"; "start" := PyStr "100"; "end" := PyStr "200"]};
      {["chrom" := PyStr "chr2"; "start" := PyStr "150"; "end" := PyStr "250"]} ] in
  let args := {| snip_input := "in.trees"; snip_output := "out.trees";
                 snip_chrom := "chr3"; snip_centromeres := "centromeres.csv" |} in
  Forall (λ row : gmap string pyval,
            ∃ v, row !! "chrom" = Some v ∧ v ≠ PyStr "chr3") rows
  ∧ run_snip_centromere (λ _, None) args rows [10; 20; 300]%Z
    = ([OpenRead "centromeres.csv"], Raise ValueError).
Proof.
  intros rows args.
  assert (Forall (λ row : gmap string pyval,
            ∃ v, row !! "chrom" = Some v ∧ v ≠ PyStr "chr3") rows) as Hrows.
  { repeat constructor; eexists; (split; [by vm_compute|discriminate]). }
  split; [exact Hrows|].
  exact (snip_centromere_missing_chromosome (λ _, None) args rows
           [10; 20; 300]%Z Hrows).
Defined.

(** ** Loading the input files of combine-sampledata and merge-sampledata *)

Lemma load_step_truthy (len : Z) (total : nat) (sd : SampleData) :
  len ≠ 0%Z →
  load_step (Some len, total) sd
  = if bool_decide (sequence_length sd = len)
    then Ok (Some len, total + num_samples sd)
    else Raise AssertionError.
Proof.
  intros Hlen. unfold load_step, truthy.
  destruct (Z.eqb_spec len 0) as [|_]; [done|]. cbn [negb].
  repeat case_bool_decide; simplify_eq; done.
Qed.

Lemma load_mismatch_asserts (len : Z) (total : nat) (files : list SampleData) :
  len ≠ 0%Z →
  Exists (λ sd, sequence_length sd ≠ len) files →
  foldM load_step (Some len, total) files = Raise AssertionError.
Proof.
  intros Hlen Hex. revert total.
  induction files as [|sd files IH]; intros total; [by inversion Hex|].
  cbn [foldM]. rewrite load_step_truthy by done. case_bool_decide.
  - cbn [mbind result_bind]. apply IH. inversion Hex; subst; done.
  - reflexivity.
Qed.

(** C5: when some input file has another sequence length than the first
    one, a finalised container, combine-sampledata and merge-sampledata end
    with an assertion error and have not created the output container. The
    test [if sequence_length:] of the loop is Python's truth test, so the
    comparison takes place once a sequence length other than zero was
    seen, which a finalised first file provides. *)
Theorem mismatched_sequence_length_asserts output first rest :
  wf_sampledata first →
  Exists (λ sd, sequence_length sd ≠ sequence_length first) rest →
  run_combine_sampledata output (first :: rest) = ([], Raise AssertionError)
  ∧ run_merge_sampledata output (first :: rest) = ([], Raise AssertionError).
Proof.
  intros (Hlen & _) Hex.
  assert (load_sampledata_files (first :: rest) = Raise AssertionError) as Hl.
  { unfold load_sampledata_files. cbn [foldM].
    change (load_step (None, 0) first)
      with (Ok (A:=option Z * nat)
              (Some (sequence_length first), 0 + num_samples first)).
    cbn [mbind result_bind]. apply load_mismatch_asserts; [lia|done]. }
  unfold run_combine_sampledata, run_merge_sampledata. by rewrite Hl.
Qed.

(** [mismatched_sequence_length_asserts] on a file of length 10 followed by
    one of length 11. *)
Lemma mismatched_sequence_length_asserts_witness :
  wf_sampledata example_file_a
  ∧ Exists (λ sd, sequence_length sd ≠ sequence_length example_file_a)
           [example_file 11 0 []]
  ∧ run_combine_sampledata "out.samples" [example_file_a; example_file 11 0 []]
    = ([], Raise AssertionError)
  ∧ run_merge_sampledata "out.samples" [example_file_a; example_file 11 0 []]
    = ([], Raise AssertionError).
Proof.
  assert (wf_sampledata example_file_a) as H1
    by (apply (bool_decide_unpack _); by vm_compute).
  assert (Exists (λ sd, sequence_length sd ≠ sequence_length example_file_a)
                 [example_file 11 0 []]) as H2
    by (constructor; by vm_compute).
  split; [exact H1|]. split; [exact H2|].
  exact (mismatched_sequence_length_asserts "out.samples" example_file_a
           [example_file 11 0 []] H1 H2).
Defined.

(** ** make-sampledata-compatible *)





(** ** Lengths and lookups of the combined matrices *)

Lemma mapM_length {A B} (f : A → result B) l l' :
  mapM f l = Ok l' → length l' = length l.
Proof.
  revert l'. induction l as [|a l IH]; intros l'; cbn [mapM].
  - by intros [= <-].
  - intros H. inv_bind H. inv_bind H. injection H as <-.
    cbn [length]. f_equal. by apply IH.
Qed.

Lemma mapM_lookup {A B} (f : A → result B) l l' i b :
  mapM f l = Ok l' → l' !! i = Some b → ∃ a, l !! i = Some a ∧ f a = Ok b.
Proof.
  revert l' i. induction l as [|a l IH]; intros l' i; cbn [mapM].
  - by intros [= <-].
  - intros H. inv_bind H. inv_bind H. injection H as <-.
    destruct i as [|i]; cbn.
    + intros [= <-]. eauto.
    + by apply IH.
Qed.

Lemma scatter_rows_length {A} cur rows (G M : list (list A)) :
  length (scatter_rows cur rows G M) = length M.
Proof.
  revert G M. induction rows as [|r rows IH]; intros [|g G] M; try done.
  cbn [scatter_rows]. by rewrite IH, length_alter.
Qed.

Lemma assign_block_length {A} cur rows (G M M' : list (list A)) :
  assign_block cur rows G M = Ok M' → length M' = length M.
Proof.
  unfold assign_block. case_decide; [|done]. intros [= <-].
  apply scatter_rows_length.
Qed.

Lemma np_sort_set_length (s : gset Z) : length (np_sort_set s) = size s.
Proof. unfold np_sort_set. by rewrite merge_sort_Permutation. Qed.

Lemma mask_select_length {A} (mask : list bool) (a : list A) :
  length (mask_select mask a) ≤ length a.
Proof.
  unfold mask_select. rewrite length_fmap.
  etrans; [apply length_filter|]. rewrite length_zip_with. lia.
Qed.

Lemma mask_select_all {A} (a : list A) :
  mask_select (replicate (length a) true) a = a.
Proof.
  unfold mask_select. induction a as [|x a IH]; [done|].
  cbn [length replicate zip zip_with]. rewrite filter_cons_True by done.
  cbn [fmap list_fmap]. f_equal. apply IH.
Qed.

(** ** Sorted lists of positions *)

Lemma StronglySorted_filter {A} (R : relation A) (P : A → Prop)
    `{∀ x, Decision (P x)} (l : list A) :
  StronglySorted R l → StronglySorted R (filter P l).
Proof.
  induction 1 as [|x l Hl IH Hx]; [constructor|].
  rewrite filter_cons. case_decide; [|done].
  constructor; [done|]. rewrite Forall_forall in Hx |- *.
  intros y [_ Hy]%list_elem_of_filter. by apply Hx.
Qed.

Lemma StronglySorted_lt_NoDup (l : list Z) : StronglySorted Z.lt l → NoDup l.
Proof.
  induction 1 as [|x l Hl IH Hx]; constructor; [|done].
  intros Hin. rewrite Forall_forall in Hx. specialize (Hx _ Hin). lia.
Qed.

Lemma StronglySorted_lt_le (l : list Z) :
  StronglySorted Z.lt l → StronglySorted Z.le l.
Proof.
  induction 1 as [|x l Hl IH Hx]; constructor; [done|].
  eapply Forall_impl; [done|]. simpl. lia.
Qed.

Lemma fmap_filter_comm {A B} (f : A → B) (P : B → Prop)
    `{Hdec : ∀ y, Decision (P y)} (l : list A) :
  f <$> filter (λ x, P (f x)) l = filter P (f <$> l).
Proof.
  induction l as [|x l IH]; [done|]. cbn [fmap list_fmap].
  rewrite !filter_cons. case_decide; cbn [fmap list_fmap]; by rewrite IH.
Qed.

(** Two lists in increasing order with the same entries are equal. *)
Lemma sorted_lt_unique (l k : list Z) :
  StronglySorted Z.lt l → StronglySorted Z.lt k →
  (∀ x, x ∈ l ↔ x ∈ k) → l = k.
Proof.
  intros Hl Hk Hlk. apply (Sorted_unique Z.le).
  - by apply StronglySorted_Sorted, StronglySorted_lt_le.
  - by apply StronglySorted_Sorted, StronglySorted_lt_le.
  - apply NoDup_Permutation; auto using StronglySorted_lt_NoDup.
Qed.

Lemma np_sort_set_sorted (s : gset Z) : StronglySorted Z.lt (np_sort_set s).
Proof.
  assert (NoDup (np_sort_set s)) as Hnd.
  { unfold np_sort_set. rewrite merge_sort_Permutation. apply NoDup_elements. }
  assert (StronglySorted Z.le (np_sort_set s)) as Hs.
  { apply Sorted_StronglySorted; [apply _|]. apply Sorted_merge_sort, _. }
  induction Hs as [|x l Hl IH Hx]; [constructor|].
  apply NoDup_cons in Hnd as [Hx' Hnd]. constructor; [auto|].
  rewrite Forall_forall in Hx |- *. intros y Hy.
  specialize (Hx _ Hy). assert (x ≠ y) by (by intros ->). lia.
Qed.

Lemma elem_of_np_sort_set (s : gset Z) p : p ∈ np_sort_set s ↔ p ∈ s.
Proof. unfold np_sort_set. rewrite merge_sort_Permutation. apply elem_of_elements. Qed.

Lemma elem_of_foldl_intersection (s : gset Z) (ss : list (gset Z)) p :
  p ∈ foldl (∩) s ss ↔ p ∈ s ∧ ∀ s', s' ∈ ss → p ∈ s'.
Proof.
  revert s. induction ss as [|s' ss IH]; intros s; cbn [foldl].
  - split; [intros ?; split; [done|]; by intros ? ?%elem_of_nil|by intros []].
  - rewrite IH, elem_of_intersection. split.
    + intros [[??] Hss]. split; [done|].
      intros s'' [->|?]%elem_of_cons; auto.
    + intros [? Hss]. split; [split; [done|]; apply Hss; left|].
      intros s'' ?. apply Hss. by right.
Qed.

Lemma wf_positions_sorted sd :
  wf_sampledata sd → StronglySorted Z.lt (sites_position sd).
Proof. intros (_ & H & _). apply Sorted_StronglySorted; [apply _|done]. Qed.

(** The sites a file contributes to the merged positions are in the order
    of the merged positions. *)
Lemma select_sites_positions (mp : list Z) (sd : SampleData) :
  wf_sampledata sd → StronglySorted Z.lt mp →
  (∀ p, p ∈ mp → p ∈ sites_position sd) →
  position <$> select_sites mp sd = mp.
Proof.
  intros Hwf Hmp Hsub. unfold select_sites.
  etrans; [apply (fmap_filter_comm position (λ p, p ∈ mp)
                    (Hdec:=λ p, decide_rel (∈) p mp))|].
  apply sorted_lt_unique; [|done|].
  - apply StronglySorted_filter. by apply wf_positions_sorted.
  - intros p. rewrite list_elem_of_filter.
    split; [by intros [? _]|]. intros Hp. split; [done|]. by apply Hsub.
Qed.

(** ** Adding the sites to the output *)

Lemma add_sites_inv acc rows sites :
  foldM add_site acc rows = Ok sites →
  sites = acc ++ rows
  ∧ Sorted Z.lt (row_position <$> rows)
  ∧ ∀ l, last acc = Some l → HdRel Z.lt (row_position l) (row_position <$> rows).
Proof.
  revert acc. induction rows as [|r rows IH]; intros acc.
  - cbn. intros [= <-]. rewrite app_nil_r. by repeat constructor.
  - cbn [foldM]. intros (acc' & Hadd & Hrest)%bind_Ok.
    assert (acc' = acc ++ [r]
            ∧ ∀ l, last acc = Some l → (row_position l < row_position r)%Z)
      as [-> Hlast].
    { unfold add_site in Hadd. destruct (last acc) as [l|].
      - case_decide; [|done]. injection Hadd as <-.
        split; [done|]. by intros ? [= <-].
      - injection Hadd as <-. done. }
    destruct (IH _ Hrest) as (-> & Hsorted & Hhd).
    rewrite <- app_assoc. split; [done|]. cbn [fmap list_fmap]. split.
    + constructor; [done|]. apply Hhd. by rewrite last_snoc.
    + intros l Hl. constructor. by apply Hlast.
Qed.

(** The rows that were added are the rows given, and their positions
    increase strictly. *)
Lemma add_sites_Ok rows sites :
  foldM add_site [] rows = Ok sites →
  sites = rows ∧ StronglySorted Z.lt (row_position <$> rows).
Proof.
  intros (-> & Hsorted & _)%add_sites_inv. split; [done|].
  by apply Sorted_StronglySorted; [intros ???; lia|].
Qed.


(** ** merge-sampledata: the number of sites *)

Lemma derived_aligned (l1 l2 : list Site) :
  position <$> l1 = position <$> l2 →
  (∀ s s', s ∈ l1 → s' ∈ l2 → position s = position s' →
           derived (alleles s) = derived (alleles s')) →
  derived_or_empty <$> l1 = derived_or_empty <$> l2.
Proof.
  revert l2. induction l1 as [|s l1 IH]; intros [|s' l2]; try done.
  cbn [fmap list_fmap]. intros [= Hp Hl] Hd. f_equal.
  - unfold derived_or_empty. f_equal. apply Hd; [left|left|done].
  - apply IH; [done|]. intros ?? ??. apply Hd; by right.
Qed.

Lemma no_conflict_derived (w : nat) (d : list string) :
  zip_with (λ (md : bool * string) (c : string),
              if fst md then store_unicode w c else snd md)
           (zip (zip_with orb (is_empty_string <$> d) (is_empty_string <$> d)) d)
           d = d.
Proof.
  induction d as [|x d IH]; [done|].
  cbn [fmap list_fmap zip zip_with fst snd]. f_equal; [|apply IH].
  unfold is_empty_string. case_bool_decide as Hx; [|done].
  subst x. by destruct w.
Qed.

Lemma no_conflict_biallelic (d : list string) :
  zip_with andb (replicate (length d) true)
           (zip_with (λ d c : string, bool_decide (d = c)) d d)
  = replicate (length d) true.
Proof.
  induction d as [|x d IH]; [done|].
  cbn [length replicate zip_with]. rewrite bool_decide_true by done.
  by rewrite IH.
Qed.

Lemma merge_alleles_no_conflict w mp anc d rest d' b' :
  foldM (merge_alleles_step w mp anc) (d, replicate (length d) true) rest
  = Ok (d', b') →
  Forall (λ sd, derived_or_empty <$> select_sites mp sd = d) rest →
  d' = d ∧ b' = replicate (length d) true.
Proof.
  induction rest as [|sd rest IH]; cbn [foldM].
  - by intros [= <- <-].
  - intros H Hall. apply Forall_cons in Hall as [Hsd Hall].
    inv_bind H. unfold merge_alleles_step in Ha. inv_bind Ha.
    rewrite Hsd, no_conflict_derived, no_conflict_biallelic in Ha.
    injection Ha as <-. by apply IH.
Qed.

Lemma merge_blocks_length mp l acc acc' :
  foldM (merge_block_step mp) acc l = Ok acc' →
  length (acc'.1.2) = length (acc.1.2) ∧ length (acc'.2) = length (acc.2).
Proof.
  revert acc. induction l as [|[i sd] l IH]; intros acc; cbn [foldM].
  - by intros [= <-].
  - intros H. inv_bind H. destruct (IH _ H) as [-> ->].
    destruct acc as [[cur g] md]. unfold merge_block_step in Ha.
    inv_bind Ha. inv_bind Ha. injection Ha as <-. cbn [fst snd].
    split; eauto using assign_block_length.
Qed.

Lemma agree_on_elim {A} (f : Alleles → A) files sd sd' s s' :
  agree_on f files → sd ∈ files → sd' ∈ files →
  s ∈ sites sd → s' ∈ sites sd' → position s = position s' →
  f (alleles s) = f (alleles s').
Proof.
  unfold agree_on. rewrite Forall_forall. intros H Hsd Hsd' Hs Hs'.
  specialize (H _ Hsd). rewrite Forall_forall in H. specialize (H _ Hsd').
  rewrite Forall_forall in H. specialize (H _ Hs).
  rewrite Forall_forall in H. by apply H.
Qed.

(** What [merge_rows] computes, step by step. *)
Lemma merge_sites_inv total first rest rows :
  merge_rows total (first :: rest) = Ok rows →
  let mp := np_sort_set (positions_intersection first rest) in
  let sel := select_sites mp first in
  ∃ deriv biallelic cur genos md,
    foldM (merge_alleles_step (unicode_width (derived_or_empty <$> sel)) mp
             ((λ s, ancestral (alleles s)) <$> sel))
          (derived_or_empty <$> sel, replicate (length mp) true) rest
    = Ok (deriv, biallelic)
    ∧ foldM (merge_block_step (mask_select biallelic mp))
            (0, full (length (mask_select biallelic mp)) total MISSING_DATA,
             full (length (mask_select biallelic mp))
                  (length (first :: rest)) ∅)
            (imap pair (first :: rest))
      = Ok (cur, genos, md)
    ∧ mapM merge_site_row
        (zip (mask_select biallelic mp)
           (zip genos (zip ((λ s, ancestral (alleles s)) <$> sel)
              (zip deriv md))))
      = Ok rows.
Proof.
  intros H mp sel. unfold merge_rows in H.
  cbn [fmap list_fmap set_intersection mbind result_bind] in H.
  fold (positions_intersection first rest) in H. fold mp in H. fold sel in H.
  inv_bind H. destruct a as [deriv biallelic].
  inv_bind H. destruct a as [[cur genos] md].
  by exists deriv, biallelic, cur, genos, md.
Qed.

Lemma intersection_in_file first rest sd p :
  sd ∈ first :: rest →
  p ∈ np_sort_set (positions_intersection first rest) →
  p ∈ sites_position sd.
Proof.
  intros Hsd. rewrite elem_of_np_sort_set. unfold positions_intersection.
  rewrite elem_of_foldl_intersection. intros [H1 H2].
  apply elem_of_cons in Hsd as [->|Hsd].
  - by apply elem_of_list_to_set in H1.
  - specialize (H2 (position_set sd)).
    apply (elem_of_list_to_set (C:=gset Z)), H2, list_elem_of_fmap. eauto.
Qed.

Lemma run_merge_inv output files tr out :
  run_merge_sampledata output files = (tr, Ok out) →
  ∃ seq_len total,
    load_sampledata_files files = Ok (seq_len, total)
    ∧ merge_rows total files = Ok (out_sites out).
Proof.
  unfold run_merge_sampledata.
  destruct (load_sampledata_files files) as [[seq_len total]|]; [|discriminate].
  intros [= _ H]. inv_bind H. destruct a as [pops id_map].
  inv_bind H. inv_bind H. inv_bind H. injection H as <-. cbn [out_sites].
  match goal with H : foldM add_site [] _ = Ok _ |- _ =>
    apply add_sites_Ok in H as [-> _] end.
  eauto.
Qed.

(** C2, as the code has it: when merge-sampledata completes, the output has
    at most as many sites as the intersection of the site positions of the
    input files has positions: the sites whose derived alleles the merge
    finds in conflict are left out. For finalised containers that list the
    same derived allele at every position they share, the two numbers are
    equal. *)
Theorem merge_site_count output first rest tr out :
  run_merge_sampledata output (first :: rest) = (tr, Ok out) →
  length (out_sites out) ≤ size (positions_intersection first rest)
  ∧ (Forall wf_sampledata (first :: rest) → same_derived (first :: rest) →
     length (out_sites out) = size (positions_intersection first rest)).
Proof.
  intros (seq_len & total & _ & Hsites)%run_merge_inv.
  destruct (merge_sites_inv _ _ _ _ Hsites)
    as (deriv & biallelic & cur & genos & md & Hal & Hbl & Hrows).
  apply mapM_length in Hrows. apply merge_blocks_length in Hbl as [Hg Hm].
  cbn [fst snd] in Hg, Hm. unfold full in Hg, Hm.
  rewrite length_replicate in Hg. rewrite length_replicate in Hm.
  rewrite !length_zip_with, length_fmap, Hg, Hm in Hrows.
  rewrite <- np_sort_set_length.
  set (mp := np_sort_set (positions_intersection first rest)) in *.
  pose proof (mask_select_length biallelic mp) as Hle.
  split; [lia|]. intros Hwf Hsame.
  assert (∀ sd, sd ∈ first :: rest → position <$> select_sites mp sd = mp)
    as Hpos.
  { intros sd Hsd. apply select_sites_positions.
    - rewrite Forall_forall in Hwf. by apply Hwf.
    - apply np_sort_set_sorted.
    - intros p. by apply intersection_in_file. }
  assert (length (select_sites mp first) = length mp) as Hsel.
  { rewrite <- (length_fmap position), Hpos; [done|left]. }
  rewrite <- Hsel, <- (length_fmap derived_or_empty) in Hal.
  apply merge_alleles_no_conflict in Hal as [-> ->].
  - rewrite !length_fmap, Hsel, mask_select_all in Hrows. lia.
  - apply Forall_forall. intros sd Hsd. apply derived_aligned.
    + rewrite !Hpos; [done|left|by right].
    + intros s s' [_ Hs]%list_elem_of_filter [_ Hs']%list_elem_of_filter.
      apply (agree_on_elim derived (first :: rest) sd first);
        [done|by right|left|done|done].
Qed.

(** The claim C2 as stated fails: the two example files share the
    positions 2 and 5, their derived alleles differ at 2, and the output has
    one site. *)
Lemma merge_site_count_conflict :
  ∃ out, run_merge_sampledata "out.samples" [example_file_a; example_file_b]
         = ([CreateSampleData "out.samples"], Ok out)
         ∧ length (out_sites out) = 1
         ∧ size (positions_intersection example_file_a [example_file_b]) = 2.
Proof. eexists. by vm_compute. Qed.

(** [merge_site_count] on two files with the same alleles at the positions
    2 and 5 they share. *)
Lemma merge_site_count_witness :
  ∃ tr out,
    run_merge_sampledata "out.samples" [example_file_a; example_file_d]
    = (tr, Ok out)
    ∧ Forall wf_sampledata [example_file_a; example_file_d]
    ∧ same_derived [example_file_a; example_file_d]
    ∧ length (out_sites out)
      = size (positions_intersection example_file_a [example_file_d]).
Proof.
  eexists _, _.
  match goal with |- ?P ∧ _ => assert P as Hrun by (vm_compute; reflexivity) end.
  assert (Forall wf_sampledata [example_file_a; example_file_d]) as Hwf
    by (apply (bool_decide_unpack _); by vm_compute).
  assert (same_derived [example_file_a; example_file_d]) as Hsame
    by (apply (bool_decide_unpack _); by vm_compute).
  split; [exact Hrun|]. split; [exact Hwf|]. split; [exact Hsame|].
  exact (proj2 (merge_site_count _ _ _ _ _ Hrun) Hwf Hsame).
Defined.

(** ** combine-sampledata: the data frame of site keys *)

Lemma find_imap {A B} (P : B → bool) (Q : A → Prop) `{∀ a, Decision (Q a)}
    (mk : nat → A → B) (l : list A) :
  (∀ i a, P (mk i a) = bool_decide (Q a)) →
  List.find P (imap mk l) = (λ x, mk x.1 x.2) <$> list_find Q l.
Proof.
  revert mk. induction l as [|a l IH]; intros mk Hmk; [done|].
  cbn [imap List.find list_find]. rewrite Hmk. case_bool_decide.
  - by rewrite decide_True.
  - rewrite decide_False by done. rewrite (IH (mk ∘ S)) by (intros; apply Hmk).
    by destruct (list_find Q l) as [[]|].
Qed.

Lemma find_make_site_df sd index (l : df_row) :
  List.find (same_key l) (make_site_df sd index)
  = (λ x : nat * Site,
       {| Position := position x.2; Ancestral := ancestral (alleles x.2);
          Derived := derived (alleles x.2); SiteID := {[index := x.1]};
          DerivedOf := ∅ |}) <$> find_site sd (row_key l).
Proof.
  unfold make_site_df, find_site.
  apply (find_imap (same_key l) (λ s, site_key s = row_key l)).
  intros i a. unfold same_key. apply bool_decide_ext.
  unfold site_key, row_key. cbn. split; [by intros [-> ->]|by intros [= -> ->]].
Qed.

Lemma row_key_make_site_df sd index :
  row_key <$> make_site_df sd index = site_key <$> sites sd.
Proof.
  unfold make_site_df. apply list_eq. intros i.
  rewrite !list_lookup_fmap, list_lookup_imap. by destruct (sites sd !! i).
Qed.

Lemma find_same_key_None (r : df_row) (left : list df_row) :
  List.find (same_key r) left = None ↔ row_key r ∉ row_key <$> left.
Proof.
  induction left as [|l left IH]; cbn [List.find fmap list_fmap].
  - split; [intros _; apply not_elem_of_nil|done].
  - unfold same_key at 1. case_bool_decide as Hk.
    + split; [done|]. intros Hn. exfalso. apply Hn.
      assert (row_key r = row_key l) as ->
        by (unfold row_key; destruct Hk; congruence).
      left.
    + rewrite IH, not_elem_of_cons. split; [|by intros []].
      intros Hn. split; [|done]. unfold row_key. intros [= ??]. by apply Hk.
Qed.

Lemma find_site_Some sd k s site :
  find_site sd k = Some (s, site) → sites sd !! s = Some site ∧ site_key site = k.
Proof. unfold find_site. intros (? & ? & _)%list_find_Some. done. Qed.

Lemma find_site_None sd k :
  find_site sd k = None ↔ k ∉ site_key <$> sites sd.
Proof.
  unfold find_site. rewrite list_find_None, Forall_forall, list_elem_of_fmap.
  split.
  - intros H (site & -> & Hin). by apply (H site).
  - intros H site Hin Hk. apply H. eauto.
Qed.

Lemma find_site_lookup sd s site :
  NoDup (site_key <$> sites sd) → sites sd !! s = Some site →
  find_site sd (site_key site) = Some (s, site).
Proof.
  intros Hnd Hs. unfold find_site. apply list_find_Some.
  split; [done|]. split; [done|]. intros j y Hj Hlt Hy.
  assert (j = s); [|lia].
  apply (NoDup_lookup _ _ _ (site_key site) Hnd);
    rewrite list_lookup_fmap; [by rewrite Hj; cbn; rewrite Hy|by rewrite Hs].
Qed.

Lemma wf_site_keys_NoDup sd :
  wf_sampledata sd → NoDup (site_key <$> sites sd).
Proof.
  intros Hwf%wf_positions_sorted%StronglySorted_lt_NoDup.
  apply (NoDup_fmap_1 fst). by rewrite <- list_fmap_compose.
Qed.

Lemma row_key_merge_outer j (left right : list df_row) :
  row_key <$> (fillna j <$> pd_merge_outer j left right)
  = (row_key <$> left)
    ++ filter (λ k, k ∉ row_key <$> left) (row_key <$> right).
Proof.
  unfold pd_merge_outer. rewrite !fmap_app. f_equal.
  - rewrite <- !list_fmap_compose. apply list_fmap_ext. intros _ l _. cbn.
    by destruct (List.find (same_key l) right).
  - rewrite <- !list_fmap_compose.
    rewrite <- (fmap_filter_comm row_key (λ k, k ∉ row_key <$> left)).
    rewrite (list_filter_iff _ (λ r, row_key r ∉ row_key <$> left))
      by (intros; apply find_same_key_None).
    done.
Qed.

Lemma frame_ok_first first rest :
  NoDup (site_key <$> sites first) →
  frame_ok (first :: rest) 1 (make_site_df first 0).
Proof.
  intros Hnd. split; [by rewrite row_key_make_site_df|]. split.
  - apply Forall_forall. intros r Hr.
    apply list_elem_of_lookup in Hr as [s Hr]. unfold make_site_df in Hr.
    rewrite list_lookup_imap in Hr.
    destruct (sites first !! s) as [site|] eqn:Hs; [|done].
    injection Hr as <-. intros i. cbn [SiteID DerivedOf]. split.
    + case_decide as Hi.
      * assert (i = 0) as -> by lia. cbn [lookup list_lookup mbind option_bind].
        change (row_key _) with (site_key site).
        rewrite (find_site_lookup _ _ _ Hnd Hs). by rewrite lookup_singleton_eq.
      * rewrite lookup_singleton_ne by lia. done.
    + rewrite lookup_empty. case_decide; [lia|done].
  - intros k. rewrite row_key_make_site_df. split.
    + intros Hk. exists 0, first. split; [lia|]. done.
    + intros (i & sd & Hi & Hsd & Hk). assert (i = 0) as -> by lia.
      by injection Hsd as <-.
Qed.

Lemma row_key_fillna j r : row_key (fillna j r) = row_key r.
Proof. done. Qed.

Lemma row_key_mk p a d S D :
  row_key {| Position := p; Ancestral := a; Derived := d; SiteID := S;
             DerivedOf := D |} = (p, a).
Proof. done. Qed.

Lemma frame_ok_step files j combined sd :
  1 ≤ j → files !! j = Some sd → NoDup (site_key <$> sites sd) →
  frame_ok files j combined →
  frame_ok files (S j) (fillna j <$> pd_merge_outer j combined (make_site_df sd j)).
Proof.
  intros Hj Hsd Hnd (Hkeys & Hrows & Hcover). split; [|split].
  - rewrite row_key_merge_outer, row_key_make_site_df. apply NoDup_app.
    split; [done|]. split; [|by apply NoDup_filter].
    intros k Hk [Hn _]%list_elem_of_filter. done.
  - unfold pd_merge_outer. rewrite fmap_app. apply Forall_app. split.
    + rewrite <- list_fmap_compose. apply Forall_fmap, Forall_forall.
      intros l Hl. rewrite Forall_forall in Hrows. specialize (Hrows l Hl).
      cbn. rewrite find_make_site_df.
      destruct (find_site sd (row_key l)) as [[s site]|] eqn:Hfind;
        cbn [fmap option_fmap option_map fst snd]; intros i;
        destruct (Hrows i) as [HS HD];
        cbn [fillna SiteID DerivedOf Derived];
        rewrite !row_key_fillna, ?row_key_mk; fold (row_key l).
      * split.
        -- destruct (decide (i = j)) as [->|Hne].
           ++ rewrite decide_False in HS by lia. rewrite decide_True by lia.
              rewrite Hsd. cbn [mbind option_bind]. rewrite Hfind.
              rewrite lookup_union_r by done. by rewrite lookup_singleton_eq.
           ++ rewrite lookup_union_l by (by rewrite lookup_singleton_ne).
              rewrite HS. repeat case_decide; done || lia.
        -- unfold add_derived. destruct (decide (i = j)) as [->|Hne].
           ++ rewrite decide_False in HD by lia. rewrite decide_True by lia.
              rewrite Hsd. cbn [mbind option_bind]. rewrite Hfind.
              cbn [mbind option_bind snd].
              destruct (derived (alleles site));
                [by rewrite lookup_insert_eq|done].
           ++ destruct (derived (alleles site));
                [rewrite lookup_insert_ne by done|];
                rewrite HD; repeat case_decide; done || lia.
      * split.
        -- destruct (decide (i = j)) as [->|Hne].
           ++ rewrite decide_False in HS by lia. rewrite decide_True by lia.
              rewrite Hsd. cbn [mbind option_bind]. by rewrite Hfind.
           ++ rewrite HS. repeat case_decide; done || lia.
        -- destruct (decide (i = j)) as [->|Hne].
           ++ rewrite decide_False in HD by lia. rewrite decide_True by lia.
              rewrite Hsd. cbn [mbind option_bind]. by rewrite Hfind.
           ++ rewrite HD. repeat case_decide; done || lia.
    + rewrite <- list_fmap_compose. apply Forall_fmap, Forall_forall.
      intros r [Hnone Hr]%list_elem_of_filter.
      apply find_same_key_None in Hnone.
      apply list_elem_of_lookup in Hr as [s Hr]. unfold make_site_df in Hr.
      rewrite list_lookup_imap in Hr.
      destruct (sites sd !! s) as [site|] eqn:Hs; [|done].
      injection Hr as <-. cbn in Hnone. change (row_key _) with (site_key site) in Hnone.
      intros i. cbn [fillna SiteID DerivedOf Derived compose].
      rewrite !row_key_fillna, !row_key_mk. cbn [Position Ancestral].
      fold (site_key site).
      assert (∀ i' sd', i' < j → files !! i' = Some sd' →
                        find_site sd' (site_key site) = None) as Hother.
      { intros i' sd' Hi' Hsd'. apply find_site_None. intros Hin.
        apply Hnone, Hcover. eauto. }
      split.
      * destruct (decide (i = j)) as [->|Hne].
        -- rewrite decide_True by lia. rewrite Hsd. cbn [mbind option_bind].
           rewrite (find_site_lookup _ _ _ Hnd Hs). by rewrite lookup_singleton_eq.
        -- rewrite lookup_singleton_ne by done. case_decide; [|done].
           destruct (files !! i) as [sd'|] eqn:Hsd'; [|done].
           cbn [mbind option_bind]. rewrite (Hother i sd') by (done || lia). done.
      * unfold add_derived. destruct (decide (i = j)) as [->|Hne].
        -- rewrite decide_True by lia. rewrite Hsd. cbn [mbind option_bind].
           rewrite (find_site_lookup _ _ _ Hnd Hs). cbn [mbind option_bind snd].
           destruct (derived (alleles site));
             [by rewrite lookup_insert_eq|by rewrite lookup_empty].
        -- assert (∀ m : gmap nat string, m = ∅ → m !! i = None) as He
             by (by intros ? ->).
           destruct (derived (alleles site));
             [rewrite lookup_insert_ne by done|]; rewrite lookup_empty;
             (case_decide; [|done]);
             (destruct (files !! i) as [sd'|] eqn:Hsd'; [|done]);
             cbn [mbind option_bind];
             rewrite (Hother i sd') by (done || lia); done.
  - intros k. rewrite row_key_merge_outer, row_key_make_site_df.
    rewrite elem_of_app, list_elem_of_filter, Hcover. split.
    + intros [(i & sd' & Hi & Hsd' & Hk)|[_ Hk]].
      * exists i, sd'. split; [lia|done].
      * exists j, sd. split; [lia|done].
    + intros (i & sd' & Hi & Hsd' & Hk).
      destruct (decide (i = j)) as [->|Hne].
      * rewrite Hsd in Hsd'. injection Hsd' as <-.
        destruct (decide (k ∈ row_key <$> combined)) as [Hin|Hnin].
        -- left. by apply Hcover.
        -- right. split; [|done]. intros Hc. apply Hnin, Hcover. done.
      * left. exists i, sd'. split; [lia|done].
Qed.

Lemma frame_ok_merge_dfs files todo j combined :
  1 ≤ j → drop j files = todo → Forall wf_sampledata todo →
  frame_ok files j combined →
  frame_ok files (j + length todo)
    (merge_dfs j combined (imap (λ i sd, make_site_df sd (j + i)) todo)).
Proof.
  revert j combined. induction todo as [|sd todo IH]; intros j combined Hj Hdrop Hwf Hok.
  - cbn [imap merge_dfs length]. by rewrite Nat.add_0_r.
  - apply Forall_cons in Hwf as [Hsd Hwf].
    assert (files !! j = Some sd) as Hlook.
    { rewrite <- (Nat.add_0_r j), <- lookup_drop, Hdrop. done. }
    assert (drop (S j) files = todo) as Hdrop'.
    { change todo with (drop 1 (sd :: todo)). rewrite <- Hdrop, drop_drop.
      f_equal. lia. }
    rewrite imap_cons. cbn [merge_dfs length]. rewrite Nat.add_0_r.
    rewrite (imap_ext _ (λ i sd, make_site_df sd (S j + i)))
      by (intros; cbn; f_equal; lia).
    replace (j + S (length todo)) with (S j + length todo) by lia.
    apply IH; [lia|done|done|].
    apply frame_ok_step; auto using wf_site_keys_NoDup.
Qed.

Lemma frame_ok_perm files j df df' :
  df' ≡ₚ df → frame_ok files j df → frame_ok files j df'.
Proof.
  intros Hp (Hk & Hr & Hc). split; [by rewrite Hp|]. split; [by rewrite Hp|].
  intros k. by rewrite Hp.
Qed.

Lemma combined_frame_ok first rest df :
  Forall wf_sampledata (first :: rest) →
  combined_frame (first :: rest) = Ok df →
  frame_ok (first :: rest) (length (first :: rest)) df
  ∧ StronglySorted position_le df.
Proof.
  intros Hwf. unfold combined_frame. rewrite imap_cons. intros [= <-].
  apply Forall_cons in Hwf as [Hfirst Hwf]. split.
  - eapply frame_ok_perm; [apply merge_sort_Permutation|].
    rewrite (imap_ext _ (λ i sd, make_site_df sd (1 + i))) by done.
    apply (frame_ok_merge_dfs (first :: rest) rest 1); [lia|done|done|].
    apply frame_ok_first. by apply wf_site_keys_NoDup.
  - apply Sorted_StronglySorted.
    + intros x y z. unfold position_le. lia.
    + apply Sorted_merge_sort. intros x y. unfold position_le. lia.
Qed.

Lemma combine_sites_inv total files rows :
  combine_rows total files = Ok rows →
  ∃ df cur genos md,
    combined_frame files = Ok df
    ∧ foldM (combine_block_step df)
            (0, full (length df) total MISSING_DATA,
             full (length df) (length files) ∅)
            (imap pair files)
      = Ok (cur, genos, md)
    ∧ mapM combine_site_row (zip df (zip genos md)) = Ok rows.
Proof.
  unfold combine_rows. intros H. inv_bind H. rename a into df.
  inv_bind H. destruct a as [[cur genos] md].
  by exists df, cur, genos, md.
Qed.

Lemma combine_blocks_length df l acc acc' :
  foldM (combine_block_step df) acc l = Ok acc' →
  length (acc'.1.2) = length (acc.1.2) ∧ length (acc'.2) = length (acc.2).
Proof.
  revert acc. induction l as [|[i sd] l IH]; intros acc; cbn [foldM].
  - by intros [= <-].
  - intros H. inv_bind H. destruct (IH _ H) as [-> ->].
    destruct acc as [[cur g] md]. unfold combine_block_step in Ha.
    inv_bind Ha. inv_bind Ha. injection Ha as <-. cbn [fst snd].
    split; eauto using assign_block_length.
Qed.

Lemma run_combine_inv output files tr out :
  run_combine_sampledata output files = (tr, Ok out) →
  ∃ seq_len total,
    load_sampledata_files files = Ok (seq_len, total)
    ∧ combine_rows total files = Ok (out_sites out).
Proof.
  unfold run_combine_sampledata.
  destruct (load_sampledata_files files) as [[seq_len total]|]; [|discriminate].
  intros [= _ H]. inv_bind H. destruct a as [pops id_map].
  inv_bind H. inv_bind H. inv_bind H. injection H as <-. cbn [out_sites].
  match goal with H : foldM add_site [] _ = Ok _ |- _ =>
    apply add_sites_Ok in H as [-> _] end.
  eauto.
Qed.

Lemma run_combine_increasing output files tr out :
  run_combine_sampledata output files = (tr, Ok out) →
  StronglySorted Z.lt (row_position <$> out_sites out).
Proof.
  unfold run_combine_sampledata.
  destruct (load_sampledata_files files) as [[seq_len total]|]; [|discriminate].
  intros [= _ H]. inv_bind H. destruct a as [pops id_map].
  inv_bind H. inv_bind H. inv_bind H. injection H as <-. cbn [out_sites].
  match goal with H : foldM add_site [] _ = Ok _ |- _ =>
    by apply add_sites_Ok in H as [-> ?] end.
Qed.

(** The rows of the output against the data frame: one row for each row of
    the frame, with its position. *)
Lemma combine_sites_positions total files rows :
  combine_rows total files = Ok rows →
  ∃ df, combined_frame files = Ok df
        ∧ row_position <$> rows = Position <$> df.
Proof.
  intros (df & cur & genos & md & Hdf & Hbl & Hrows)%combine_sites_inv.
  exists df. split; [done|].
  pose proof (mapM_length _ _ _ Hrows) as Hlen.
  apply combine_blocks_length in Hbl as [Hg Hm].
  cbn [fst snd] in Hg, Hm. unfold full in Hg, Hm.
  rewrite length_replicate in Hg. rewrite length_replicate in Hm.
  rewrite !length_zip_with, Hg, Hm in Hlen.
  apply list_eq. intros ρ. rewrite !list_lookup_fmap.
  destruct (rows !! ρ) as [row|] eqn:Hρ.
  - destruct (mapM_lookup _ _ _ _ _ Hrows Hρ) as ([r [g m]] & Hz & Hr).
    apply lookup_zip_with_Some in Hz as (? & ? & [= <- <-] & -> & _).
    unfold combine_site_row in Hr. inv_bind Hr. by injection Hr as <-.
  - apply lookup_ge_None in Hρ. rewrite lookup_ge_None_2; [done|lia].
Qed.

(** C3: for finalised containers, when combine-sampledata completes, the
    output has as many sites as the union of the site positions of the input
    files has positions. (The join is on the position and the ancestral
    allele, and [add_site] takes each position once: a run over files that
    disagree on the ancestral allele at a position does not complete.) *)
Theorem combine_site_count output first rest tr out :
  Forall wf_sampledata (first :: rest) →
  run_combine_sampledata output (first :: rest) = (tr, Ok out) →
  length (out_sites out) = size (positions_union (first :: rest)).
Proof.
  intros Hwf Hrun.
  pose proof (run_combine_increasing _ _ _ _ Hrun) as Hinc.
  apply run_combine_inv in Hrun as (seq_len & total & _ & Hsites).
  apply combine_sites_positions in Hsites as (df & Hdf & Hpos).
  destruct (combined_frame_ok _ _ _ Hwf Hdf) as [(Hkeys & Hrow & Hcover) _].
  rewrite <- (length_fmap row_position), Hpos.
  rewrite Hpos in Hinc. apply StronglySorted_lt_NoDup in Hinc.
  assert (positions_union (first :: rest) = list_to_set (Position <$> df))
    as ->.
  { apply set_eq. intros p. unfold positions_union.
    rewrite elem_of_union_list, elem_of_list_to_set, list_elem_of_fmap. split.
    - intros (X & (sd & -> & Hsd)%list_elem_of_fmap & Hp).
      apply elem_of_list_to_set, list_elem_of_fmap in Hp as (s & -> & Hs).
      apply list_elem_of_lookup in Hsd as [i Hsd].
      assert (site_key s ∈ row_key <$> df) as (r & Hk & Hr)%list_elem_of_fmap.
      { apply Hcover. exists i, sd. split; [by eapply lookup_lt_Some|].
        split; [done|]. apply list_elem_of_fmap. eauto. }
      exists r. split; [|done]. by injection Hk.
    - intros (r & -> & Hr).
      assert (row_key r ∈ row_key <$> df) as Hk
        by (apply list_elem_of_fmap; eauto).
      apply Hcover in Hk as (i & sd & _ & Hsd & (s & Hk & Hs)%list_elem_of_fmap).
      exists (position_set sd). split.
      + apply list_elem_of_fmap. exists sd. split; [done|].
        by eapply list_elem_of_lookup_2.
      + apply elem_of_list_to_set, list_elem_of_fmap. exists s.
        split; [|done]. by injection Hk. }
  by rewrite size_list_to_set.
Qed.

(** [combine_site_count] on two files that share the positions 2 and 5. *)
Lemma combine_site_count_witness :
  ∃ tr out,
    Forall wf_sampledata [example_file_a; example_file_b]
    ∧ run_combine_sampledata "out.samples" [example_file_a; example_file_b]
      = (tr, Ok out)
    ∧ length (out_sites out)
      = size (positions_union [example_file_a; example_file_b]).
Proof.
  eexists _, _.
  assert (Forall wf_sampledata [example_file_a; example_file_b]) as Hwf
    by (apply (bool_decide_unpack _); by vm_compute).
  split; [exact Hwf|].
  match goal with |- ?P ∧ _ => assert P as Hrun by (vm_compute; reflexivity) end.
  split; [exact Hrun|].
  exact (combine_site_count _ _ _ _ _ Hwf Hrun).
Defined.

(** ** Writing the blocks of the combined matrix *)

Lemma write_columns_decomp {A} cur (g row : list A) :
  cur + length g ≤ length row →
  write_columns cur g row = take cur row ++ g ++ drop (cur + length g) row.
Proof.
  intros Hlen. unfold write_columns. apply list_eq. intros j.
  destruct (decide (j < cur)) as [Hlt|Hge].
  - rewrite list_lookup_inserts_lt by done.
    rewrite lookup_app_l by (rewrite length_take; lia).
    by rewrite lookup_take_lt.
  - rewrite lookup_app_r by (rewrite length_take; lia).
    rewrite length_take, Nat.min_l by lia.
    destruct (decide (j < cur + length g)) as [Hlt|Hge'].
    + rewrite list_lookup_inserts by lia. by rewrite lookup_app_l by lia.
    + rewrite list_lookup_inserts_ge by lia.
      rewrite lookup_app_r by lia. rewrite lookup_drop. f_equal. lia.
Qed.

Lemma scatter_rows_notin {A} cur rows (G M : list (list A)) ρ :
  ρ ∉ rows → scatter_rows cur rows G M !! ρ = M !! ρ.
Proof.
  revert G M. induction rows as [|r rows IH]; intros [|g G] M Hn; try done.
  apply not_elem_of_cons in Hn as [Hne Hn]. cbn [scatter_rows].
  rewrite IH by done. by rewrite list_lookup_alter_ne.
Qed.

Lemma scatter_rows_in {A} cur rows (G M : list (list A)) j ρ g :
  NoDup rows → rows !! j = Some ρ → G !! j = Some g →
  scatter_rows cur rows G M !! ρ = write_columns cur g <$> M !! ρ.
Proof.
  revert G M j. induction rows as [|r rows IH]; intros [|g' G] M j Hnd Hr Hg;
    try done.
  apply NoDup_cons in Hnd as [Hr' Hnd]. cbn [scatter_rows].
  destruct j as [|j]; cbn in Hr, Hg.
  - injection Hr as ->. injection Hg as ->.
    rewrite scatter_rows_notin by done. apply list_lookup_alter_eq.
  - rewrite (IH _ _ j) by done. rewrite list_lookup_alter_ne; [done|].
    intros ->. apply Hr'. by eapply list_elem_of_lookup_2.
Qed.

Lemma column_offset_app done todo i :
  i ≤ length done → column_offset (done ++ todo) i = column_offset done i.
Proof. intros Hi. unfold column_offset. by rewrite take_app_le. Qed.

Lemma column_offset_length done :
  column_offset done (length done) = sum_list (num_samples <$> done).
Proof. unfold column_offset. by rewrite take_ge. Qed.

Lemma column_offset_bound done i sd :
  done !! i = Some sd →
  column_offset done i + num_samples sd ≤ sum_list (num_samples <$> done).
Proof.
  intros Hi. unfold column_offset.
  rewrite <- (take_drop_middle done i sd Hi) at 2.
  rewrite fmap_app, sum_list_with_app. cbn. lia.
Qed.

(** One more file written keeps the matrix as it is to be. *)
Lemma scatter_block E total num_rows done cur M rows G sd :
  length M = num_rows →
  cur = sum_list (num_samples <$> done) →
  cur + num_samples sd ≤ total →
  block_source E num_rows rows G (length done) sd →
  blocks_written E total done cur M →
  blocks_written E total (done ++ [sd]) (cur + num_samples sd)
    (scatter_rows cur rows G M).
Proof.
  intros HM Hcur Htotal (Hnd & Hlen & Hrows & HE & Hmiss) Hinv ρ row' Hrow'.
  assert (ρ < num_rows) as Hρ.
  { rewrite <- HM, <- (scatter_rows_length cur rows G M).
    by eapply lookup_lt_Some. }
  assert (∃ row, M !! ρ = Some row ∧ row' =
            take cur row ++ E ρ (length done) sd
            ++ drop (cur + num_samples sd) row) as (row & Hrow & ->).
  { destruct (decide (ρ ∈ rows)) as [Hin|Hnin].
    - apply list_elem_of_lookup in Hin as [j Hj].
      destruct (Hrows _ _ Hj) as [_ Hg].
      rewrite (scatter_rows_in _ _ _ _ _ _ _ Hnd Hj Hg) in Hrow'.
      destruct (M !! ρ) as [row|] eqn:Hrow; [|done].
      injection Hrow' as <-. exists row. split; [done|].
      destruct (Hinv _ _ Hrow) as (Hl & _ & _).
      rewrite write_columns_decomp; rewrite HE by done; [done|lia].
    - rewrite scatter_rows_notin in Hrow' by done. exists row'.
      split; [done|]. destruct (Hinv _ _ Hrow') as (Hl & Hd & _).
      rewrite (Hmiss _ Hρ Hnin).
      rewrite <- (take_drop cur row') at 1. f_equal.
      rewrite <- (take_drop (num_samples sd) (drop cur row')) at 1.
      rewrite drop_drop. f_equal. rewrite Hd, take_replicate. f_equal. lia. }
  destruct (Hinv _ _ Hrow) as (Hl & Hd & Hblocks).
  assert (length (take cur row) = cur) as Htake
    by (rewrite length_take; lia).
  split; [|split].
  - rewrite !length_app, Htake, HE, length_drop by done. lia.
  - rewrite drop_app_ge by lia. rewrite Htake.
    rewrite drop_app_ge by (rewrite HE by done; lia). rewrite HE by done.
    replace (cur + num_samples sd - cur - num_samples sd) with 0 by lia.
    rewrite drop_0, <- drop_drop, Hd, drop_replicate. f_equal. lia.
  - intros i sd' Hi. unfold file_columns.
    apply lookup_app_Some in Hi as [Hi|[Hge Hi]].
    + pose proof (column_offset_bound _ _ _ Hi) as Hb.
      rewrite column_offset_app by (apply Nat.lt_le_incl; by eapply lookup_lt_Some).
      rewrite <- (Hblocks _ _ Hi). unfold file_columns.
      rewrite !take_drop_commute. f_equal.
      rewrite take_app_le by lia. rewrite take_take. f_equal. lia.
    + apply list_lookup_singleton_Some in Hi as [Hi ->].
      assert (i = length done) as -> by lia.
      rewrite column_offset_app, column_offset_length, <- Hcur by done.
      rewrite drop_app_length' by done.
      rewrite take_app_length' by (by rewrite HE). done.
Qed.

Lemma blocks_written_full E total num_rows :
  blocks_written E total [] 0 (full num_rows total MISSING_DATA).
Proof.
  intros ρ row [-> _]%lookup_replicate. split; [apply length_replicate|].
  split; [by rewrite Nat.sub_0_r|]. by intros ??.
Qed.

(** The loop over the files, for a body [step] that writes the block
    [G i sd] of the [i]-th file to the rows [rows i sd] and moves on by the
    number of samples of the file. *)
Lemma blocks_fold
    (step : nat * list (list Z) * list (list (gmap string string)) →
            nat * SampleData →
            result (nat * list (list Z) * list (list (gmap string string))))
    E total num_rows (rows : nat → SampleData → list nat)
    (G : nat → SampleData → list (list Z)) :
  (∀ cur genos md i sd acc',
     step (cur, genos, md) (i, sd) = Ok acc' →
     acc'.1.1 = cur + num_samples sd
     ∧ acc'.1.2 = scatter_rows cur (rows i sd) (G i sd) genos) →
  ∀ todo done cur M md acc',
    foldM step (cur, M, md) (imap (λ i sd, (length done + i, sd)) todo)
    = Ok acc' →
    (∀ i sd, todo !! i = Some sd →
       block_source E num_rows (rows (length done + i) sd)
         (G (length done + i) sd) (length done + i) sd) →
    length M = num_rows →
    cur = sum_list (num_samples <$> done) →
    cur + sum_list (num_samples <$> todo) ≤ total →
    blocks_written E total done cur M →
    blocks_written E total (done ++ todo) (cur + sum_list (num_samples <$> todo))
      (acc'.1.2)
    ∧ length (acc'.1.2) = num_rows.
Proof.
  intros Hstep todo. induction todo as [|sd todo IH];
    intros done cur M md acc' Hfold Hsrc HM Hcur Htotal Hinv.
  - cbn in Hfold. injection Hfold as <-. cbn [fst snd fmap list_fmap].
    rewrite app_nil_r. cbn. by rewrite Nat.add_0_r.
  - rewrite imap_cons in Hfold. cbn [foldM] in Hfold. inv_bind Hfold.
    destruct a as [[cur1 M1] md1]. rewrite Nat.add_0_r in Ha.
    apply Hstep in Ha as [Hc1 HM1]. cbn [fst snd] in Hc1, HM1. subst cur1 M1.
    cbn [fmap list_fmap] in Htotal |- *. cbn in Htotal.
    rewrite (imap_ext _ (λ i sd', (length (done ++ [sd]) + i, sd')))
      in Hfold by (intros; cbn; rewrite length_app; cbn; f_equal; lia).
    pose proof (Hsrc 0 sd eq_refl) as Hsd. rewrite Nat.add_0_r in Hsd.
    apply IH in Hfold.
    + rewrite <- app_assoc in Hfold. cbn [app] in Hfold.
      replace (cur + sum_list (num_samples sd :: (num_samples <$> todo)))
        with (cur + num_samples sd + sum_list (num_samples <$> todo))
        by (cbn; lia).
      done.
    + intros i sd' Hi. rewrite length_app. cbn [length].
      replace (length done + 1 + i) with (length done + S i) by lia.
      by apply Hsrc.
    + by rewrite scatter_rows_length.
    + rewrite fmap_app, sum_list_with_app. cbn. lia.
    + lia.
    + apply (scatter_block E total num_rows); auto. lia.
Qed.

Lemma load_total_from acc files acc' :
  foldM load_step acc files = Ok acc' →
  acc'.2 = acc.2 + sum_list (num_samples <$> files).
Proof.
  revert acc. induction files as [|sd files IH]; intros acc; cbn [foldM].
  - intros [= <-]. cbn. lia.
  - intros H. inv_bind H. rewrite (IH _ H). cbn.
    destruct acc as [sl t]. unfold load_step in Ha.
    destruct (truthy sl); [inv_bind Ha|]; injection Ha as <-; cbn; lia.
Qed.

Lemma load_total files seq_len total :
  load_sampledata_files files = Ok (seq_len, total) →
  total = sum_list (num_samples <$> files).
Proof. intros H%load_total_from. cbn in H. lia. Qed.

(** ** merge-sampledata: the columns of each file *)

Lemma mask_select_sorted (mask : list bool) (l : list Z) :
  StronglySorted Z.lt l →
  StronglySorted Z.lt (mask_select mask l)
  ∧ ∀ p, p ∈ mask_select mask l → p ∈ l.
Proof.
  intros Hl. revert mask. unfold mask_select.
  induction Hl as [|x l Hl IH Hx]; intros [|b mask];
    try (split; [constructor|by intros ? ?%elem_of_nil]).
  cbn [zip zip_with]. destruct (IH mask) as [IH1 IH2].
  rewrite filter_cons. cbn [fst]. case_decide; cbn [fmap list_fmap snd].
  - split.
    + constructor; [done|]. rewrite Forall_forall in Hx |- *.
      intros p Hp. by apply Hx, IH2.
    + intros p [->|Hp]%elem_of_cons; [left|right; by apply IH2].
  - split; [done|]. intros p Hp. right. by apply IH2.
Qed.

Lemma merge_block_step_spec mp cur genos md i sd acc' :
  merge_block_step mp (cur, genos, md) (i, sd) = Ok acc' →
  acc'.1.1 = cur + num_samples sd
  ∧ acc'.1.2 = scatter_rows cur (seq 0 (length mp))
                 (genotypes <$> select_sites mp sd) genos.
Proof.
  unfold merge_block_step. intros H. inv_bind H. inv_bind H.
  injection H as <-. cbn [fst snd]. split; [done|].
  unfold assign_block in Ha. case_decide; [|done]. by injection Ha as <-.
Qed.

Lemma merge_block_source mp i sd :
  wf_sampledata sd → StronglySorted Z.lt mp →
  (∀ p, p ∈ mp → p ∈ sites_position sd) →
  block_source (merged_block mp) (length mp) (seq 0 (length mp))
    (genotypes <$> select_sites mp sd) i sd.
Proof.
  intros Hwf Hmp Hsub.
  pose proof (select_sites_positions mp sd Hwf Hmp Hsub) as Hpos.
  assert (length (select_sites mp sd) = length mp) as Hlen
    by (by rewrite <- (length_fmap position), Hpos).
  split; [apply NoDup_seq|]. split; [by rewrite length_seq, length_fmap|].
  assert (∀ ρ, ρ < length mp →
            ∃ s, select_sites mp sd !! ρ = Some s
                 ∧ merged_block mp ρ i sd = genotypes s) as Hblock.
  { intros ρ Hρ. destruct (lookup_lt_is_Some_2 (select_sites mp sd) ρ) as [s Hs];
      [lia|]. exists s. split; [done|]. unfold merged_block. by rewrite Hs. }
  split; [|split].
  - intros j ρ [-> Hj]%lookup_seq. cbn. split; [done|].
    destruct (Hblock _ Hj) as (s & Hs & ->).
    by rewrite list_lookup_fmap, Hs.
  - intros ρ Hρ. destruct (Hblock _ Hρ) as (s & Hs & ->).
    destruct Hwf as (_ & _ & Hg). rewrite Forall_forall in Hg. apply Hg.
    apply list_elem_of_lookup_2 in Hs.
    by apply list_elem_of_filter in Hs as [_ Hs].
  - intros ρ Hρ Hn. exfalso. apply Hn, list_elem_of_lookup. exists ρ.
    by apply lookup_seq.
Qed.

Lemma merge_columns output first rest tr out row i sd :
  Forall wf_sampledata (first :: rest) →
  run_merge_sampledata output (first :: rest) = (tr, Ok out) →
  row ∈ out_sites out → (first :: rest) !! i = Some sd →
  length (row_genotypes row) = sum_list (num_samples <$> first :: rest)
  ∧ ∃ s, s ∈ sites sd ∧ position s = row_position row
         ∧ file_columns (first :: rest) i sd (row_genotypes row) = genotypes s.
Proof.
  intros Hwf (seq_len & total & Hload & Hsites)%run_merge_inv Hrow Hsd.
  apply load_total in Hload.
  destruct (merge_sites_inv _ _ _ _ Hsites)
    as (deriv & biallelic & cur & genos & md & _ & Hbl & Hrows).
  set (mp := mask_select biallelic
               (np_sort_set (positions_intersection first rest))) in *.
  destruct (mask_select_sorted biallelic _
              (np_sort_set_sorted (positions_intersection first rest)))
    as [Hsorted Hsub]. fold mp in Hsorted, Hsub.
  assert (∀ sd', sd' ∈ first :: rest → ∀ p, p ∈ mp → p ∈ sites_position sd')
    as Hin.
  { intros sd' Hsd' p Hp. eapply intersection_in_file; [done|]. by apply Hsub. }
  change (imap pair (first :: rest))
    with (imap (λ i sd, (length (@nil SampleData) + i, sd)) (first :: rest))
    in Hbl.
  apply (blocks_fold _ (merged_block mp) total (length mp)
           (λ _ _, seq 0 (length mp))
           (λ _ sd, genotypes <$> select_sites mp sd)) in Hbl.
  - cbn [fst snd app] in Hbl. destruct Hbl as [Hinv _].
    apply list_elem_of_lookup in Hrow as [ρ Hρ].
    destruct (mapM_lookup _ _ _ _ _ Hrows Hρ) as ([p [g [a [d m]]]] & Hz & Hr).
    apply lookup_zip_with_Some in Hz as (? & ? & [= <- <-] & Hp & Hz).
    apply lookup_zip_with_Some in Hz as (? & ? & [= <- <-] & Hg & _).
    unfold merge_site_row in Hr. inv_bind Hr. injection Hr as <-.
    cbn [row_position row_genotypes].
    destruct (Hinv _ _ Hg) as (Hlen & _ & Hcols).
    split; [lia|]. rewrite (Hcols _ _ Hsd).
    assert (wf_sampledata sd) as Hwfsd.
    { rewrite Forall_forall in Hwf. apply Hwf. by eapply list_elem_of_lookup_2. }
    pose proof (select_sites_positions mp sd Hwfsd Hsorted
                  (Hin sd (list_elem_of_lookup_2 _ _ _ Hsd))) as Hpos.
    assert ((position <$> select_sites mp sd) !! ρ = Some p) as Hs
      by (by rewrite Hpos).
    rewrite list_lookup_fmap in Hs.
    destruct (select_sites mp sd !! ρ) as [s|] eqn:Hsel; [|done].
    injection Hs as <-. exists s. unfold merged_block. rewrite Hsel.
    split; [|done]. apply list_elem_of_lookup_2 in Hsel.
    by apply list_elem_of_filter in Hsel as [_ Hsel].
  - intros ?????? H. by apply merge_block_step_spec in H.
  - intros j sd' Hj. apply merge_block_source; [|done|].
    + rewrite Forall_forall in Hwf. apply Hwf. by eapply list_elem_of_lookup_2.
    + apply Hin. by eapply list_elem_of_lookup_2.
  - unfold full. by rewrite length_replicate.
  - done.
  - rewrite Hload. reflexivity.
  - apply blocks_written_full.
Qed.

(** ** combine-sampledata: the rows of each file in the data frame *)

Lemma elem_of_np_where_from off mask ρ :
  ρ ∈ np_where_from off mask ↔ off ≤ ρ ∧ mask !! (ρ - off) = Some true.
Proof.
  revert off. induction mask as [|b mask IH]; intros off; cbn [np_where_from].
  - split; [by intros ?%elem_of_nil|by intros [_ ?]].
  - assert (ρ ∈ np_where_from (S off) mask
            ↔ off < ρ ∧ (b :: mask) !! (ρ - off) = Some true) as Hrec.
    { rewrite IH. split.
      - intros [Hle Hm]. split; [lia|].
        by replace (ρ - off) with (S (ρ - S off)) by lia.
      - intros [Hle Hm]. split; [lia|].
        by replace (ρ - off) with (S (ρ - S off)) in Hm by lia. }
    destruct b.
    + rewrite elem_of_cons, Hrec. split.
      * intros [->|[??]]; [|split; [lia|done]].
        split; [done|]. by rewrite Nat.sub_diag.
      * intros [Hle Hm]. destruct (decide (ρ = off)) as [->|]; [by left|].
        right. split; [lia|done].
    + rewrite Hrec. split; [intros [??]; split; [lia|done]|].
      intros [Hle Hm]. split; [|done].
      destruct (decide (ρ = off)) as [->|]; [|lia].
      by rewrite Nat.sub_diag in Hm.
Qed.

Lemma NoDup_np_where_from off mask : NoDup (np_where_from off mask).
Proof.
  revert off. induction mask as [|b mask IH]; intros off; cbn [np_where_from].
  - constructor.
  - destruct b; [|done]. constructor; [|done].
    rewrite elem_of_np_where_from. lia.
Qed.

Lemma np_where_omap {A} (g : A → option nat) (df : list A) off j ρ :
  np_where_from off ((λ r, bool_decide (is_Some (g r))) <$> df) !! j = Some ρ →
  ∃ r s, off ≤ ρ ∧ df !! (ρ - off) = Some r ∧ g r = Some s
         ∧ omap g df !! j = Some s.
Proof.
  revert off j. induction df as [|r df IH]; intros off j;
    cbn [fmap list_fmap np_where_from omap list_omap]; [done|].
  assert (∀ j, np_where_from (S off)
                 ((λ r, bool_decide (is_Some (g r))) <$> df) !! j = Some ρ →
               ∃ r' s, off ≤ ρ ∧ (r :: df) !! (ρ - off) = Some r'
                       ∧ g r' = Some s ∧ omap g df !! j = Some s) as Hrec.
  { intros j' (r' & s & Hle & Hr' & Hg & Ho)%IH. exists r', s.
    split; [lia|]. split; [|done].
    by replace (ρ - off) with (S (ρ - S off)) by lia. }
  destruct (g r) as [s|] eqn:Hg.
  - rewrite bool_decide_true by done. destruct j as [|j]; cbn.
    + intros [= <-]. exists r, s. by rewrite Nat.sub_diag.
    + apply Hrec.
  - rewrite bool_decide_false by (by intros []). apply Hrec.
Qed.

Lemma length_np_where_omap {A} (g : A → option nat) (df : list A) off :
  length (np_where_from off ((λ r, bool_decide (is_Some (g r))) <$> df))
  = length (omap g df).
Proof.
  revert off. induction df as [|r df IH]; intros off;
    cbn [fmap list_fmap np_where_from omap list_omap]; [done|].
  destruct (g r) as [s|] eqn:Hg.
  - rewrite bool_decide_true by done. cbn. by rewrite IH.
  - rewrite bool_decide_false by (by intros []). apply IH.
Qed.

Lemma omap_sorted {A} (R : relation A) (g : A → option nat) (df : list A) :
  StronglySorted R df →
  (∀ r r' s s', r ∈ df → r' ∈ df → R r r' →
                g r = Some s → g r' = Some s' → s ≤ s') →
  StronglySorted le (omap g df).
Proof.
  intros Hdf. induction Hdf as [|r df Hdf IH Hr]; intros Hmono;
    cbn [omap list_omap]; [constructor|].
  assert (StronglySorted le (omap g df)) as IH'.
  { apply IH. intros ???? ??. apply Hmono; by right. }
  destruct (g r) as [s|] eqn:Hg; [|done]. constructor; [done|].
  apply Forall_forall. intros s' (r' & Hr' & Hg')%list_elem_of_omap.
  rewrite Forall_forall in Hr.
  apply (Hmono r r'); [left|by right|by apply Hr|done|done].
Qed.

Lemma omap_NoDup {A K} (key : A → K) (g : A → option nat) (df : list A) :
  NoDup (key <$> df) →
  (∀ r r' s, r ∈ df → r' ∈ df → g r = Some s → g r' = Some s →
             key r = key r') →
  NoDup (omap g df).
Proof.
  induction df as [|r df IH]; cbn [fmap list_fmap omap list_omap];
    intros Hnd Hkey; [constructor|].
  apply NoDup_cons in Hnd as [Hr Hnd].
  assert (NoDup (omap g df)) as IH'.
  { apply IH; [done|]. intros ??? ??. apply Hkey; by right. }
  destruct (g r) as [s|] eqn:Hg; [|done]. constructor; [|done].
  intros (r' & Hr' & Hg')%list_elem_of_omap. apply Hr.
  rewrite (Hkey r r' s); [by apply list_elem_of_fmap_2|left|by right|done|done].
Qed.

Lemma sorted_lookup_lt (l : list Z) a b x y :
  StronglySorted Z.lt l → l !! a = Some x → l !! b = Some y → a < b →
  (x < y)%Z.
Proof.
  intros Hl. revert a b. induction Hl as [|z l Hl IH Hz]; intros a b; [done|].
  destruct a as [|a], b as [|b]; cbn; try lia.
  - intros [= ->] Hb _. rewrite Forall_forall in Hz. apply Hz.
    by eapply list_elem_of_lookup_2.
  - intros ???. apply (IH a b); auto with lia.
Qed.

Lemma seq_sorted j n : StronglySorted le (seq j n).
Proof.
  revert j. induction n as [|n IH]; intros j; cbn; constructor; [done|].
  apply Forall_forall. intros x Hx%elem_of_seq. lia.
Qed.

Lemma frame_row_lookup files df i sd r :
  frame_ok files (length files) df → files !! i = Some sd → r ∈ df →
  SiteID r !! i = fst <$> find_site sd (row_key r)
  ∧ (1 ≤ i → DerivedOf r !! i
             = find_site sd (row_key r) ≫= λ x, derived (alleles x.2)).
Proof.
  intros (_ & Hrows & _) Hsd Hr. rewrite Forall_forall in Hrows.
  destruct (Hrows r Hr i) as [HS HD].
  assert (i < length files) as Hi by (by eapply lookup_lt_Some).
  rewrite decide_True, Hsd in HS by done. split; [done|]. intros Hi'.
  rewrite decide_True, Hsd in HD by lia. done.
Qed.

(** In the sorted data frame, the rows of a file come in the order of its
    sites: their site indices are 0, 1, 2, ... *)
Lemma frame_site_ids files df i sd :
  frame_ok files (length files) df → StronglySorted position_le df →
  files !! i = Some sd → wf_sampledata sd →
  omap (λ r, SiteID r !! i) df = seq 0 (length (sites sd)).
Proof.
  intros Hok Hsorted Hsd Hwf.
  pose proof (wf_site_keys_NoDup _ Hwf) as Hnd.
  assert (∀ r s, r ∈ df → SiteID r !! i = Some s →
            ∃ site, sites sd !! s = Some site ∧ site_key site = row_key r)
    as Hsite.
  { intros r s Hr Hs.
    destruct (frame_row_lookup _ _ _ _ _ Hok Hsd Hr) as [HS _].
    rewrite HS in Hs.
    destruct (find_site sd (row_key r)) as [[s' site]|] eqn:Hf; [|done].
    injection Hs as ->. exists site. by apply find_site_Some. }
  apply (Sorted_unique le).
  - apply StronglySorted_Sorted, (omap_sorted position_le); [done|].
    intros r r' s s' Hr Hr' Hle Hs Hs'.
    destruct (Hsite _ _ Hr Hs) as (site & Hl & Hk).
    destruct (Hsite _ _ Hr' Hs') as (site' & Hl' & Hk').
    destruct (decide (s ≤ s')) as [|Hgt]; [done|]. exfalso.
    assert (position site' < position site)%Z; [|].
    { apply (sorted_lookup_lt (sites_position sd) s' s);
        [by apply wf_positions_sorted| | |lia];
        unfold sites_position; rewrite list_lookup_fmap.
      - by rewrite Hl'.
      - by rewrite Hl. }
    unfold position_le in Hle. injection Hk as Hp _. injection Hk' as Hp' _.
    lia.
  - apply StronglySorted_Sorted, seq_sorted.
  - apply NoDup_Permutation; [|apply NoDup_seq|].
    + destruct Hok as (Hkeys & _ & _). apply (omap_NoDup row_key); [done|].
      intros r r' s Hr Hr' Hs Hs'.
      destruct (Hsite _ _ Hr Hs) as (site & Hl & <-).
      destruct (Hsite _ _ Hr' Hs') as (site' & Hl' & <-). congruence.
    + intros s. rewrite list_elem_of_omap, elem_of_seq. split.
      * intros (r & Hr & Hs). destruct (Hsite _ _ Hr Hs) as (site & Hl & _).
        apply lookup_lt_Some in Hl. lia.
      * intros [_ Hs]. cbn in Hs.
        destruct (lookup_lt_is_Some_2 (sites sd) s Hs) as [site Hl].
        destruct Hok as (Hkeys & Hrows & Hcover).
        assert (site_key site ∈ row_key <$> df) as Hin.
        { apply Hcover. exists i, sd. split; [by eapply lookup_lt_Some|].
          split; [done|]. apply list_elem_of_fmap.
          eauto using list_elem_of_lookup_2. }
        apply list_elem_of_fmap in Hin as (r & Hk & Hr). exists r.
        split; [done|].
        destruct (frame_row_lookup files df i sd r) as [-> _]; [done..|].
        by rewrite <- Hk, (find_site_lookup _ _ _ Hnd Hl).
Qed.

Lemma combine_block_step_spec df cur genos md i sd acc' :
  combine_block_step df (cur, genos, md) (i, sd) = Ok acc' →
  acc'.1.1 = cur + num_samples sd
  ∧ acc'.1.2
    = scatter_rows cur
        (np_where ((λ r, bool_decide (is_Some (SiteID r !! i))) <$> df))
        (combine_genos df i sd) genos.
Proof.
  unfold combine_block_step. intros H. inv_bind H. inv_bind H.
  injection H as <-. cbn [fst snd]. split; [done|].
  unfold assign_block in Ha. case_decide; [|done]. by injection Ha as <-.
Qed.

Lemma combine_genos_lookup df i sd s site :
  sites sd !! s = Some site →
  combine_genos df i sd !! s
  = Some (if bool_decide
               (i ≠ 0 ∧ s ∈ omap (λ r, SiteID r !! i)
                              (filter (λ r, multiallelic i r = true) df))
          then missing_if_derived <$> genotypes site
          else genotypes site).
Proof.
  intros Hs. unfold combine_genos, mark_missing, sites_genotypes.
  case_decide as Hi.
  - rewrite list_lookup_imap, list_lookup_fmap, Hs. cbn.
    f_equal. repeat case_bool_decide; done || tauto.
  - rewrite list_lookup_fmap, Hs. cbn. by rewrite bool_decide_false by tauto.
Qed.

Lemma combine_genos_length df i sd :
  length (combine_genos df i sd) = length (sites sd).
Proof.
  unfold combine_genos, mark_missing, sites_genotypes.
  case_decide; by rewrite ?length_imap, length_fmap.
Qed.

Lemma combine_block_source files df i sd :
  frame_ok files (length files) df → StronglySorted position_le df →
  files !! i = Some sd → wf_sampledata sd →
  block_source (combined_block df) (length df)
    (np_where ((λ r, bool_decide (is_Some (SiteID r !! i))) <$> df))
    (combine_genos df i sd) i sd.
Proof.
  intros Hok Hsorted Hsd Hwf.
  pose proof (frame_site_ids _ _ _ _ Hok Hsorted Hsd Hwf) as Hids.
  unfold np_where. split; [apply NoDup_np_where_from|]. split.
  { rewrite (length_np_where_omap (λ r, SiteID r !! i)), Hids.
    by rewrite length_seq, combine_genos_length. }
  assert (∀ s, s < length (sites sd) →
            ∃ g, combine_genos df i sd !! s = Some g
                 ∧ length g = num_samples sd) as Hg.
  { intros s Hs. destruct (lookup_lt_is_Some_2 (sites sd) s Hs) as [site Hl].
    rewrite (combine_genos_lookup _ _ _ _ _ Hl). eexists. split; [done|].
    destruct Hwf as (_ & _ & Hwf). rewrite Forall_forall in Hwf.
    specialize (Hwf site (list_elem_of_lookup_2 _ _ _ Hl)).
    case_bool_decide; by rewrite ?length_fmap. }
  assert (∀ r s, r ∈ df → SiteID r !! i = Some s → s < length (sites sd))
    as Hlt.
  { intros r s Hr Hs. assert (s ∈ seq 0 (length (sites sd))) as Hin.
    - rewrite <- Hids. apply list_elem_of_omap. eauto.
    - apply elem_of_seq in Hin. lia. }
  split; [|split].
  - intros j ρ (r & s & _ & Hr & Hs & Ho)%np_where_omap.
    rewrite Nat.sub_0_r in Hr. rewrite Hids in Ho.
    apply lookup_seq in Ho as [-> Hj]. cbn in Hs.
    split; [by eapply lookup_lt_Some|].
    unfold combined_block. rewrite Hr, Hs.
    destruct (Hg j Hj) as (g & -> & _). done.
  - intros ρ Hρ. unfold combined_block.
    destruct (lookup_lt_is_Some_2 df ρ Hρ) as [r Hr]. rewrite Hr.
    destruct (SiteID r !! i) as [s|] eqn:Hs; [|apply length_replicate].
    destruct (Hg s) as (g & -> & Hlen); [|done].
    eapply Hlt; [|done]. by eapply list_elem_of_lookup_2.
  - intros ρ Hρ Hn. unfold combined_block.
    destruct (lookup_lt_is_Some_2 df ρ Hρ) as [r Hr]. rewrite Hr.
    destruct (SiteID r !! i) as [s|] eqn:Hs; [|done].
    exfalso. apply Hn, elem_of_np_where_from. split; [lia|].
    rewrite Nat.sub_0_r, list_lookup_fmap, Hr. cbn.
    by rewrite Hs, bool_decide_true.
Qed.

(** The block of a file in a row of the data frame is what the
    specification says of the output row. *)
Lemma combined_block_columns files df ρ r i sd g m :
  frame_ok files (length files) df → wf_sampledata sd →
  files !! i = Some sd → df !! ρ = Some r →
  combined_block df ρ i sd
  = keyed_columns i sd
      {| row_position := Position r; row_genotypes := g;
         row_alleles := [Some (Ancestral r); Derived r];
         row_metadata := m |}.
Proof.
  intros Hok Hwf Hsd Hr. pose proof (wf_site_keys_NoDup _ Hwf) as Hnd.
  pose proof (list_elem_of_lookup_2 _ _ _ Hr) as Hin.
  destruct (frame_row_lookup _ _ _ _ _ Hok Hsd Hin) as [HS HD].
  unfold combined_block, keyed_columns. rewrite Hr, HS.
  cbn [row_alleles row_position]. fold (row_key r).
  destruct (find_site sd (row_key r)) as [[s site]|] eqn:Hf; [|done].
  cbn [fmap option_fmap option_map fst].
  pose proof (find_site_Some _ _ _ _ Hf) as [Hl Hk].
  rewrite (combine_genos_lookup _ _ _ _ _ Hl). cbn [default].
  erewrite bool_decide_ext; [done|].
  split.
  - intros [Hi (r' & [Hm Hr']%list_elem_of_filter & Hs')%list_elem_of_omap].
    split; [done|].
    destruct (frame_row_lookup _ _ _ _ _ Hok Hsd Hr') as [HS' _].
    rewrite HS' in Hs'.
    destruct (find_site sd (row_key r')) as [[s' site']|] eqn:Hf'; [|done].
    injection Hs' as ->. apply find_site_Some in Hf' as [Hl' Hk'].
    assert (r' = r) as ->.
    { destruct Hok as (Hkeys & _). apply (NoDup_fmap_eq row_key df); try done.
      rewrite <- Hk, <- Hk'. congruence. }
    unfold multiallelic in Hm. rewrite HD in Hm by lia.
    cbn [mbind option_bind snd] in Hm.
    destruct (derived (alleles site)) as [d|]; [|done].
    split; [done|]. by apply bool_decide_eq_true in Hm.
  - intros (Hi & [d Hd] & Hne). split; [done|].
    apply list_elem_of_omap. exists r. split; [|by rewrite HS].
    apply list_elem_of_filter. split; [|done].
    unfold multiallelic. rewrite HD by lia. cbn [mbind option_bind snd].
    rewrite Hd in Hne |- *. by apply bool_decide_eq_true.
Qed.

Lemma combine_columns output first rest tr out row i sd :
  Forall wf_sampledata (first :: rest) →
  run_combine_sampledata output (first :: rest) = (tr, Ok out) →
  row ∈ out_sites out → (first :: rest) !! i = Some sd →
  length (row_genotypes row) = sum_list (num_samples <$> first :: rest)
  ∧ file_columns (first :: rest) i sd (row_genotypes row)
    = keyed_columns i sd row.
Proof.
  intros Hwf (seq_len & total & Hload & Hsites)%run_combine_inv Hrow Hsd.
  apply load_total in Hload.
  apply combine_sites_inv in Hsites
    as (df & cur & genos & md & Hdf & Hbl & Hrows).
  destruct (combined_frame_ok _ _ _ Hwf Hdf) as [Hok Hsorted].
  assert (∀ j sd', (first :: rest) !! j = Some sd' → wf_sampledata sd')
    as Hwf'.
  { intros j sd' Hj. rewrite Forall_forall in Hwf. apply Hwf.
    by eapply list_elem_of_lookup_2. }
  change (imap pair (first :: rest))
    with (imap (λ i sd, (length (@nil SampleData) + i, sd)) (first :: rest))
    in Hbl.
  apply (blocks_fold _ (combined_block df) total (length df)
           (λ i _, np_where ((λ r, bool_decide (is_Some (SiteID r !! i)))
                             <$> df))
           (combine_genos df)) in Hbl.
  - cbn [fst snd app] in Hbl. destruct Hbl as [Hinv _].
    apply list_elem_of_lookup in Hrow as [ρ Hρ].
    destruct (mapM_lookup _ _ _ _ _ Hrows Hρ) as ([r [g m]] & Hz & Hr).
    apply lookup_zip_with_Some in Hz as (? & ? & [= <- <-] & Hdfr & Hz).
    apply lookup_zip_with_Some in Hz as (? & ? & [= <- <-] & Hg & _).
    unfold combine_site_row in Hr. inv_bind Hr. injection Hr as <-.
    cbn [row_genotypes].
    destruct (Hinv _ _ Hg) as (Hlen & _ & Hcols).
    split; [lia|]. rewrite (Hcols _ _ Hsd).
    by apply (combined_block_columns (first :: rest)); eauto.
  - intros ?????? H. by apply combine_block_step_spec in H.
  - intros j sd' Hj. cbn [length Nat.add].
    apply (combine_block_source (first :: rest)); eauto.
  - unfold full. by rewrite length_replicate.
  - done.
  - rewrite Hload. reflexivity.
  - apply blocks_written_full.
Qed.

Lemma site_at_elem sd s :
  NoDup (sites_position sd) → s ∈ sites sd → site_at sd (position s) = Some s.
Proof.
  intros Hnd [k Hk]%list_elem_of_lookup. unfold site_at.
  destruct (list_find _ (sites sd)) as [[k' s']|] eqn:Hfind.
  - apply list_find_Some in Hfind as (Hk' & Hp & _). cbn. f_equal.
    assert (k' = k) as -> by
      (apply (NoDup_lookup _ _ _ (position s) Hnd);
       unfold sites_position; rewrite list_lookup_fmap;
       [by rewrite Hk', <- Hp|by rewrite Hk]).
    congruence.
  - apply list_find_None in Hfind. rewrite Forall_forall in Hfind.
    exfalso. eapply Hfind; [by eapply list_elem_of_lookup_2|done].
Qed.

Lemma site_at_None sd p :
  p ∉ sites_position sd → site_at sd p = None.
Proof.
  intros Hp. unfold site_at.
  destruct (list_find _ (sites sd)) as [[k s]|] eqn:Hfind; [|done].
  apply list_find_Some in Hfind as (Hk & <- & _).
  exfalso. apply Hp, list_elem_of_fmap. exists s.
  split; [done|by eapply list_elem_of_lookup_2].
Qed.

Lemma wf_positions_NoDup sd :
  wf_sampledata sd → NoDup (sites_position sd).
Proof.
  intros (_ & Hsorted & _). apply StronglySorted_lt_NoDup.
  by apply Sorted_StronglySorted; [intros ???; lia|].
Qed.

(** In a run that completes no two rows have one position, so that the
    site of a file under the key of a row is its site at the position of
    the row. *)
Lemma combine_row_site output first rest tr out row i sd :
  Forall wf_sampledata (first :: rest) →
  run_combine_sampledata output (first :: rest) = (tr, Ok out) →
  row ∈ out_sites out → (first :: rest) !! i = Some sd →
  ∃ anc der,
    row_alleles row = [Some anc; der]
    ∧ snd <$> find_site sd (row_position row, anc)
      = site_at sd (row_position row).
Proof.
  intros Hwf Hrun Hrow Hsd.
  pose proof (run_combine_increasing _ _ _ _ Hrun) as Hinc.
  apply run_combine_inv in Hrun as (seq_len & total & _ & Hsites).
  destruct (combine_sites_positions _ _ _ Hsites) as (df & Hdf & Hpos).
  apply combine_sites_inv in Hsites
    as (df' & cur & genos & md & Hdf' & Hbl & Hrows).
  assert (df' = df) as -> by congruence.
  destruct (combined_frame_ok _ _ _ Hwf Hdf) as [(Hkeys & _ & Hcover) _].
  rewrite Hpos in Hinc. apply StronglySorted_lt_NoDup in Hinc.
  apply list_elem_of_lookup in Hrow as [ρ Hρ].
  destruct (mapM_lookup _ _ _ _ _ Hrows Hρ) as ([r [g m]] & Hz & Hr).
  apply lookup_zip_with_Some in Hz as (? & ? & [= <- <-] & Hdfr & _).
  unfold combine_site_row in Hr. inv_bind Hr. injection Hr as <-.
  cbn [row_alleles row_position]. exists (Ancestral r), (Derived r).
  split; [done|]. fold (row_key r).
  assert (wf_sampledata sd) as Hwfsd.
  { rewrite Forall_forall in Hwf. apply Hwf.
    by eapply list_elem_of_lookup_2. }
  pose proof (wf_positions_NoDup _ Hwfsd) as Hnd.
  destruct (find_site sd (row_key r)) as [[k s]|] eqn:Hfind.
  - apply find_site_Some in Hfind as [Hk Hkey]. cbn.
    injection Hkey as Hp _. rewrite <- Hp. symmetry.
    apply site_at_elem; [done|by eapply list_elem_of_lookup_2].
  - cbn. symmetry. apply site_at_None.
    intros (s & Hp & Hs)%list_elem_of_fmap.
    apply find_site_None in Hfind. apply Hfind.
    assert (site_key s ∈ row_key <$> df) as (r' & Hk & Hr')%list_elem_of_fmap.
    { apply Hcover. exists i, sd. split; [by eapply lookup_lt_Some|].
      split; [done|]. by apply list_elem_of_fmap_2. }
    assert (r' = r) as ->.
    { apply (NoDup_fmap_eq Position df); [done|done|
        by eapply list_elem_of_lookup_2|].
      injection Hk as Hk _. congruence. }
    rewrite <- Hk. by apply list_elem_of_fmap_2.
Qed.

(** C1, as the code has it: for finalised input containers, when the
    handler completes, every row of the combined genotype matrix has one
    column for each sample of each file, and the columns of the [i]-th file
    are those from the sum of the sample counts of the files before it on,
    in the sample order of the file. In merge-sampledata they hold the
    genotypes of the site of the file at the position of the row. In
    combine-sampledata they hold the genotypes of the site of the file at
    the position of the row, except that the derived genotypes are marked
    missing where a file after the first has another derived allele than
    the row, and they hold [MISSING_DATA] throughout when the file has no
    site at the position. *)
Theorem per_file_columns output first rest :
  Forall wf_sampledata (first :: rest) →
  (∀ tr out row i sd,
     run_merge_sampledata output (first :: rest) = (tr, Ok out) →
     row ∈ out_sites out → (first :: rest) !! i = Some sd →
     length (row_genotypes row) = sum_list (num_samples <$> first :: rest)
     ∧ ∃ s, s ∈ sites sd ∧ position s = row_position row
            ∧ file_columns (first :: rest) i sd (row_genotypes row)
              = genotypes s)
  ∧ (∀ tr out row i sd,
     run_combine_sampledata output (first :: rest) = (tr, Ok out) →
     row ∈ out_sites out → (first :: rest) !! i = Some sd →
     length (row_genotypes row) = sum_list (num_samples <$> first :: rest)
     ∧ file_columns (first :: rest) i sd (row_genotypes row)
       = combined_columns i sd row).
Proof.
  intros Hwf. split.
  - intros tr out row i sd Hrun Hrow Hsd. by eapply merge_columns.
  - intros tr out row i sd Hrun Hrow Hsd.
    destruct (combine_columns _ _ _ _ _ _ _ _ Hwf Hrun Hrow Hsd) as [Hlen Hcols].
    split; [done|]. rewrite Hcols.
    destruct (combine_row_site _ _ _ _ _ _ _ _ Hwf Hrun Hrow Hsd)
      as (anc & der & Hal & Hsite).
    unfold keyed_columns, combined_columns. rewrite Hal, <- Hsite.
    destruct (find_site sd (row_position row, anc)) as [[k s]|]; [|done].
    cbn. erewrite bool_decide_ext; [done|].
    split; intros (Hi & Hd & Hne); (split; [done|split; [done|]]);
      intros Heq; apply Hne; congruence.
Qed.

(** The claim C1 as stated fails: at the position 2 the second example
    file lists the derived allele G and the first the derived allele C, and
    in the row of that site the columns of the second file hold
    [MISSING_DATA] where the file has the genotype 1. *)
Lemma per_file_columns_derived_conflict :
  let files := [example_file_a; example_file_b] in
  ∃ out row s,
    run_combine_sampledata "out.samples" files
    = ([CreateSampleData "out.samples"], Ok out)
    ∧ out_sites out !! 1 = Some row
    ∧ row_position row = 2%Z
    ∧ sites example_file_b !! 0 = Some s
    ∧ position s = 2%Z
    ∧ genotypes s = [0; 1; 1; 0]%Z
    ∧ file_columns files 1 example_file_b (row_genotypes row)
      = [0; -1; -1; 0]%Z.
Proof. intros files. eexists _, _, _. by vm_compute. Qed.

(** [per_file_columns] on the example files with two and four samples:
    in the combined row at position 3, which only the second file has, the
    columns 0 and 1 hold [MISSING_DATA] and the columns 2 to 5 the genotypes
    of the second file. *)
Lemma per_file_columns_witness :
  let files := [example_file_a; example_file_b] in
  ∃ tr out row,
    Forall wf_sampledata files
    ∧ run_combine_sampledata "out.samples" files = (tr, Ok out)
    ∧ out_sites out !! 2 = Some row
    ∧ row_position row = 3%Z
    ∧ file_columns files 0 example_file_a (row_genotypes row)
      = combined_columns 0 example_file_a row
    ∧ combined_columns 0 example_file_a row = [-1; -1]%Z
    ∧ file_columns files 1 example_file_b (row_genotypes row)
      = combined_columns 1 example_file_b row
    ∧ combined_columns 1 example_file_b row = [1; 1; 0; 1]%Z.
Proof.
  intros files. eexists _, _, _.
  assert (Forall wf_sampledata files) as Hwf
    by (apply (bool_decide_unpack _); by vm_compute).
  split; [exact Hwf|].
  match goal with |- ?P ∧ _ => assert P as Hrun by (vm_compute; reflexivity) end.
  split; [exact Hrun|].
  match goal with |- ?P ∧ _ => assert P as Hrow by (vm_compute; reflexivity) end.
  split; [exact Hrow|]. split; [reflexivity|].
  pose proof (proj2 (per_file_columns "out.samples" example_file_a
                       [example_file_b] Hwf)) as Hcols.
  split; [exact (proj2 (Hcols _ _ _ 0 example_file_a Hrun
                          (list_elem_of_lookup_2 _ _ _ Hrow) eq_refl))|].
  split; [by vm_compute|].
  split; [exact (proj2 (Hcols _ _ _ 1 example_file_b Hrun
                          (list_elem_of_lookup_2 _ _ _ Hrow) eq_refl))|].
  by vm_compute.
Defined.

(** ** combine-ukbb-1kg *)

Lemma subset_fold inter tg todo k S0 M0 S1 M1 :
  foldM (subset_step inter tg) (S0, M0) (imap (λ i s, (k + i, s)) todo)
  = Ok (S1, M1) →
  S1 = S0 ++ ((λ s, {| ts_position := ts_position s; ancestral_state := "0";
                      ts_site_metadata := "" |})
             <$> filter (λ s, ts_position s ∈ inter) todo)
  ∧ (λ m, (mut_site m, derived_state m)) <$> M1
    = ((λ m, (mut_site m, derived_state m)) <$> M0)
      ++ ((λ i, (Z.of_nat i, "1"))
          <$> seq (length S0)
                (length (filter (λ s, ts_position s ∈ inter) todo))).
Proof.
  revert k S0 M0. induction todo as [|s todo IH]; intros k S0 M0.
  - cbn. intros [= <- <-]. by rewrite !app_nil_r.
  - rewrite imap_cons. cbn [foldM]. intros H. inv_bind H.
    rewrite (imap_ext _ (λ i s, (S k + i, s))) in H
      by (intros; cbn; f_equal; lia).
    unfold subset_step in Ha. rewrite filter_cons. case_decide as Hin.
    + inv_bind Ha. destruct (site_mutations tg (k + 0)) as [|m ?]; [done|].
      injection Ha as <-. apply IH in H as [-> ->].
      rewrite length_app. cbn [length fmap list_fmap].
      rewrite !fmap_app, <- !app_assoc. cbn [fmap list_fmap app seq].
      split; [done|]. cbn [mut_site derived_state]. by rewrite Nat.add_1_r.
    + injection Ha as <-. by apply IH in H.
Qed.

Lemma subset_sites_spec ukbb tg t :
  subset_sites ukbb tg = Ok t →
  nodes t = nodes tg ∧ edges t = edges tg
  ∧ ts_sites t
    = ((λ s, {| ts_position := ts_position s; ancestral_state := "0";
                ts_site_metadata := "" |})
       <$> filter (λ s, ts_position s ∈ intersecting_sites ukbb tg)
                  (ts_sites tg))
  ∧ mutation_view t
    = (λ i, (Z.of_nat i, "1")) <$> seq 0 (length (ts_sites t)).
Proof.
  unfold subset_sites. intros H. inv_bind H. destruct a as [S1 M1].
  injection H as <-. cbn [nodes edges ts_sites mutations].
  change (imap pair (ts_sites tg))
    with (imap (λ i s, (0 + i, s)) (ts_sites tg)) in Ha.
  apply subset_fold in Ha as [-> HM]. cbn [app] in *.
  unfold mutation_view. cbn [mutations]. by rewrite HM, length_fmap.
Qed.

Lemma single_mutation (muts : list MutationRow) off k id :
  (λ m, (mut_site m, derived_state m)) <$> muts
  = (λ i, (Z.of_nat i, "1")) <$> seq off k →
  (id < off → filter (λ m, mut_site m = Z.of_nat id) muts = [])
  ∧ (off ≤ id < off + k →
     ∃ m, filter (λ m, mut_site m = Z.of_nat id) muts = [m]
          ∧ derived_state m = "1").
Proof.
  revert off k. induction muts as [|m muts IH]; intros off [|k]; try done.
  - split; [done|lia].
  - cbn [fmap list_fmap seq]. intros [= Hsite Hstate Hrest].
    destruct (IH _ _ Hrest) as [IH1 IH2]. rewrite filter_cons. split.
    + intros Hlt. rewrite decide_False by lia. apply IH1. lia.
    + intros Hid. destruct (decide (id = off)) as [->|Hne].
      * rewrite decide_True by done. rewrite IH1 by lia. eauto.
      * rewrite decide_False by lia. apply IH2. lia.
Qed.

Lemma renumber_spec trees_of reduced t :
  renumber trees_of reduced = Ok t →
  ∃ oldest root trees,
    np_max (node_time <$> nodes reduced) = Ok oldest
    ∧ trees_of reduced = (root.1, root.2) :: trees
    ∧ nodes t = {| node_flags := 1; node_time := (oldest + 2)%float;
                   node_population := NULL; node_individual := NULL;
                   node_metadata := "" |}
                :: (renumber_node <$> nodes reduced)
    ∧ edges t = (renumber_edge <$> edges reduced)
                ++ root_edges 0 root.2 trees (ts_sequence_length reduced)
    ∧ ts_sites t = ts_sites reduced
    ∧ mutations t = renumber_mutation <$> mutations reduced.
Proof.
  unfold renumber. intros H. inv_bind H. rename a into oldest.
  destruct (trees_of reduced) as [|[left root] trees]; [done|].
  injection H as <-. by exists oldest, (left, root), trees.
Qed.


Lemma StronglySorted_sublist {A} (R : relation A) (l k : list A) :
  StronglySorted R k → l `sublist_of` k → StronglySorted R l.
Proof.
  intros Hk. revert l. induction Hk as [|x k Hk IH Hx]; intros l Hl.
  - apply sublist_nil_r in Hl as ->. constructor.
  - apply sublist_cons_r in Hl as [Hl|(l' & -> & Hl)]; [by apply IH|].
    constructor; [by apply IH|].
    apply Forall_forall. intros y Hy. rewrite Forall_forall in Hx.
    apply Hx. by eapply elem_of_sublist.
Qed.

Lemma sublist_same_length {A} (l k : list A) :
  l `sublist_of` k → length l = length k → l = k.
Proof.
  induction 1 as [|x l k _ IH|x l k Hl _]; cbn [length]; intros Hlen.
  - done.
  - f_equal. apply IH. lia.
  - apply sublist_length in Hl. lia.
Qed.

(** Mutations whose sites and states are distinct pairs [(i, "1")]: a site
    has one of them at most. *)
Lemma at_most_one_mutation (muts : list MutationRow) (id : nat) :
  NoDup ((λ m, (mut_site m, derived_state m)) <$> muts) →
  Forall (λ m, derived_state m = "1") muts →
  filter (λ m, mut_site m = Z.of_nat id) muts = []
  ∨ ∃ m, filter (λ m, mut_site m = Z.of_nat id) muts = [m]
         ∧ derived_state m = "1".
Proof.
  induction muts as [|m muts IH]; [by left|].
  cbn [fmap list_fmap]. intros [Hm Hnd]%NoDup_cons [Hs Hall]%Forall_cons.
  rewrite filter_cons. destruct (IH Hnd Hall) as [Hnone|(m' & Hone & Hs')].
  - rewrite Hnone. case_decide; [right; eauto|by left].
  - rewrite Hone. case_decide as Hid; [|right; eauto].
    exfalso. apply Hm, list_elem_of_fmap. exists m'.
    assert (m' ∈ filter (λ m, mut_site m = Z.of_nat id) muts) as Hin
      by (rewrite Hone; left).
    apply list_elem_of_filter in Hin as [Hid' Hin].
    split; [|done]. by rewrite Hid, Hid', Hs, Hs'.
Qed.

Section combine_ukbb_1kg_facts.
Variable simplify : Tables → Tables.
Variable trees_of : Tables → list (Z * Z).
Variable sort : Tables → Tables.

Lemma ancestors_tables_inv ukbb tg written :
  ancestors_tables simplify trees_of sort ukbb tg = Ok written →
  ∃ t0 t, subset_sites ukbb tg = Ok t0
          ∧ renumber trees_of (simplify t0) = Ok t
          ∧ written = sort t.
Proof.
  unfold ancestors_tables. intros H. inv_bind H. inv_bind H.
  injection H as <-. eauto.
Qed.

(** C4, as the code has it: in the tables that combine-ukbb-1kg dumps, the
    site table has one site for each position that is both a UKBB position
    and a position of the 1000-genomes tree sequence, and no other, each
    with the ancestral state "0". The handler gives each of these sites one
    mutation, of derived state "1", before it simplifies the tables; a site
    of the dumped tables has that mutation or, when [simplify] removed it,
    none, and it has it when [simplify] removed no mutation. The sites of
    the loaded tree sequence are in increasing order of position, as tskit
    requires. *)
Theorem ukbb_sites_subset ukbb tg written :
  StronglySorted Z.lt (ts_position <$> ts_sites tg) →
  simplify_keeps_sites simplify →
  sort_keeps_sites sort →
  ancestors_tables simplify trees_of sort ukbb tg = Ok written →
  NoDup (ts_position <$> ts_sites written)
  ∧ (∀ p, p ∈ ts_position <$> ts_sites written
          ↔ p ∈ sites_position ukbb ∧ p ∈ ts_position <$> ts_sites tg)
  ∧ Forall (λ s, ancestral_state s = "0") (ts_sites written)
  ∧ (∃ t0, subset_sites ukbb tg = Ok t0
           ∧ ts_sites t0 = ts_sites written
           ∧ (∀ id, id < length (ts_sites t0) →
                ∃ m, site_mutations t0 id = [m] ∧ derived_state m = "1")
           ∧ (length (mutations (simplify t0)) = length (mutations t0) →
              ∀ id, id < length (ts_sites written) →
                ∃ m, site_mutations written id = [m] ∧ derived_state m = "1"))
  ∧ ∀ id, id < length (ts_sites written) →
          site_mutations written id = []
          ∨ ∃ m, site_mutations written id = [m] ∧ derived_state m = "1".
Proof.
  intros Hsorted Hsimplify Hsort (t0 & t & Ht0 & Ht & ->)%ancestors_tables_inv.
  destruct (Hsimplify t0) as [Hs1 Hm1].
  destruct (renumber_spec _ _ _ Ht)
    as (oldest & root & trees & _ & _ & _ & _ & Hs3 & Hm3).
  destruct (subset_sites_spec _ _ _ Ht0) as (_ & _ & Hsites & Hview).
  assert (ts_position <$> ts_sites t0
          = filter (λ p, p ∈ intersecting_sites ukbb tg)
                   (ts_position <$> ts_sites tg)) as Hpos.
  { rewrite Hsites, <- list_fmap_compose.
    apply (fmap_filter_comm ts_position
             (λ p, p ∈ intersecting_sites ukbb tg)
             (Hdec:=λ p, decide_rel (∈) p (intersecting_sites ukbb tg))). }
  assert (StronglySorted Z.lt (ts_position <$> ts_sites t0)) as Hsorted0.
  { rewrite Hpos. eapply StronglySorted_sublist; [done|apply sublist_filter]. }
  destruct (Hsort t) as [Hs2 Hm2]; [by rewrite Hs3, Hs1|].
  assert (ts_sites (sort t) = ts_sites t0) as Hs by congruence.
  assert (mutation_view t = mutation_view (simplify t0)) as Hm3'.
  { unfold mutation_view. by rewrite Hm3, <- list_fmap_compose. }
  rewrite Hm3' in Hm2.
  assert (∀ id, id < length (ts_sites t0) →
            ∃ m, site_mutations t0 id = [m] ∧ derived_state m = "1") as Hone.
  { intros id Hid. unfold site_mutations. unfold mutation_view in Hview.
    apply (single_mutation _ 0 (length (ts_sites t0)) id Hview). lia. }
  assert (∀ id, site_mutations (sort t) id = []
                ∨ ∃ m, site_mutations (sort t) id = [m]
                       ∧ derived_state m = "1") as Hmost.
  { intros id. apply at_most_one_mutation.
    - fold (mutation_view (sort t)). rewrite Hm2.
      eapply sublist_NoDup; [|exact Hm1]. rewrite Hview.
      apply NoDup_fmap_2; [|apply NoDup_seq].
      intros i j [= Hij]. lia.
    - apply Forall_forall. intros m Hm.
      assert ((mut_site m, derived_state m) ∈ mutation_view (sort t)) as Hv
        by (apply list_elem_of_fmap; eauto).
      rewrite Hm2 in Hv. eapply elem_of_sublist in Hv; [|exact Hm1].
      rewrite Hview in Hv.
      by apply list_elem_of_fmap in Hv as (i & [= _ ->] & _). }
  rewrite Hs, Hpos.
  split; [by apply NoDup_filter, StronglySorted_lt_NoDup|].
  split; [|split; [|split]].
  - intros p. rewrite list_elem_of_filter. unfold intersecting_sites.
    rewrite elem_of_intersection, elem_of_list_to_set.
    unfold position_set. rewrite elem_of_list_to_set. tauto.
  - rewrite Hsites. apply Forall_fmap, Forall_forall. by intros.
  - exists t0. split; [done|]. split; [done|]. split; [done|].
    intros Hlen id Hid.
    destruct (Hmost id) as [Hnone|Hsome]; [exfalso|done].
    assert (mutation_view (simplify t0) = mutation_view t0) as Heq.
    { apply sublist_same_length; [done|].
      unfold mutation_view. by rewrite !length_fmap. }
    assert ((Z.of_nat id, "1") ∈ mutation_view (sort t)) as Hv.
    { rewrite Hm2, Heq, Hview. apply list_elem_of_fmap. exists id.
      split; [done|]. apply elem_of_seq. lia. }
    apply list_elem_of_fmap in Hv as (m & [= Hsite _] & Hin).
    assert (m ∈ site_mutations (sort t) id) as Hm
      by (apply list_elem_of_filter; split; [done|done]).
    rewrite Hnone in Hm. by apply elem_of_nil in Hm.
  - intros id _. apply Hmost.
Qed.

End combine_ukbb_1kg_facts.

Lemma example_simplify_isolated_keeps_sites :
  simplify_keeps_sites example_simplify_isolated.
Proof.
  intros t. split; [done|]. unfold mutation_view. cbn [mutations example_simplify_isolated].
  apply fmap_sublist, sublist_filter.
Qed.

(** The claim C4 as stated fails: in the example tree sequence whose site
    at 1 has its mutation above a node that is above no sample, [simplify]
    removes that mutation, and the site at 1 of the dumped tables has no
    mutation. *)
Lemma ukbb_sites_subset_removed_mutation :
  ∃ written,
    ancestors_tables example_simplify_isolated example_trees_of example_sort
      example_file_a example_tables_isolated = Ok written
    ∧ ts_position <$> ts_sites written = [1; 2]%Z
    ∧ site_mutations written 0 = [].
Proof. eexists. split; [vm_compute; reflexivity|]. by vm_compute. Qed.

(** [ukbb_sites_subset] on the example tree sequence, with sites at 1, 2
    and 7, and the example container, with sites at 1, 2 and 5: the dumped
    tables have the sites at 1 and 2, and the site at 2 has its mutation. *)
Lemma ukbb_sites_subset_witness :
  ∃ written,
    StronglySorted Z.lt (ts_position <$> ts_sites example_tables_isolated)
    ∧ ancestors_tables example_simplify_isolated example_trees_of example_sort
        example_file_a example_tables_isolated = Ok written
    ∧ NoDup (ts_position <$> ts_sites written)
    ∧ (∀ p, p ∈ ts_position <$> ts_sites written
            ↔ p ∈ sites_position example_file_a
              ∧ p ∈ ts_position <$> ts_sites example_tables_isolated)
    ∧ ∀ id, id < length (ts_sites written) →
            site_mutations written id = []
            ∨ ∃ m, site_mutations written id = [m] ∧ derived_state m = "1".
Proof.
  eexists.
  assert (StronglySorted Z.lt
            (ts_position <$> ts_sites example_tables_isolated)) as Hsorted
    by (apply (bool_decide_unpack _); by vm_compute).
  split; [exact Hsorted|].
  match goal with |- ?P ∧ _ => assert P as Hrun by (vm_compute; reflexivity) end.
  split; [exact Hrun|].
  destruct (ukbb_sites_subset example_simplify_isolated example_trees_of
              example_sort example_file_a example_tables_isolated _ Hsorted
              example_simplify_isolated_keeps_sites
              (λ _ _, conj eq_refl (reflexivity _)) Hrun)
    as (Hnd & Hpos & _ & _ & Hmut).
  exact (conj Hnd (conj Hpos Hmut)).
Defined.

(** C10: the handler means every node time of the dumped tables to be
    greater than 0 (line 179) but adds 1 to each, whatever it is. On the
    example tree sequence with the samples at time -5 under a root at time
    -4, the run completes and the node times of the dumped tables are -2 for
    the new node 0 and -4, -4 and -3 for the others: none is greater
    than 0. *)
Theorem ukbb_renumbering_negative_time :
  ∃ written,
    ancestors_tables example_simplify example_trees_of example_sort
      example_file_a (example_tables (-5) (-4)) = Ok written
    ∧ node_time <$> nodes written = [-2; -4; -4; -3]%float
    ∧ Forall (λ n, PrimFloat.ltb 0 (node_time n) = false) (nodes written).
Proof.
  eexists. split; [vm_compute; reflexivity|]. split; [reflexivity|].
  repeat constructor.
Qed.

(** ** snip-centromere: the gap that is snipped *)

Lemma argmax_from_spec (pre a : list Z) (best : Z) (besti : nat) :
  pre !! besti = Some best →
  Forall (λ y, (y ≤ best)%Z) pre →
  (∀ k y, k < besti → pre !! k = Some y → (y < best)%Z) →
  let j := argmax_from best besti (length pre) a in
  ∃ m, (pre ++ a) !! j = Some m
       ∧ Forall (λ y, (y ≤ m)%Z) (pre ++ a)
       ∧ ∀ k y, k < j → (pre ++ a) !! k = Some y → (y < m)%Z.
Proof.
  revert pre best besti. induction a as [|x a IH]; intros pre best besti Hb Hle Hlt; cbn.
  - rewrite app_nil_r. eauto.
  - destruct (decide (best < x)%Z) as [Hx|Hx].
    + specialize (IH (pre ++ [x]) x (length pre)).
      rewrite length_app, Nat.add_1_r, <- (assoc_L (++)) in IH. apply IH.
      * by rewrite lookup_app_r, Nat.sub_diag.
      * apply Forall_app; split; [|by repeat constructor].
        eapply Forall_impl; [done|]. cbn. lia.
      * intros k y Hk Hy. rewrite lookup_app_l in Hy by done.
        rewrite Forall_lookup in Hle. specialize (Hle _ _ Hy). cbn in Hle. lia.
    + specialize (IH (pre ++ [x]) best besti).
      rewrite length_app, Nat.add_1_r, <- (assoc_L (++)) in IH. apply IH.
      * apply lookup_app_l_Some. done.
      * apply Forall_app; split; [done|]. repeat constructor. lia.
      * intros k y Hk Hy. apply (Hlt k y Hk).
        apply lookup_lt_Some in Hb. by rewrite lookup_app_l in Hy by lia.
Qed.

Lemma argmax_spec (a : list Z) :
  match argmax a with
  | Ok j => ∃ m, a !! j = Some m ∧ Forall (λ y, (y ≤ m)%Z) a
                 ∧ ∀ k y, k < j → a !! k = Some y → (y < m)%Z
  | Raise e => a = [] ∧ e = ValueError
  end.
Proof.
  destruct a as [|x a]; [done|]. cbn.
  apply (argmax_from_spec [x] a x 0); [done|by repeat constructor|lia].
Qed.

Lemma diffs_lookup (X : list Z) i d :
  diffs X !! i = Some d
  ↔ ∃ x y, X !! i = Some x ∧ X !! (i + 1) = Some y ∧ d = (y - x)%Z.
Proof.
  unfold diffs, all_but_last. rewrite lookup_zip_with_Some, Nat.add_1_r.
  split.
  - intros (y & x & -> & Hy & Hx). rewrite lookup_drop in Hy.
    apply lookup_take_Some in Hx as [Hx _]. eauto.
  - intros (x & y & Hx & Hy & ->). exists y, x. split; [done|].
    rewrite lookup_drop. split; [done|].
    apply lookup_take_Some. split; [done|]. apply lookup_lt_Some in Hy. lia.
Qed.

Lemma searchsorted_sorted (a : list Z) (v : Z) k x :
  StronglySorted Z.lt a → a !! k = Some x →
  (x < v)%Z ↔ k < searchsorted a v.
Proof.
  unfold searchsorted. intros Hs. revert k.
  induction Hs as [|y a Hs IH Hy]; intros k Hk; [done|].
  rewrite filter_cons. destruct k as [|k]; cbn in Hk.
  - simplify_eq. destruct (decide (x < v)%Z); cbn; [split; [lia|done]|].
    split; [done|]. intros Hlen.
    destruct (filter _ a) as [|z l] eqn:Hf; [cbn in Hlen; lia|].
    assert (z ∈ filter (λ x, (x < v)%Z) a) as Hz by (rewrite Hf; left).
    apply list_elem_of_filter in Hz as [Hz1 Hz2].
    rewrite Forall_forall in Hy. specialize (Hy _ Hz2). lia.
  - specialize (IH _ Hk). destruct (decide (y < v)%Z); cbn; [lia|].
    rewrite Forall_lookup in Hy. specialize (Hy _ _ Hk).
    split; [lia|]. intros Hlen. apply IH. lia.
Qed.

Lemma searchsorted_le_length (a : list Z) (v : Z) :
  searchsorted a v ≤ length a.
Proof. unfold searchsorted. apply length_filter. Qed.

(** The adjacent sites [x], [y] of the window: [x] at index [i] with
    [start ≤ x < end_]. *)
Lemma window_lookup (position : list Z) (start end_ : Z) i' x y :
  StronglySorted Z.lt position →
  let s := searchsorted position start in
  let e := searchsorted position end_ in
  let X := py_slice s (e + 1) position in
  (X !! i' = Some x ∧ X !! (i' + 1) = Some y)
  ↔ (position !! (s + i') = Some x ∧ position !! (s + i' + 1) = Some y
     ∧ (start ≤ x < end_)%Z).
Proof.
  intros Hs s e X. unfold X, py_slice.
  rewrite !lookup_take_Some, !lookup_drop.
  replace (s + (i' + 1)) with (s + i' + 1) by lia.
  split.
  - intros [[Hx _] [Hy Hlt]]. split; [done|]. split; [done|].
    pose proof (searchsorted_sorted position start _ _ Hs Hx) as H1.
    pose proof (searchsorted_sorted position end_ _ _ Hs Hx) as H2.
    fold s in H1. fold e in H2. lia.
  - intros (Hx & Hy & Hr).
    pose proof (searchsorted_sorted position start _ _ Hs Hx) as H1.
    pose proof (searchsorted_sorted position end_ _ _ Hs Hx) as H2.
    fold s in H1. fold e in H2. repeat split; try done; lia.
Qed.

(** X1: for integer site positions in increasing order, the snipped
    interval [real_start, real_end) starts right after a site in
    [start, end), ends at the next site, holds no site, and is the widest
    such gap: no two adjacent sites whose left one lies in [start, end) are
    further apart. *)
Theorem largest_gap_is_widest (position : list Z) (start end_ a b : Z) :
  StronglySorted Z.lt position →
  largest_gap position start end_ = Ok (a, b) →
  (∃ i, position !! i = Some (a - 1)%Z ∧ position !! (i + 1) = Some b)
  ∧ (start < a ≤ end_)%Z ∧ (a ≤ b)%Z
  ∧ (∀ p, p ∈ position → ¬ (a ≤ p < b)%Z)
  ∧ ∀ i x y, position !! i = Some x → position !! (i + 1) = Some y →
             (start ≤ x < end_)%Z → (y - x ≤ b - (a - 1))%Z.
Proof.
  intros Hs. unfold largest_gap.
  set (s := searchsorted position start).
  set (e := searchsorted position end_).
  set (X := py_slice s (e + 1) position).
  pose proof (argmax_spec (diffs X)) as Harg.
  destruct (argmax (diffs X)) as [j|err]; [|done]. cbn.
  destruct Harg as (m & Hm & Hmax & _).
  apply diffs_lookup in Hm as (x0 & y0 & Hx0 & Hy0 & ->).
  rewrite Hx0, Hy0. intros [= <- <-].
  pose proof (proj1 (window_lookup position start end_ j x0 y0 Hs)
                (conj Hx0 Hy0)) as (Px & Py & Hr).
  fold s in Px, Py.
  assert (x0 < y0)%Z as Hlt
    by (eapply (sorted_lookup_lt position (s + j) (s + j + 1)); eauto; lia).
  replace (x0 + 1 - 1)%Z with x0 by lia.
  split; [eauto|]. split; [lia|]. split; [lia|]. split.
  - intros p [k Hk]%list_elem_of_lookup Hp.
    destruct (decide (k ≤ s + j)) as [Hle|Hgt].
    + destruct (decide (k = s + j)) as [->|Hne]; [simplify_eq; lia|].
      assert (p < x0)%Z
        by (eapply (sorted_lookup_lt position k (s + j)); eauto; lia). lia.
    + destruct (decide (k = s + j + 1)) as [->|Hne]; [simplify_eq; lia|].
      assert (y0 < p)%Z
        by (eapply (sorted_lookup_lt position (s + j + 1) k); eauto; lia). lia.
  - intros i x y Hx Hy Hxr.
    pose proof (searchsorted_sorted position start _ _ Hs Hx) as H1.
    fold s in H1.
    assert (s ≤ i) as Hsi by lia.
    pose proof (proj2 (window_lookup position start end_ (i - s) x y Hs)) as Hw.
    cbn zeta in Hw. fold s e X in Hw.
    replace (s + (i - s)) with i in Hw by lia.
    destruct (Hw (conj Hx (conj Hy Hxr))) as [Wx Wy].
    assert (diffs X !! (i - s) = Some (y - x)%Z) as Hd
      by (apply diffs_lookup; eauto).
    rewrite Forall_lookup in Hmax. apply (Hmax _ _ Hd).
Qed.

Lemma largest_gap_is_widest_witness :
  StronglySorted Z.lt [10; 20; 300; 310]%Z
  ∧ largest_gap [10; 20; 300; 310]%Z 15 250 = Ok (21, 300)%Z
  ∧ (∀ p, p ∈ [10; 20; 300; 310]%Z → ¬ (21 ≤ p < 300)%Z).
Proof.
  assert (StronglySorted Z.lt [10; 20; 300; 310]%Z) as Hs
    by (repeat constructor; lia).
  split; [exact Hs|]. split; [reflexivity|].
  exact (proj1 (proj2 (proj2 (proj2
    (largest_gap_is_widest [10; 20; 300; 310]%Z 15 250 21 300 Hs eq_refl))))).
Defined.

(** X2: for integer site positions in increasing order, the gap is found
    exactly when two adjacent sites exist whose left one lies in
    [start, end); otherwise numpy's argmax of an empty array raises
    ValueError. *)
Theorem largest_gap_needs_two_sites (position : list Z) (start end_ : Z) :
  StronglySorted Z.lt position →
  ((∃ i x y, position !! i = Some x ∧ position !! (i + 1) = Some y
             ∧ (start ≤ x < end_)%Z)
   → ∃ a b, largest_gap position start end_ = Ok (a, b))
  ∧ ((∀ i x y, position !! i = Some x → position !! (i + 1) = Some y →
               ¬ (start ≤ x < end_)%Z)
     → largest_gap position start end_ = Raise ValueError).
Proof.
  intros Hs. unfold largest_gap.
  set (s := searchsorted position start).
  set (e := searchsorted position end_).
  set (X := py_slice s (e + 1) position).
  pose proof (argmax_spec (diffs X)) as Harg.
  split.
  - intros (i & x & y & Hx & Hy & Hr).
    pose proof (searchsorted_sorted position start _ _ Hs Hx) as H1.
    fold s in H1. assert (s ≤ i) as Hsi by lia.
    pose proof (proj2 (window_lookup position start end_ (i - s) x y Hs)) as Hw.
    cbn zeta in Hw. fold s e X in Hw.
    replace (s + (i - s)) with i in Hw by lia.
    destruct (Hw (conj Hx (conj Hy Hr))) as [Wx Wy].
    assert (diffs X !! (i - s) = Some (y - x)%Z) as Hd
      by (apply diffs_lookup; eauto).
    destruct (argmax (diffs X)) as [j|err].
    + destruct Harg as (m & Hm & _).
      apply diffs_lookup in Hm as (x0 & y0 & Hx0 & Hy0 & _).
      cbn. rewrite Hx0, Hy0. eauto.
    + destruct Harg as [Hnil _]. by rewrite Hnil in Hd.
  - intros Hno. destruct (argmax (diffs X)) as [j|err].
    + exfalso. destruct Harg as (m & Hm & _).
      apply diffs_lookup in Hm as (x0 & y0 & Hx0 & Hy0 & _).
      pose proof (proj1 (window_lookup position start end_ j x0 y0 Hs)
                    (conj Hx0 Hy0)) as (Px & Py & Hr).
      by apply (Hno _ _ _ Px Py).
    + by destruct Harg as [_ ->].
Qed.

Lemma largest_gap_needs_two_sites_witness :
  StronglySorted Z.lt [10; 20; 300]%Z
  ∧ (∃ a b, largest_gap [10; 20; 300]%Z 15 250 = Ok (a, b))
  ∧ largest_gap [10; 20; 300]%Z 400 500 = Raise ValueError.
Proof.
  assert (StronglySorted Z.lt [10; 20; 300]%Z) as Hs
    by (repeat constructor; lia).
  split; [exact Hs|]. split.
  - apply (proj1 (largest_gap_needs_two_sites [10; 20; 300]%Z 15 250 Hs)).
    exists 1, 20%Z, 300%Z. repeat split; reflexivity || lia.
  - reflexivity.
Defined.

Section snip_rows_facts.
Variable py_int : string → option Z.

Lemma find_centromere_skip chrom (row : gmap string pyval) rows v :
  row !! "chrom" = Some v → v ≠ PyStr chrom →
  find_centromere py_int chrom (row :: rows) = find_centromere py_int chrom rows.
Proof.
  intros Hv Hne. cbn [find_centromere]. unfold getitem. rewrite Hv.
  cbn [mbind result_bind]. by rewrite decide_False.
Qed.

Lemma find_centromere_match chrom (row : gmap string pyval) rows :
  row !! "chrom" = Some (PyStr chrom) →
  find_centromere py_int chrom (row :: rows)
  = (s ← getitem row "start"; start ← int_of py_int s;
     e ← getitem row "end"; end_ ← int_of py_int e; Ok (start, end_)).
Proof.
  intros Hrow. cbn [find_centromere]. unfold getitem. rewrite Hrow.
  cbn [mbind result_bind]. by rewrite decide_True.
Qed.

(** X3: the first row of the centromeres file whose chrom field is the
    chromosome decides alone: the rows after it are not read, and when its
    start and end fields are integers they are the window. *)
Theorem find_centromere_first_match chrom
    (pre : list (gmap string pyval)) row post :
  Forall (λ r : gmap string pyval,
            ∃ v, r !! "chrom" = Some v ∧ v ≠ PyStr chrom) pre →
  row !! "chrom" = Some (PyStr chrom) →
  find_centromere py_int chrom (pre ++ row :: post)
  = find_centromere py_int chrom [row]
  ∧ ∀ s e start end_,
      row !! "start" = Some (PyStr s) → py_int s = Some start →
      row !! "end" = Some (PyStr e) → py_int e = Some end_ →
      find_centromere py_int chrom (pre ++ row :: post) = Ok (start, end_).
Proof.
  intros Hpre Hrow.
  assert (find_centromere py_int chrom (pre ++ row :: post)
          = find_centromere py_int chrom [row]) as Heq.
  { induction Hpre as [|r pre (v & Hv & Hne) _ IH]; cbn [app].
    - by rewrite !find_centromere_match.
    - by rewrite (find_centromere_skip _ _ _ _ Hv Hne). }
  split; [done|]. intros s e start end_ Hs Hps He Hpe.
  rewrite Heq, find_centromere_match by done.
  unfold getitem. rewrite Hs, He. cbn. by rewrite Hps, Hpe.
Qed.

(** X4: a row without a chrom field that is read before any matching row
    ends the search with KeyError. *)
Theorem find_centromere_missing_column chrom
    (pre : list (gmap string pyval)) row post :
  Forall (λ r : gmap string pyval,
            ∃ v, r !! "chrom" = Some v ∧ v ≠ PyStr chrom) pre →
  row !! "chrom" = None →
  find_centromere py_int chrom (pre ++ row :: post) = Raise KeyError.
Proof.
  intros Hpre Hrow. induction Hpre as [|r pre (v & Hv & Hne) _ IH]; cbn [app].
  - cbn [find_centromere]. unfold getitem. by rewrite Hrow.
  - by rewrite (find_centromere_skip _ _ _ _ Hv Hne).
Qed.

End snip_rows_facts.

Lemma find_centromere_first_match_witness :
  let r1 : gmap string pyval :=
    {["chrom" := PyStr "chr1"; "start" := PyStr "100"; "end" := PyStr "200"]} in
  let r2 : gmap string pyval :=
    {["chrom" := PyStr "chr2"; "start" := PyStr "150"; "end" := PyStr "250"]} in
  let r3 : gmap string pyval :=
    {["chrom" := PyStr "chr2"; "start" := PyStr "x"; "end" := PyNone]} in
  let py_int := λ s : string, if decide (s = "150") then Some 150%Z
                              else if decide (s = "250") then Some 250%Z
                              else None in
  find_centromere py_int "chr2" [r1; r2; r3] = Ok (150, 250)%Z.
Proof.
  intros r1 r2 r3 py_int.
  refine (proj2 (find_centromere_first_match py_int "chr2" [r1] r2 [r3] _ _)
            "150" "250" 150%Z 250%Z _ _ _ _); try reflexivity.
  repeat constructor. exists (PyStr "chr1"). split; [reflexivity|discriminate].
Defined.

Lemma find_centromere_missing_column_witness :
  let r1 : gmap string pyval :=
    {["chrom" := PyStr "chr1"; "start" := PyStr "100"; "end" := PyStr "200"]} in
  let r2 : gmap string pyval :=
    {["chromosome" := PyStr "chr2"; "start" := PyStr "150"]} in
  find_centromere (λ _, None) "chr2" [r1; r2] = Raise KeyError.
Proof.
  intros r1 r2.
  refine (find_centromere_missing_column (λ _, None) "chr2" [r1] r2 [] _ _);
    [|reflexivity].
  repeat constructor. exists (PyStr "chr1"). split; [reflexivity|discriminate].
Defined.

(** ** sequential-augment: the samples of the rounds *)

Lemma pow2_succ (k : nat) : 2 ^ (S k + 1) = 2 ^ (k + 1) * 2.
Proof. rewrite !Nat.add_1_r. simpl. lia. Qed.

Lemma total_required_rounds (fuel k total num_samples t : nat) :
  total_required fuel (2 ^ (k + 1)) total num_samples = Some t →
  total + 2 = 2 ^ (k + 1) →
  (k = 0 ∨ 2 ^ k < Nat.div num_samples 4) →
  ∃ r, k ≤ r ∧ t + 2 = 2 ^ (r + 1)
       ∧ (r = 0 ∨ 2 ^ r < Nat.div num_samples 4)
       ∧ Nat.div num_samples 4 ≤ 2 ^ (r + 1).
Proof.
  revert k total. induction fuel as [|fuel IH]; intros k total; [done|].
  cbn [total_required]. case_decide as Hn.
  - intros Ht Htot Hk. rewrite <- pow2_succ in Ht.
    destruct (IH (S k) _ Ht) as (r & Hr & Hrest).
    + rewrite pow2_succ. lia.
    + right. by rewrite <- (Nat.add_1_r k).
    + exists r. split; [lia|done].
  - intros [= <-] Htot Hk. exists k. repeat split; try done. lia.
Qed.

(** X5: the first loop adds up the round sizes 2, 4, ..., 2^r below a
    quarter of the sample count, so the rounds never need more than half of
    the samples: drawing them without replacement is always possible. *)
Theorem sequential_augment_total (fuel num_samples total : nat) :
  total_required fuel 2 0 num_samples = Some total →
  2 * total ≤ num_samples
  ∧ ∃ r, total = 2 ^ (r + 1) - 2
         ∧ (r = 0 ∨ 2 ^ r < Nat.div num_samples 4)
         ∧ Nat.div num_samples 4 ≤ 2 ^ (r + 1).
Proof.
  intros Ht.
  destruct (total_required_rounds fuel 0 0 num_samples total Ht)
    as (r & _ & Htot & Hr & Hq); [done|by left|].
  split; [|exists r; repeat split; try done; lia].
  pose proof (Nat.Div0.mul_div_le num_samples 4) as Hdiv.
  destruct Hr as [->|Hr]; [cbn in Htot; lia|].
  rewrite Nat.add_1_r, Nat.pow_succ_r' in Htot. lia.
Qed.

Lemma sequential_augment_total_witness :
  total_required 100 2 0 50 = Some 14 ∧ 2 * 14 ≤ 50.
Proof.
  split; [reflexivity|].
  exact (proj1 (sequential_augment_total 100 50 14 eq_refl)).
Defined.




Section sequential_augment_rounds.
Variable choice : Z → nat → nat → list nat.


End sequential_augment_rounds.


(** ** The base name of the input of sequential-augment *)

Lemma py_split_nonempty c s : py_split c s ≠ [].
Proof.
  induction s as [|a s IH]; [done|]. cbn.
  case_decide; [done|]. by destruct (py_split c s).
Qed.

Lemma string_app_assoc (s1 s2 s3 : string) :
  (s1 +:+ s2) +:+ s3 = s1 +:+ s2 +:+ s3.
Proof.
  induction s1 as [|a s1 IH]; [reflexivity|].
  change (String a ((s1 +:+ s2) +:+ s3) = String a (s1 +:+ s2 +:+ s3)).
  by rewrite IH.
Qed.

Lemma py_join_cons sep h x t :
  py_join sep (h :: x :: t) = h +:+ sep +:+ py_join sep (x :: t).
Proof.
  unfold py_join. cbn [fold_left]. revert h x.
  induction t as [|y t IH]; intros h x; [done|].
  cbn [fold_left]. rewrite IH, (IH x y). by rewrite !string_app_assoc.
Qed.

Lemma py_join_String sep a h t :
  py_join sep (String a h :: t) = String a (py_join sep (h :: t)).
Proof. destruct t as [|x t]; [done|]. by rewrite !py_join_cons. Qed.

Lemma py_join_split c s :
  py_join (String c "") (py_split c s) = s.
Proof.
  induction s as [|a s IH]; [done|]. cbn [py_split].
  pose proof (py_split_nonempty c s) as Hne.
  case_decide as Ha.
  - subst a. destruct (py_split c s) as [|h t]; [done|].
    by rewrite py_join_cons, IH.
  - destruct (py_split c s) as [|h t]; [done|].
    by rewrite py_join_String, IH.
Qed.

Lemma py_split_app c b e :
  py_split c (b +:+ String c e) = py_split c b ++ py_split c e.
Proof.
  induction b as [|a b IH].
  - change ("" +:+ String c e) with (String c e). cbn.
    by rewrite decide_True.
  - change (String a b +:+ String c e) with (String a (b +:+ String c e)).
    cbn [py_split]. rewrite IH. case_decide; [done|].
    pose proof (py_split_nonempty c b).
    by destruct (py_split c b).
Qed.

Lemma py_split_no_separator c s :
  c ∉ String.list_ascii_of_string s → py_split c s = [s].
Proof.
  induction s as [|a s IH]; [done|]. cbn. intros Hc.
  rewrite decide_False by (intros ->; apply Hc; left).
  rewrite IH; [done|]. intros ?. apply Hc. by right.
Qed.

(** X7: the base name is the input path without its last extension: for
    [b.ext] with no dot in [ext] it is [b], whatever dots [b] has; a path
    without a dot has the empty base name. *)
Theorem sequential_augment_base_name (b ext : string) :
  "."%char ∉ String.list_ascii_of_string ext →
  py_join "." (all_but_last (py_split "."%char (b +:+ "." +:+ ext))) = b
  ∧ py_join "." (all_but_last (py_split "."%char ext)) = "".
Proof.
  intros Hext. unfold all_but_last. split.
  - change (b +:+ "." +:+ ext) with (b +:+ String "."%char ext).
    rewrite py_split_app, (py_split_no_separator _ ext Hext).
    rewrite length_app, Nat.add_sub. cbn [length].
    rewrite take_app_length. apply py_join_split.
  - by rewrite (py_split_no_separator _ ext Hext).
Qed.

Lemma sequential_augment_base_name_witness :
  ("."%char ∉ String.list_ascii_of_string "samples")
  ∧ py_join "." (all_but_last (py_split "."%char "data/ukbb.chr20.samples"))
    = "data/ukbb.chr20".
Proof.
  assert ("."%char ∉ String.list_ascii_of_string "samples") as H
    by (apply (bool_decide_unpack _); by vm_compute).
  split; [exact H|].
  exact (proj1 (sequential_augment_base_name "data/ukbb.chr20" "samples" H)).
Defined.

(** ** Loading: the sequence length of the output *)

Lemma load_equal_from (len : Z) (total : nat) files acc :
  len ≠ 0%Z →
  foldM load_step (Some len, total) files = Ok acc →
  acc.1 = Some len ∧ Forall (λ sd, sequence_length sd = len) files.
Proof.
  intros Hlen. revert total. induction files as [|sd files IH]; intros total.
  - cbn. by intros [= <-].
  - cbn [foldM]. rewrite load_step_truthy by done.
    case_bool_decide as Hsd; [|done]. cbn [mbind result_bind].
    intros [H1 H2]%IH. split; [done|]. by constructor.
Qed.

Lemma run_merge_events output files tr out :
  run_merge_sampledata output files = (tr, Ok out) →
  ∃ seq_len total pops id_map inds rows,
    load_sampledata_files files = Ok (seq_len, total)
    ∧ tr = [CreateSampleData output]
    ∧ add_populations (λ _ name, {["name" := name]}) files = Ok (pops, id_map)
    ∧ add_individuals false id_map files = Ok inds
    ∧ merge_rows total files = Ok rows
    ∧ out = {| out_path := output; out_sequence_length := seq_len;
               out_populations := pops; out_individuals := inds;
               out_sites := rows |}.
Proof.
  unfold run_merge_sampledata.
  destruct (load_sampledata_files files) as [[seq_len total]|]; [|done].
  intros [= <- H]. inv_bind H. destruct a as [pops id_map].
  inv_bind H. inv_bind H. inv_bind H.
  match goal with H : foldM add_site [] _ = Ok _ |- _ =>
    apply add_sites_Ok in H as [-> _] end.
  simplify_eq. by eexists _, _, _, _, _, _.
Qed.

Lemma run_combine_events output files tr out :
  run_combine_sampledata output files = (tr, Ok out) →
  ∃ seq_len total pops id_map inds rows,
    load_sampledata_files files = Ok (seq_len, total)
    ∧ tr = [CreateSampleData output]
    ∧ add_populations (λ pop _, pop) files = Ok (pops, id_map)
    ∧ add_individuals true id_map files = Ok inds
    ∧ combine_rows total files = Ok rows
    ∧ out = {| out_path := output; out_sequence_length := seq_len;
               out_populations := pops; out_individuals := inds;
               out_sites := rows |}.
Proof.
  unfold run_combine_sampledata.
  destruct (load_sampledata_files files) as [[seq_len total]|]; [|done].
  intros [= <- H]. inv_bind H. destruct a as [pops id_map].
  inv_bind H. inv_bind H. inv_bind H.
  match goal with H : foldM add_site [] _ = Ok _ |- _ =>
    apply add_sites_Ok in H as [-> _] end.
  simplify_eq. by eexists _, _, _, _, _, _.
Qed.

(** X8: a run of either handler that completes over files whose first has a
    non-zero sequence length had files of that one sequence length; the
    output container is created once, under the output path, with that
    sequence length. *)
Theorem completed_run_sequence_length output first rest :
  sequence_length first ≠ 0%Z →
  (∀ tr out,
     run_merge_sampledata output (first :: rest) = (tr, Ok out) →
     tr = [CreateSampleData output] ∧ out_path out = output
     ∧ out_sequence_length out = Some (sequence_length first)
     ∧ Forall (λ sd, sequence_length sd = sequence_length first) rest)
  ∧ (∀ tr out,
     run_combine_sampledata output (first :: rest) = (tr, Ok out) →
     tr = [CreateSampleData output] ∧ out_path out = output
     ∧ out_sequence_length out = Some (sequence_length first)
     ∧ Forall (λ sd, sequence_length sd = sequence_length first) rest).
Proof.
  intros Hlen.
  assert (∀ seq_len total,
            load_sampledata_files (first :: rest) = Ok (seq_len, total) →
            seq_len = Some (sequence_length first)
            ∧ Forall (λ sd, sequence_length sd = sequence_length first) rest)
    as Hload.
  { intros seq_len total. unfold load_sampledata_files. cbn.
    apply (load_equal_from _ _ _ (seq_len, total) Hlen). }
  split; intros tr out Hrun.
  - apply run_merge_events in Hrun
      as (seq_len & total & pops & id_map & inds & rows & Hl & -> & _ & _ & _ & ->).
    destruct (Hload _ _ Hl) as [-> Hall]. done.
  - apply run_combine_events in Hrun
      as (seq_len & total & pops & id_map & inds & rows & Hl & -> & _ & _ & _ & ->).
    destruct (Hload _ _ Hl) as [-> Hall]. done.
Qed.

Lemma completed_run_sequence_length_witness :
  sequence_length example_file_a ≠ 0%Z
  ∧ ∃ tr out,
      run_merge_sampledata "out.samples" [example_file_a; example_file_d]
      = (tr, Ok out)
      ∧ tr = [CreateSampleData "out.samples"]
      ∧ out_sequence_length out = Some 10%Z.
Proof.
  assert (sequence_length example_file_a ≠ 0%Z) as Hlen by discriminate.
  split; [exact Hlen|].
  destruct (run_merge_sampledata "out.samples" [example_file_a; example_file_d])
    as [tr [out|e]] eqn:Hrun; [|by vm_compute in Hrun].
  exists tr, out. split; [done|].
  destruct (proj1 (completed_run_sequence_length "out.samples" example_file_a
                     [example_file_d] Hlen) tr out Hrun) as (H1 & _ & H2 & _).
  done.
Defined.

(** ** The populations and the individuals of the output *)

Lemma add_population_step_eq mk pops id_map (pop : gmap string string) :
  add_population_step mk (pops, id_map) pop
  = match pop !! "name" with
    | Some name => Ok (pops ++ [mk pop name], <[name := length pops]> id_map)
    | None => Raise KeyError
    end.
Proof.
  unfold add_population_step, pop_name. by destruct (pop !! "name").
Qed.

Lemma add_population_steps mk pops id_map todo pops' id_map' :
  (∀ (pop : gmap string string) name,
     pop !! "name" = Some name → mk pop name !! "name" = Some name) →
  foldM (add_population_step mk) (pops, id_map) todo = Ok (pops', id_map') →
  (∀ name i, id_map !! name = Some i →
     (∃ p, pops !! i = Some p ∧ p !! "name" = Some name)
     ∧ ∀ k p, i < k → pops !! k = Some p → p !! "name" ≠ Some name) →
  (∃ new, pops' = pops ++ new
          ∧ Forall2 (λ pop p, ∃ name, pop !! "name" = Some name
                                      ∧ p = mk pop name) todo new)
  ∧ (∀ name i, id_map' !! name = Some i →
       (∃ p, pops' !! i = Some p ∧ p !! "name" = Some name)
       ∧ ∀ k p, i < k → pops' !! k = Some p → p !! "name" ≠ Some name).
Proof.
  intros Hmk. revert pops id_map.
  induction todo as [|pop todo IH]; intros pops id_map.
  - cbn. intros [= <- <-] Hinv. split; [|exact Hinv].
    exists []. rewrite app_nil_r. split; [done|constructor].
  - cbn [foldM]. rewrite add_population_step_eq.
    destruct (pop !! "name") as [name|] eqn:Hname; [|by cbn].
    cbn [mbind result_bind]. intros Hrun Hinv.
    destruct (IH _ _ Hrun) as ((new & -> & H2) & Hmap).
    + intros name' i. destruct (decide (name' = name)) as [->|Hne].
      * rewrite lookup_insert_eq. intros [= <-]. split.
        -- exists (mk pop name).
           rewrite lookup_app_r, Nat.sub_diag by done. eauto.
        -- intros k p Hk Hp. apply lookup_lt_Some in Hp.
           rewrite length_app in Hp. cbn in Hp. lia.
      * rewrite lookup_insert_ne by done. intros Hi.
        destruct (Hinv _ _ Hi) as [(p & Hp & Hpn) Hlast]. split.
        -- exists p. by rewrite lookup_app_l by (by eapply lookup_lt_Some).
        -- intros k p' Hk Hp'.
           destruct (decide (k < length pops)) as [Hlt|Hge].
           ++ rewrite lookup_app_l in Hp' by done. by eapply Hlast.
           ++ rewrite lookup_app_r in Hp' by lia.
              destruct (k - length pops) as [|n]; [|by destruct n].
              cbn in Hp'. simplify_eq. rewrite (Hmk _ _ Hname). congruence.
    + split; [|done]. exists (mk pop name :: new).
      rewrite <- (assoc_L (++)). split; [done|]. constructor; eauto.
Qed.

Lemma add_populations_spec mk files pops id_map :
  (∀ (pop : gmap string string) name,
     pop !! "name" = Some name → mk pop name !! "name" = Some name) →
  add_populations mk files = Ok (pops, id_map) →
  Forall2 (λ pop p, ∃ name, pop !! "name" = Some name ∧ p = mk pop name)
          (input_populations files) pops
  ∧ (∀ name i, id_map !! name = Some i →
       (∃ p, pops !! i = Some p ∧ p !! "name" = Some name)
       ∧ ∀ k p, i < k → pops !! k = Some p → p !! "name" ≠ Some name).
Proof.
  intros Hmk. unfold add_populations, input_populations.
  assert (∀ todo pops0 id_map0,
    foldM (λ acc sd, foldM (add_population_step mk) acc (populations_metadata sd))
          (pops0, id_map0) todo = Ok (pops, id_map) →
    (∀ name i, id_map0 !! name = Some i →
       (∃ p, pops0 !! i = Some p ∧ p !! "name" = Some name)
       ∧ ∀ k p, i < k → pops0 !! k = Some p → p !! "name" ≠ Some name) →
    (∃ new, pops = pops0 ++ new
            ∧ Forall2 (λ pop p, ∃ name, pop !! "name" = Some name
                                        ∧ p = mk pop name)
                      (concat (populations_metadata <$> todo)) new)
    ∧ (∀ name i, id_map !! name = Some i →
         (∃ p, pops !! i = Some p ∧ p !! "name" = Some name)
         ∧ ∀ k p, i < k → pops !! k = Some p → p !! "name" ≠ Some name)) as Hgen.
  { induction todo as [|sd todo IH]; intros pops0 id_map0.
    - cbn. intros [= <- <-] Hinv. split; [|exact Hinv].
      exists []. rewrite app_nil_r. split; [done|constructor].
    - cbn [foldM fmap list_fmap concat]. intros Hrun Hinv. inv_bind Hrun.
      destruct a as [pops1 id_map1].
      destruct (add_population_steps _ _ _ _ _ _ Hmk Ha Hinv)
        as ((new1 & -> & Hstep) & Hinv1).
      destruct (IH _ _ Hrun Hinv1) as ((new2 & -> & Hrest) & Hinv').
      split; [|done]. exists (new1 ++ new2).
      rewrite <- (assoc_L (++)). split; [done|]. by apply Forall2_app. }
  intros Hrun. destruct (Hgen files [] ∅ Hrun) as ((new & -> & H1) & H2); [done|].
  done.
Qed.

Lemma add_individuals_spec with_time id_map files inds :
  add_individuals with_time id_map files = Ok inds →
  Forall2 (λ (x : SampleData * nat * Individual)
             (y : gmap string string * nat * option float),
             y.1.1 = ind_metadata x.2
             ∧ y.2 = (if with_time then Some (ind_time x.2) else None)
             ∧ individual_population id_map x.1.1 x.1.2 = Ok y.1.2)
          (input_individuals files) inds.
Proof.
  unfold add_individuals, input_individuals.
  set (R := λ (x : SampleData * nat * Individual)
              (y : gmap string string * nat * option float),
              y.1.1 = ind_metadata x.2
              ∧ y.2 = (if with_time then Some (ind_time x.2) else None)
              ∧ individual_population id_map x.1.1 x.1.2 = Ok y.1.2).
  assert (∀ sd (todo : list (nat * Individual)) acc acc',
    foldM (λ acc '(id, ind),
             pid ← individual_population id_map sd id;
             Ok (acc ++ [(ind_metadata ind, pid,
                          if with_time then Some (ind_time ind) else None)]))
          acc todo = Ok acc' →
    ∃ new, acc' = acc ++ new
           ∧ Forall2 R ((λ x, (sd, x.1, x.2)) <$> todo) new) as Hinner.
  { intros sd. induction todo as [|[id ind] todo IH]; intros acc acc'.
    - cbn. intros [= <-]. exists []. by rewrite app_nil_r.
    - cbn [foldM]. intros Hrun. inv_bind Hrun. inv_bind Ha. simplify_eq.
      destruct (IH _ _ Hrun) as (new & -> & Hnew).
      eexists (_ :: new). rewrite <- (assoc_L (++)). split; [done|].
      cbn. constructor; [|done]. by repeat split. }
  assert (∀ todo acc acc',
    foldM (λ acc sd,
             foldM (λ acc '(id, ind),
                      pid ← individual_population id_map sd id;
                      Ok (acc ++ [(ind_metadata ind, pid,
                                   if with_time then Some (ind_time ind) else None)]))
                   acc (imap (λ id ind, (id, ind)) (individuals sd)))
          acc todo = Ok acc' →
    ∃ new, acc' = acc ++ new
           ∧ Forall2 R
               (concat ((λ sd, imap (λ id ind, (sd, id, ind)) (individuals sd))
                        <$> todo)) new) as Houter.
  { induction todo as [|sd todo IH]; intros acc acc'.
    - cbn. intros [= <-]. exists []. by rewrite app_nil_r.
    - cbn [foldM]. intros Hrun. inv_bind Hrun.
      destruct (Hinner _ _ _ _ Ha) as (new1 & -> & H1).
      destruct (IH _ _ Hrun) as (new2 & -> & H2).
      exists (new1 ++ new2). rewrite <- (assoc_L (++)). split; [done|].
      cbn [fmap list_fmap concat]. apply Forall2_app; [|done].
      rewrite fmap_imap in H1. unfold compose in H1. cbn in H1. done. }
  intros Hrun. destruct (Houter _ _ _ Hrun) as (new & -> & H). done.
Qed.

(** X9: neither handler merges populations by name: the output has one
    population for each population of each input file, in order;
    combine-sampledata copies the metadata, merge-sampledata keeps the name
    alone. *)
Theorem output_populations output files :
  (∀ tr out,
     run_merge_sampledata output files = (tr, Ok out) →
     Forall2 (λ pop p, ∃ name, pop !! "name" = Some name
                               ∧ p = {["name" := name]})
             (input_populations files) (out_populations out))
  ∧ (∀ tr out,
     run_combine_sampledata output files = (tr, Ok out) →
     out_populations out = input_populations files
     ∧ Forall (λ pop, is_Some (pop !! "name")) (input_populations files)).
Proof.
  split; intros tr out Hrun.
  - apply run_merge_events in Hrun
      as (seq_len & total & pops & id_map & inds & rows & _ & _ & Hp & _ & _ & ->).
    apply add_populations_spec in Hp as [Hp _]; [done|].
    intros pop name _. apply lookup_singleton_eq.
  - apply run_combine_events in Hrun
      as (seq_len & total & pops & id_map & inds & rows & _ & _ & Hp & _ & _ & ->).
    apply add_populations_spec in Hp as [Hp _]; [|done]. cbn.
    split.
    + symmetry. apply list_eq_Forall2.
      eapply Forall2_impl; [exact Hp|]. by intros pop p (name & _ & ->).
    + eapply Forall2_Forall_l; [exact Hp|]. apply Forall_true.
      intros p pop (name & Hn & _). eauto.
Qed.

(** X10: the output has the individuals of the input files in order, with
    their metadata (combine-sampledata keeps their time, merge-sampledata
    does not pass it on). Each is given a population of the output that
    bears the name of its own population, and of these the last one added:
    when a name occurs in several files, all its individuals are assigned
    to the population of the last of these files. *)
Theorem output_individuals output files :
  let assigned (with_time : bool) (out : Output) :=
    Forall2 (λ (x : SampleData * nat * Individual)
               (y : gmap string string * nat * option float),
               y.1.1 = ind_metadata x.2
               ∧ y.2 = (if with_time then Some (ind_time x.2) else None)
               ∧ ∃ pop name p,
                   own_population x.1.1 x.1.2 = Ok pop
                   ∧ pop !! "name" = Some name
                   ∧ out_populations out !! y.1.2 = Some p
                   ∧ p !! "name" = Some name
                   ∧ ∀ k p', y.1.2 < k → out_populations out !! k = Some p' →
                             p' !! "name" ≠ Some name)
            (input_individuals files) (out_individuals out) in
  (∀ tr out, run_merge_sampledata output files = (tr, Ok out) →
             assigned false out)
  ∧ (∀ tr out, run_combine_sampledata output files = (tr, Ok out) →
               assigned true out).
Proof.
  assert (∀ with_time mk pops id_map inds,
    (∀ (pop : gmap string string) name,
       pop !! "name" = Some name → mk pop name !! "name" = Some name) →
    add_populations mk files = Ok (pops, id_map) →
    add_individuals with_time id_map files = Ok inds →
    Forall2 (λ (x : SampleData * nat * Individual)
               (y : gmap string string * nat * option float),
               y.1.1 = ind_metadata x.2
               ∧ y.2 = (if with_time then Some (ind_time x.2) else None)
               ∧ ∃ pop name p,
                   own_population x.1.1 x.1.2 = Ok pop
                   ∧ pop !! "name" = Some name
                   ∧ pops !! y.1.2 = Some p
                   ∧ p !! "name" = Some name
                   ∧ ∀ k p', y.1.2 < k → pops !! k = Some p' →
                             p' !! "name" ≠ Some name)
            (input_individuals files) inds) as Hgen.
  { intros with_time mk pops id_map inds Hmk Hp Hi.
    apply add_populations_spec in Hp as [_ Hmap]; [|done].
    apply add_individuals_spec in Hi.
    eapply Forall2_impl; [exact Hi|]. intros x y (Hmd & Ht & Hpid).
    split; [done|]. split; [done|].
    unfold individual_population in Hpid. inv_bind Hpid. inv_bind Hpid.
    inv_bind Hpid. rename a into q, a0 into pop, a1 into name.
    unfold pop_name in Ha1.
    destruct (pop !! "name") as [n|] eqn:Hname; [|done]. simplify_eq.
    destruct (id_map !! name) as [pid|] eqn:Hid; [|done]. simplify_eq.
    destruct (Hmap _ _ Hid) as [(p & Hpl & Hpn) Hlast].
    exists pop, name, p. unfold own_population. rewrite Ha. cbn.
    by repeat split. }
  cbn zeta. split; intros tr out Hrun.
  - apply run_merge_events in Hrun
      as (seq_len & total & pops & id_map & inds & rows & _ & _ & Hp & Hi & _ & ->).
    apply (Hgen _ _ _ _ _ (λ _ name _, lookup_singleton_eq _ _) Hp Hi).
  - apply run_combine_events in Hrun
      as (seq_len & total & pops & id_map & inds & rows & _ & _ & Hp & Hi & _ & ->).
    apply (Hgen _ _ _ _ _ (λ _ _ H, H) Hp Hi).
Qed.

Lemma output_populations_witness :
  ∃ tr out,
    run_merge_sampledata "out.samples" [example_file_e; example_file_f]
    = (tr, Ok out)
    ∧ Forall2 (λ pop p, ∃ name, pop !! "name" = Some name
                                ∧ p = {["name" := name]})
              (input_populations [example_file_e; example_file_f])
              (out_populations out)
    ∧ length (out_populations out) = 3.
Proof.
  destruct (run_merge_sampledata "out.samples" [example_file_e; example_file_f])
    as [tr [out|e]] eqn:Hrun; [|by vm_compute in Hrun].
  exists tr, out. split; [done|].
  pose proof (proj1 (output_populations "out.samples"
                       [example_file_e; example_file_f]) tr out Hrun) as H.
  split; [exact H|]. by rewrite <- (Forall2_length _ _ _ H).
Defined.

Lemma output_individuals_witness :
  ∃ tr out,
    run_combine_sampledata "out.samples" [example_file_e; example_file_f]
    = (tr, Ok out)
    ∧ (snd <$> out_individuals out = [Some 0%float; Some 1%float])
    ∧ Forall2 (λ (x : SampleData * nat * Individual)
                 (y : gmap string string * nat * option float),
                 ∃ pop name p,
                   own_population x.1.1 x.1.2 = Ok pop
                   ∧ pop !! "name" = Some name
                   ∧ out_populations out !! y.1.2 = Some p
                   ∧ p !! "name" = Some name)
              (input_individuals [example_file_e; example_file_f])
              (out_individuals out).
Proof.
  destruct (run_combine_sampledata "out.samples" [example_file_e; example_file_f])
    as [tr [out|e]] eqn:Hrun; [|by vm_compute in Hrun].
  exists tr, out. split; [done|].
  split; [by vm_compute in Hrun; simplify_eq|].
  pose proof (proj2 (output_individuals "out.samples"
                       [example_file_e; example_file_f]) tr out Hrun) as H.
  eapply Forall2_impl; [exact H|].
  intros x y (_ & _ & pop & name & p & H1 & H2 & H3 & H4 & _). eauto 10.
Defined.










(** ** merge-sampledata: the rows of the output *)

Lemma mapM_Forall2 {A B} (f : A → result B) l l' :
  mapM f l = Ok l' → Forall2 (λ a b, f a = Ok b) l l'.
Proof.
  revert l'. induction l as [|a l IH]; intros l'; cbn.
  - intros [= <-]. constructor.
  - intros H. inv_bind H. inv_bind H. simplify_eq. constructor; auto.
Qed.

Lemma mapM_total {A B} (f : A → result B) l :
  Forall (λ a, ∃ b, f a = Ok b) l → ∃ l', mapM f l = Ok l'.
Proof.
  induction 1 as [|a l [b Hb] _ [l' IH]]; cbn; [by eexists|].
  rewrite Hb, IH. by eexists.
Qed.

Lemma fst_zip_take {A B} (l : list A) (k : list B) :
  (zip l k).*1 = take (length k) l.
Proof.
  revert k. induction l as [|a l IH]; intros [|b k]; cbn; try done.
  by rewrite IH.
Qed.

Lemma StronglySorted_take {A} (R : relation A) (l : list A) n :
  StronglySorted R l → StronglySorted R (take n l).
Proof.
  intros Hs. revert n. induction Hs as [|a l Hs IH Ha]; intros [|n]; cbn;
    try constructor; [apply IH|by apply Forall_take].
Qed.

Lemma elem_of_take {A} (l : list A) n x : x ∈ take n l → x ∈ l.
Proof.
  intros [i Hi]%list_elem_of_lookup. apply lookup_take_Some in Hi as [Hi _].
  by eapply list_elem_of_lookup_2.
Qed.

(** The rows of a completed run, against the arrays they are zipped from. *)
Lemma run_merge_rows output first rest tr out :
  run_merge_sampledata output (first :: rest) = (tr, Ok out) →
  let mp := np_sort_set (positions_intersection first rest) in
  let sel := select_sites mp first in
  ∃ total deriv biallelic cur genos md,
    foldM (merge_alleles_step (unicode_width (derived_or_empty <$> sel)) mp
             ((λ s, ancestral (alleles s)) <$> sel))
          (derived_or_empty <$> sel, replicate (length mp) true) rest
    = Ok (deriv, biallelic)
    ∧ foldM (merge_block_step (mask_select biallelic mp))
            (0, full (length (mask_select biallelic mp)) total MISSING_DATA,
             full (length (mask_select biallelic mp))
                  (length (first :: rest)) ∅)
            (imap pair (first :: rest))
      = Ok (cur, genos, md)
    ∧ Forall2 (λ a row, merge_site_row a = Ok row)
        (zip (mask_select biallelic mp)
           (zip genos (zip ((λ s, ancestral (alleles s)) <$> sel)
              (zip deriv md))))
        (out_sites out).
Proof.
  intros Hrun mp sel.
  destruct (run_merge_inv _ _ _ _ Hrun) as (seq_len & total & _ & Hsites).
  destruct (merge_sites_inv _ _ _ _ Hsites)
    as (deriv & biallelic & cur & genos & md & Hal & Hbl & Hrows).
  exists total, deriv, biallelic, cur, genos, md.
  split; [done|]. split; [done|]. by apply mapM_Forall2.
Qed.

Lemma merge_site_row_Ok a row :
  merge_site_row a = Ok row →
  row_position row = a.1 ∧ row_genotypes row = a.2.1
  ∧ row_alleles row = [Some a.2.2.1; Some a.2.2.2.1]
  ∧ head a.2.2.2.2 = Some (row_metadata row).
Proof.
  destruct a as [pos [genos [anc [deriv md]]]]. unfold merge_site_row.
  intros H. inv_bind H. simplify_eq. cbn.
  repeat split. destruct md; cbn in *; by simplify_eq.
Qed.

(** X13: the sites of the output of merge-sampledata come in strictly
    increasing position, and each position is one that every input file
    has. *)
Theorem merge_rows_positions output first rest tr out :
  run_merge_sampledata output (first :: rest) = (tr, Ok out) →
  StronglySorted Z.lt (row_position <$> out_sites out)
  ∧ ∀ row sd, row ∈ out_sites out → sd ∈ first :: rest →
              row_position row ∈ sites_position sd.
Proof.
  intros Hrun.
  destruct (run_merge_rows _ _ _ _ _ Hrun)
    as (total & deriv & biallelic & cur & genos & md & _ & _ & Hrows).
  set (mp := np_sort_set (positions_intersection first rest)) in *.
  destruct (mask_select_sorted biallelic mp (np_sort_set_sorted _))
    as [Hsorted Hin].
  assert (∃ n, row_position <$> out_sites out
               = take n (mask_select biallelic mp)) as [n Hpos].
  { match type of Hrows with
    | Forall2 _ (zip _ ?k) _ => exists (length k); rewrite <- fst_zip_take
    end.
    apply list_eq_Forall2, Forall2_fmap.
    eapply Forall2_flip, Forall2_impl; [exact Hrows|].
    by intros a row (-> & _)%merge_site_row_Ok. }
  split.
  - rewrite Hpos. by apply StronglySorted_take.
  - intros row sd Hrow Hsd.
    apply (intersection_in_file first rest); [done|]. apply Hin.
    apply (elem_of_take _ n). rewrite <- Hpos.
    by apply list_elem_of_fmap_2.
Qed.

Lemma merge_rows_positions_witness :
  ∃ tr out,
    run_merge_sampledata "out.samples" [example_file_a; example_file_b]
    = (tr, Ok out)
    ∧ StronglySorted Z.lt (row_position <$> out_sites out)
    ∧ row_position <$> out_sites out = [5%Z].
Proof.
  destruct (run_merge_sampledata "out.samples" [example_file_a; example_file_b])
    as [tr [out|e]] eqn:Hrun; [|by vm_compute in Hrun].
  exists tr, out. split; [done|].
  split; [exact (proj1 (merge_rows_positions _ _ _ _ _ Hrun))|].
  vm_compute in Hrun. by simplify_eq.
Defined.



Lemma aligned_fmap {B} (f : Site → B) (l1 l2 : list Site) :
  position <$> l1 = position <$> l2 →
  (∀ s s', s ∈ l1 → s' ∈ l2 → position s = position s' → f s = f s') →
  f <$> l1 = f <$> l2.
Proof.
  revert l2. induction l1 as [|s l1 IH]; intros [|s' l2]; cbn; try done.
  intros [= Hp Hrest] Hf. f_equal.
  - apply Hf; [left|left|done].
  - apply IH; [done|]. intros ????. apply Hf; by right.
Qed.

Lemma merge_positions_of_file first rest sd :
  Forall wf_sampledata (first :: rest) → sd ∈ first :: rest →
  position
    <$> select_sites (np_sort_set (positions_intersection first rest)) sd
  = np_sort_set (positions_intersection first rest).
Proof.
  intros Hwf Hsd. apply select_sites_positions.
  - rewrite Forall_forall in Hwf. by apply Hwf.
  - apply np_sort_set_sorted.
  - intros p. by apply intersection_in_file.
Qed.

Lemma merge_alleles_same_derived first rest w deriv biallelic :
  let mp := np_sort_set (positions_intersection first rest) in
  let sel := select_sites mp first in
  Forall wf_sampledata (first :: rest) → same_derived (first :: rest) →
  foldM (merge_alleles_step w mp ((λ s, ancestral (alleles s)) <$> sel))
        (derived_or_empty <$> sel, replicate (length mp) true) rest
  = Ok (deriv, biallelic) →
  deriv = derived_or_empty <$> sel ∧ biallelic = replicate (length mp) true.
Proof.
  intros mp sel Hwf Hsame Hal.
  assert (length (select_sites mp first) = length mp) as Hsel.
  { rewrite <- (length_fmap position).
    unfold mp. rewrite merge_positions_of_file; [done|done|left]. }
  rewrite <- Hsel, <- (length_fmap derived_or_empty) in Hal.
  apply merge_alleles_no_conflict in Hal as [-> ->].
  - by rewrite length_fmap, Hsel.
  - apply Forall_forall. intros sd Hsd. apply derived_aligned.
    + unfold mp. rewrite !merge_positions_of_file; [done|done|left|done|by right].
    + intros s s' [_ Hs]%list_elem_of_filter [_ Hs']%list_elem_of_filter.
      apply (agree_on_elim derived (first :: rest) sd first);
        [done|by right|left|done|done].
Qed.

(** X15: when the input files are finalised and list the same derived
    allele wherever they share a position, each site of the output of
    merge-sampledata bears the ancestral and the derived allele that the
    first file lists at the position of the site (the empty string when
    the first file lists no derived allele). *)
Theorem merge_rows_alleles output first rest tr out row :
  Forall wf_sampledata (first :: rest) → same_derived (first :: rest) →
  run_merge_sampledata output (first :: rest) = (tr, Ok out) →
  row ∈ out_sites out →
  ∃ s, s ∈ sites first ∧ position s = row_position row
       ∧ row_alleles row
         = [Some (ancestral (alleles s)); Some (derived_or_empty s)].
Proof.
  intros Hwf Hsame Hrun [k Hrow]%list_elem_of_lookup.
  destruct (run_merge_rows _ _ _ _ _ Hrun)
    as (total & deriv & biallelic & cur & genos & md & Hal & _ & Hrows).
  apply merge_alleles_same_derived in Hal as [-> ->]; [|done..].
  rewrite mask_select_all in Hrows.
  set (mp := np_sort_set (positions_intersection first rest)) in *.
  destruct (Forall2_lookup_r _ _ _ _ _ Hrows Hrow) as (a & Ha & Hok).
  apply merge_site_row_Ok in Hok as (Hpos & _ & Hal & _).
  destruct a as [pos [g [anc [d m]]]]. cbn in Hal, Hpos.
  apply lookup_zip_with_Some in Ha as (? & ? & [= <- <-] & Hp & Ha).
  apply lookup_zip_with_Some in Ha as (? & ? & [= <- <-] & _ & Ha).
  apply lookup_zip_with_Some in Ha as (? & ? & [= <- <-] & Hanc & Ha).
  apply lookup_zip_with_Some in Ha as (? & ? & [= <- <-] & Hd & _).
  apply list_lookup_fmap_Some in Hanc as (s & -> & Hs).
  apply list_lookup_fmap_Some in Hd as (s' & -> & Hs').
  simplify_eq.
  pose proof (merge_positions_of_file first rest first Hwf
                (list_elem_of_here _ _)) as Hsel.
  apply (f_equal (λ l, l !! k)) in Hsel.
  fold mp in Hsel. rewrite list_lookup_fmap, Hs, Hp in Hsel.
  cbn in Hsel. exists s. split; [|split; [congruence|done]].
  apply list_elem_of_lookup_2 in Hs. by apply list_elem_of_filter in Hs as [_ ?].
Qed.

Lemma merge_rows_alleles_witness :
  ∃ tr out,
    Forall wf_sampledata [example_file_a; example_file_d]
    ∧ same_derived [example_file_a; example_file_d]
    ∧ run_merge_sampledata "out.samples" [example_file_a; example_file_d]
      = (tr, Ok out)
    ∧ Forall (λ row, ∃ s, s ∈ sites example_file_a
                          ∧ position s = row_position row
                          ∧ row_alleles row
                            = [Some (ancestral (alleles s));
                               Some (derived_or_empty s)])
             (out_sites out)
    ∧ length (out_sites out) = 2.
Proof.
  assert (Forall wf_sampledata [example_file_a; example_file_d]) as Hwf
    by (apply (bool_decide_unpack _); by vm_compute).
  assert (same_derived [example_file_a; example_file_d]) as Hsame
    by (apply (bool_decide_unpack _); by vm_compute).
  destruct (run_merge_sampledata "out.samples" [example_file_a; example_file_d])
    as [tr [out|e]] eqn:Hrun; [|by vm_compute in Hrun].
  exists tr, out. split; [done|]. split; [done|]. split; [done|]. split.
  - apply Forall_forall. intros row Hrow.
    exact (merge_rows_alleles _ _ _ _ _ _ Hwf Hsame Hrun Hrow).
  - vm_compute in Hrun. by simplify_eq.
Defined.

(** ** merge-sampledata: the assertion on the ancestral alleles *)

Lemma ancestral_assertion (mp : list Z) (first sd : SampleData) :
  wf_sampledata first → wf_sampledata sd → StronglySorted Z.lt mp →
  (∀ p, p ∈ mp → p ∈ sites_position first) →
  (∀ p, p ∈ mp → p ∈ sites_position sd) →
  (λ s, ancestral (alleles s)) <$> select_sites mp first
  = (λ s, ancestral (alleles s)) <$> select_sites mp sd
  ↔ ¬ Exists (λ s, Exists (λ s',
        position s = position s' ∧ position s ∈ mp
        ∧ ancestral (alleles s) ≠ ancestral (alleles s')) (sites sd))
      (sites first).
Proof.
  intros Hwf1 Hwf2 Hmp Hin1 Hin2.
  pose proof (select_sites_positions mp first Hwf1 Hmp Hin1) as Hp1.
  pose proof (select_sites_positions mp sd Hwf2 Hmp Hin2) as Hp2.
  split.
  - intros Heq (s & Hs & (s' & Hs' & Hpos & Hpm & Hne)%Exists_exists)%Exists_exists.
    assert (s ∈ select_sites mp first) as [k Hk]%list_elem_of_lookup
      by (by apply list_elem_of_filter).
    assert (s' ∈ select_sites mp sd) as Hs'sel
      by (apply list_elem_of_filter; split; [by rewrite <- Hpos|done]).
    assert (∃ s'', select_sites mp sd !! k = Some s'') as [s'' Hk'].
    { apply lookup_lt_is_Some.
      rewrite <- (length_fmap position), Hp2, <- Hp1, length_fmap.
      by eapply lookup_lt_Some. }
    assert (position s'' = position s) as Hpos''.
    { pose proof (f_equal (λ l, l !! k) Hp1) as H1.
      pose proof (f_equal (λ l, l !! k) Hp2) as H2. cbn in H1, H2.
      rewrite list_lookup_fmap, Hk in H1.
      rewrite list_lookup_fmap, Hk' in H2. cbn in *. congruence. }
    assert (s'' = s') as ->.
    { apply (NoDup_fmap_eq position (select_sites mp sd));
        [|by eapply list_elem_of_lookup_2|done|congruence].
      rewrite Hp2. by apply StronglySorted_lt_NoDup. }
    apply (f_equal (λ l, l !! k)) in Heq.
    rewrite !list_lookup_fmap, Hk, Hk' in Heq. cbn in Heq. congruence.
  - intros Hno. apply aligned_fmap; [congruence|].
    intros s s' [Hsm Hs]%list_elem_of_filter [_ Hs']%list_elem_of_filter Hpos.
    destruct (decide (ancestral (alleles s) = ancestral (alleles s')))
      as [|Hne]; [done|].
    exfalso. apply Hno. apply Exists_exists. exists s. split; [done|].
    apply Exists_exists. by exists s'.
Qed.

Lemma merge_alleles_step_outcome w mp anc acc sd :
  (anc ≠ (λ s, ancestral (alleles s)) <$> select_sites mp sd →
   merge_alleles_step w mp anc acc sd = Raise AssertionError)
  ∧ (anc = (λ s, ancestral (alleles s)) <$> select_sites mp sd →
     ∃ acc', merge_alleles_step w mp anc acc sd = Ok acc').
Proof.
  destruct acc as [d b]. unfold merge_alleles_step.
  split; intros H.
  - by rewrite bool_decide_eq_false_2.
  - rewrite bool_decide_eq_true_2 by done. by eexists.
Qed.

Lemma merge_alleles_fold_outcome w mp anc acc rest :
  (Exists (λ sd, anc ≠ (λ s, ancestral (alleles s)) <$> select_sites mp sd)
          rest →
   foldM (merge_alleles_step w mp anc) acc rest = Raise AssertionError)
  ∧ (Forall (λ sd, anc = (λ s, ancestral (alleles s)) <$> select_sites mp sd)
            rest →
     ∃ acc', foldM (merge_alleles_step w mp anc) acc rest = Ok acc').
Proof.
  revert acc. induction rest as [|sd rest IH]; intros acc.
  - split; [by intros ?%Exists_nil|]. intros _. by eexists.
  - cbn [foldM].
    destruct (decide (anc = (λ s, ancestral (alleles s))
                            <$> select_sites mp sd)) as [Heq|Hne].
    + destruct (proj2 (merge_alleles_step_outcome w mp anc acc sd) Heq)
        as [acc' ->]. cbn [mbind result_bind].
      split.
      * intros [?|Hex]%Exists_cons; [done|]. by apply IH.
      * intros [_ Hall]%Forall_cons. by apply IH.
    + rewrite (proj1 (merge_alleles_step_outcome w mp anc acc sd) Hne).
      split; [done|]. by intros [? _]%Forall_cons.
Qed.

Lemma scatter_rows_row_length {A} cur rows (G M : list (list A)) n :
  Forall (λ row, length row = n) M →
  Forall (λ row, length row = n) (scatter_rows cur rows G M).
Proof.
  revert G M. induction rows as [|r rows IH]; intros [|g G] M HM; cbn;
    try done.
  apply IH. apply Forall_alter; [done|].
  intros row _ Hrow. unfold write_columns. by rewrite length_inserts.
Qed.

Lemma merge_block_step_eq mp cur genos md i sd :
  length (select_sites mp sd) = length mp →
  merge_block_step mp (cur, genos, md) (i, sd)
  = Ok (cur + num_samples sd,
        scatter_rows cur (seq 0 (length mp))
          (genotypes <$> select_sites mp sd) genos,
        scatter_rows i (seq 0 (length mp))
          ((λ s, [site_metadata s]) <$> select_sites mp sd) md).
Proof.
  intros Hlen. unfold merge_block_step, assign_block.
  by rewrite !decide_True by (by rewrite length_seq, length_fmap).
Qed.

Lemma merge_blocks_total mp l acc n :
  Forall (λ x : nat * SampleData,
            length (select_sites mp x.2) = length mp) l →
  Forall (λ row, length row = n) acc.2 →
  ∃ acc', foldM (merge_block_step mp) acc l = Ok acc'
          ∧ Forall (λ row, length row = n) acc'.2.
Proof.
  revert acc. induction l as [|[i sd] l IH]; intros [[cur genos] md] Hl Hmd.
  - by eexists.
  - apply Forall_cons in Hl as [Hsd Hl]. cbn in Hsd.
    cbn [foldM]. rewrite merge_block_step_eq by done.
    cbn [mbind result_bind]. apply IH; [done|].
    by apply scatter_rows_row_length.
Qed.

(** X16: over finalised files, the part of merge-sampledata that builds the
    rows of the sites ends with AssertionError exactly when a file lists
    another ancestral allele than the first file at a position that all
    files have, and otherwise completes. *)
Theorem merge_sites_outcome total first rest :
  Forall wf_sampledata (first :: rest) →
  (ancestral_conflict first rest →
   merge_rows total (first :: rest) = Raise AssertionError)
  ∧ (¬ ancestral_conflict first rest →
     ∃ rows, merge_rows total (first :: rest) = Ok rows).
Proof.
  intros Hwf. unfold merge_rows. cbn [fmap list_fmap set_intersection].
  cbn [mbind result_bind].
  change (foldl (∩) (position_set first) (position_set <$> rest))
    with (positions_intersection first rest).
  set (mp := np_sort_set (positions_intersection first rest)).
  set (anc := (λ s, ancestral (alleles s)) <$> select_sites mp first).
  assert (∀ sd, sd ∈ rest →
            anc = (λ s, ancestral (alleles s)) <$> select_sites mp sd
            ↔ ¬ Exists (λ s, Exists (λ s',
                  position s = position s'
                  ∧ position s ∈ positions_intersection first rest
                  ∧ ancestral (alleles s) ≠ ancestral (alleles s'))
                  (sites sd)) (sites first)) as Hassert.
  { intros sd Hsd. unfold anc.
    rewrite (ancestral_assertion mp first sd).
    - apply not_iff_compat. apply Exists_proper; [|done]. intros s.
      apply Exists_proper; [|done]. intros s'.
      unfold mp. by rewrite elem_of_np_sort_set.
    - by apply Forall_cons in Hwf as [? _].
    - apply Forall_cons in Hwf as [_ Hwf]. rewrite Forall_forall in Hwf.
      by apply Hwf.
    - apply np_sort_set_sorted.
    - intros p. apply intersection_in_file. left.
    - intros p. apply intersection_in_file. by right. }
  match goal with
  | |- context [foldM (merge_alleles_step ?w mp anc) ?acc rest] =>
      destruct (merge_alleles_fold_outcome w mp anc acc rest) as [Hbad Hgood]
  end.
  split.
  - intros Hc. rewrite Hbad; [done|].
    unfold ancestral_conflict in Hc. apply Exists_exists in Hc as (sd & Hsd & Hc).
    apply Exists_exists. exists sd. split; [done|].
    intros Heq. by apply (Hassert sd Hsd) in Heq.
  - intros Hc. destruct Hgood as [[deriv biallelic] ->].
    { apply Forall_forall. intros sd Hsd. apply (Hassert sd Hsd).
      intros Hex. apply Hc. apply Exists_exists. by exists sd. }
    cbn [mbind result_bind].
    set (mp' := mask_select biallelic mp).
    destruct (mask_select_sorted biallelic mp (np_sort_set_sorted _))
      as [Hsorted Hin].
    match goal with
    | |- context [foldM (merge_block_step mp') ?acc ?l] =>
        destruct (merge_blocks_total mp' l acc (length (first :: rest)))
          as ([[cur genos] md] & -> & Hmd)
    end.
    + apply Forall_forall. intros [i sd] [j Hj]%list_elem_of_lookup.
      apply list_lookup_imap_Some in Hj as (sd' & Hsd & [= <- <-]).
      cbn. rewrite <- (length_fmap position).
      rewrite select_sites_positions; [done| |done|].
      * rewrite Forall_forall in Hwf. apply Hwf.
        by eapply list_elem_of_lookup_2.
      * intros p Hp. apply (intersection_in_file first rest);
          [by eapply list_elem_of_lookup_2|by apply Hin].
    + cbn. unfold full. apply Forall_replicate. by rewrite length_replicate.
    + cbn [mbind result_bind]. apply mapM_total.
      apply Forall_forall. intros [pos [g [a [d m]]]] Hrow.
      do 4 apply elem_of_zip_r in Hrow. cbn in Hmd.
      rewrite Forall_forall in Hmd. specialize (Hmd _ Hrow).
      destruct m as [|m0 m]; [done|]. by eexists.
Qed.

Lemma merge_sites_outcome_witness :
  Forall wf_sampledata [example_file_a; example_file_c]
  ∧ ancestral_conflict example_file_a [example_file_c]
  ∧ merge_rows 3 [example_file_a; example_file_c] = Raise AssertionError.
Proof.
  assert (Forall wf_sampledata [example_file_a; example_file_c]) as Hwf
    by (apply (bool_decide_unpack _); by vm_compute).
  assert (ancestral_conflict example_file_a [example_file_c]) as Hc
    by (apply (bool_decide_unpack _); by vm_compute).
  split; [exact Hwf|]. split; [exact Hc|].
  exact (proj1 (merge_sites_outcome 3 example_file_a [example_file_c] Hwf) Hc).
Defined.

(** ** The metadata of the sites of the output *)

Lemma scatter_rows_keeps_column {A} cur rows (G M : list (list A)) ρ c :
  c < cur →
  scatter_rows cur rows G M !! ρ ≫= (λ row, row !! c)
  = M !! ρ ≫= (λ row, row !! c).
Proof.
  intros Hc. revert G M.
  induction rows as [|r rows IH]; intros [|g G] M; cbn [scatter_rows];
    try done.
  rewrite IH. destruct (decide (r = ρ)) as [->|Hne].
  - rewrite list_lookup_alter, decide_True by done.
    destruct (M !! ρ) as [row|]; [|done]. cbn.
    unfold write_columns. by rewrite list_lookup_inserts_lt.
  - by rewrite list_lookup_alter_ne.
Qed.

Lemma merge_block_step_md mp cur genos md i sd acc' :
  merge_block_step mp (cur, genos, md) (i, sd) = Ok acc' →
  acc'.2 = scatter_rows i (seq 0 (length mp))
             ((λ s, [site_metadata s]) <$> select_sites mp sd) md.
Proof.
  unfold merge_block_step. intros H. inv_bind H. inv_bind H. simplify_eq.
  unfold assign_block in Ha0. by case_decide; simplify_eq.
Qed.

Lemma merge_blocks_first_column mp l acc acc' ρ :
  foldM (merge_block_step mp) acc l = Ok acc' →
  Forall (λ x : nat * SampleData, 1 ≤ x.1) l →
  acc'.2 !! ρ ≫= (λ row, row !! 0) = acc.2 !! ρ ≫= (λ row, row !! 0).
Proof.
  revert acc. induction l as [|[i sd] l IH]; intros [[cur genos] md].
  - cbn. by intros [= <-].
  - cbn [foldM]. intros H [Hi Hl]%Forall_cons. inv_bind H.
    rewrite (IH _ H Hl). apply merge_block_step_md in Ha. rewrite Ha.
    by apply scatter_rows_keeps_column.
Qed.

Lemma imap_succ_indices {A} (l : list A) :
  Forall (λ x : nat * A, 1 ≤ x.1) (imap (pair ∘ S) l).
Proof.
  apply Forall_forall. intros [i a] [j Hj]%list_elem_of_lookup.
  apply list_lookup_imap_Some in Hj as (? & _ & [= -> ->]). cbn. lia.
Qed.

(** The first column of the metadata matrix after the block of the first
    file was written to the rows [rows]. *)
Lemma first_block_column (rows : list nat) (G : list (gmap string string))
    num_rows num_files j ρ m :
  NoDup rows → rows !! j = Some ρ → G !! j = Some m → ρ < num_rows →
  scatter_rows 0 rows ((λ m, [m]) <$> G) (full num_rows (S num_files) ∅) !! ρ
  ≫= (λ row, row !! 0)
  = Some m.
Proof.
  intros Hnd Hj Hm Hρ.
  rewrite (scatter_rows_in 0 rows _ _ j ρ [m] Hnd Hj)
    by (by rewrite list_lookup_fmap, Hm).
  unfold full. by rewrite lookup_replicate_2.
Qed.

(** X17: over finalised files, each site of the output of merge-sampledata
    bears the metadata of the site of the first file at its position; the
    site metadata of the other files are not passed on. *)
Theorem merge_rows_metadata output first rest tr out row :
  Forall wf_sampledata (first :: rest) →
  run_merge_sampledata output (first :: rest) = (tr, Ok out) →
  row ∈ out_sites out →
  ∃ s, s ∈ sites first ∧ position s = row_position row
       ∧ row_metadata row = site_metadata s.
Proof.
  intros Hwf Hrun [k Hrow]%list_elem_of_lookup.
  destruct (run_merge_rows _ _ _ _ _ Hrun)
    as (total & deriv & biallelic & cur & genos & md & _ & Hbl & Hrows).
  set (mp := np_sort_set (positions_intersection first rest)) in *.
  set (mp' := mask_select biallelic mp) in *.
  destruct (mask_select_sorted biallelic mp (np_sort_set_sorted _))
    as [Hsorted Hin].
  destruct (Forall2_lookup_r _ _ _ _ _ Hrows Hrow) as (a & Ha & Hok).
  apply merge_site_row_Ok in Hok as (Hpos & _ & _ & Hhead).
  destruct a as [pos [g [anc [d m]]]]. cbn in Hpos, Hhead.
  apply lookup_zip_with_Some in Ha as (? & ? & [= <- <-] & Hp & Ha).
  apply lookup_zip_with_Some in Ha as (? & ? & [= <- <-] & _ & Ha).
  apply lookup_zip_with_Some in Ha as (? & ? & [= <- <-] & _ & Ha).
  apply lookup_zip_with_Some in Ha as (? & ? & [= <- <-] & _ & Hm).
  assert (position <$> select_sites mp' first = mp') as Hsel.
  { apply select_sites_positions; [by apply Forall_cons in Hwf as [? _]|done|].
    intros p Hp'. apply (intersection_in_file first rest); [left|by apply Hin]. }
  assert (∃ s, select_sites mp' first !! k = Some s ∧ position s = pos)
    as (s & Hs & Hps).
  { apply (f_equal (λ l, l !! k)) in Hsel. cbn in Hsel.
    rewrite list_lookup_fmap, Hp in Hsel.
    destruct (select_sites mp' first !! k) as [s|]; [|done].
    exists s. split; [done|]. cbn in Hsel. congruence. }
  exists s. split; [|split; [congruence|]].
  { apply list_elem_of_lookup_2 in Hs. by apply list_elem_of_filter in Hs as [_ ?]. }
  cbn [imap foldM] in Hbl.
  apply bind_Ok in Hbl as ([[cur1 genos1] md1] & Hstep & Hbl).
  pose proof (merge_blocks_first_column _ _ _ _ k Hbl (imap_succ_indices _))
    as Hcol.
  apply merge_block_step_md in Hstep. cbn [snd] in Hstep, Hcol.
  rewrite Hm, Hstep in Hcol. cbn [mbind option_bind] in Hcol.
  assert (k < length mp') as Hk by (by eapply lookup_lt_Some).
  rewrite (list_fmap_compose site_metadata (λ m, [m])) in Hcol.
  change (length (first :: rest)) with (S (length rest)) in Hcol.
  rewrite (first_block_column (seq 0 (length mp')) _ _ _ k k (site_metadata s))
    in Hcol; [|apply NoDup_seq|by apply lookup_seq|
               by rewrite list_lookup_fmap, Hs|done].
  rewrite head_lookup in Hhead. congruence.
Qed.

Lemma merge_rows_metadata_witness :
  ∃ tr out,
    Forall wf_sampledata [example_file_h; example_file_a]
    ∧ run_merge_sampledata "out.samples" [example_file_h; example_file_a]
      = (tr, Ok out)
    ∧ row_position <$> out_sites out = [2; 5]%Z
    ∧ Forall (λ row, ∃ s, s ∈ sites example_file_h
                          ∧ position s = row_position row
                          ∧ row_metadata row = site_metadata s)
             (out_sites out).
Proof.
  assert (Forall wf_sampledata [example_file_h; example_file_a]) as Hwf
    by (apply (bool_decide_unpack _); by vm_compute).
  destruct (run_merge_sampledata "out.samples" [example_file_h; example_file_a])
    as [tr [out|e]] eqn:Hrun; [|by vm_compute in Hrun].
  exists tr, out. split; [done|]. split; [done|]. split.
  - vm_compute in Hrun. by simplify_eq.
  - apply Forall_forall. intros row Hrow.
    exact (merge_rows_metadata _ _ _ _ _ _ Hwf Hrun Hrow).
Defined.

(** ** combine-sampledata: the rows of the output *)

Lemma combine_site_row_Ok a row :
  combine_site_row a = Ok row →
  row_position row = Position a.1 ∧ row_genotypes row = a.2.1
  ∧ row_alleles row = [Some (Ancestral a.1); Derived a.1]
  ∧ head a.2.2 = Some (row_metadata row).
Proof.
  destruct a as [r [genos md]]. unfold combine_site_row.
  intros H. inv_bind H. simplify_eq. cbn.
  repeat split. destruct md; cbn in *; by simplify_eq.
Qed.

(** The rows of a completed run, against the data frame and the matrices
    they are zipped from. *)
Lemma run_combine_rows output first rest tr out :
  Forall wf_sampledata (first :: rest) →
  run_combine_sampledata output (first :: rest) = (tr, Ok out) →
  ∃ total df cur genos md,
    combined_frame (first :: rest) = Ok df
    ∧ frame_ok (first :: rest) (length (first :: rest)) df
    ∧ StronglySorted position_le df
    ∧ foldM (combine_block_step df)
            (0, full (length df) total MISSING_DATA,
             full (length df) (length (first :: rest)) ∅)
            (imap pair (first :: rest))
      = Ok (cur, genos, md)
    ∧ length genos = length df ∧ length md = length df
    ∧ Forall2 (λ a row, combine_site_row a = Ok row)
              (zip df (zip genos md)) (out_sites out).
Proof.
  intros Hwf (seq_len & total & _ & Hsites)%run_combine_inv.
  apply combine_sites_inv in Hsites
    as (df & cur & genos & md & Hdf & Hbl & Hrows).
  destruct (combined_frame_ok _ _ _ Hwf Hdf) as [Hok Hsorted].
  exists total, df, cur, genos, md.
  pose proof (combine_blocks_length _ _ _ _ Hbl) as [Hg Hm].
  cbn [fst snd] in Hg, Hm. unfold full in Hg, Hm.
  rewrite length_replicate in Hg. rewrite length_replicate in Hm.
  do 6 (split; [done|]). by apply mapM_Forall2.
Qed.

Lemma combine_rows_frame output first rest tr out :
  Forall wf_sampledata (first :: rest) →
  run_combine_sampledata output (first :: rest) = (tr, Ok out) →
  ∃ df,
    frame_ok (first :: rest) (length (first :: rest)) df
    ∧ StronglySorted position_le df
    ∧ Forall2 (λ r row, row_position row = Position r
                        ∧ row_alleles row = [Some (Ancestral r); Derived r])
              df (out_sites out).
Proof.
  intros Hwf Hrun.
  destruct (run_combine_rows _ _ _ _ _ Hwf Hrun)
    as (total & df & cur & genos & md & _ & Hok & Hsorted & _ & Hg & Hm & Hrows).
  exists df. split; [done|]. split; [done|].
  rewrite <- (fst_zip df (zip genos md))
    by (rewrite length_zip_with; lia).
  apply Forall2_fmap_l. eapply Forall2_impl; [exact Hrows|].
  by intros a row (? & _ & ? & _)%combine_site_row_Ok.
Qed.

(** X18: over finalised files, the sites of the output of combine-sampledata
    come in strictly increasing order of position; their positions are the
    positions of the sites of the input files; and each bears the ancestral
    allele of every input site at its position: a run over files that
    disagree on the ancestral allele at a position does not complete. *)
Theorem combine_rows_positions output first rest tr out :
  Forall wf_sampledata (first :: rest) →
  run_combine_sampledata output (first :: rest) = (tr, Ok out) →
  StronglySorted Z.lt (row_position <$> out_sites out)
  ∧ (∀ p, p ∈ row_position <$> out_sites out
          ↔ ∃ sd, sd ∈ first :: rest ∧ p ∈ sites_position sd)
  ∧ ∀ row sd s, row ∈ out_sites out → sd ∈ first :: rest → s ∈ sites sd →
                position s = row_position row →
                row_alleles row !! 0 = Some (Some (ancestral (alleles s))).
Proof.
  intros Hwf Hrun.
  pose proof (run_combine_increasing _ _ _ _ Hrun) as Hinc.
  destruct (combine_rows_frame _ _ _ _ _ Hwf Hrun)
    as (df & (Hnd & _ & Hkeys) & _ & Hrows).
  assert (row_position <$> out_sites out = Position <$> df) as Hpos.
  { apply list_eq_Forall2, Forall2_fmap, Forall2_flip.
    eapply Forall2_impl; [exact Hrows|]. by intros r row [-> _]. }
  assert (∀ sd s, sd ∈ first :: rest → s ∈ sites sd →
            ∃ r, r ∈ df ∧ row_key r = site_key s) as Hcover.
  { intros sd s [i Hi]%list_elem_of_lookup Hs.
    assert (site_key s ∈ row_key <$> df) as (r & Hk & Hr)%list_elem_of_fmap.
    { apply Hkeys. exists i, sd. split; [by eapply lookup_lt_Some|].
      split; [done|]. by apply list_elem_of_fmap_2. }
    eauto. }
  split; [done|]. split.
  - intros p. rewrite Hpos, list_elem_of_fmap. split.
    + intros (r & -> & Hr).
      assert (row_key r ∈ row_key <$> df) as Hk by by apply list_elem_of_fmap_2.
      apply Hkeys in Hk as (i & sd & _ & Hsd & (s & Hk & Hs)%list_elem_of_fmap).
      exists sd. split; [by eapply list_elem_of_lookup_2|].
      apply list_elem_of_fmap. exists s. split; [|done]. by injection Hk.
    + intros (sd & Hsd & (s & -> & Hs)%list_elem_of_fmap).
      destruct (Hcover _ _ Hsd Hs) as (r & Hr & Hk). exists r.
      split; [|done]. by injection Hk.
  - intros row sd s [ρ Hρ]%list_elem_of_lookup Hsd Hs Hp.
    destruct (Forall2_lookup_r _ _ _ _ _ Hrows Hρ) as (r & Hr & Hrp & Hal).
    destruct (Hcover _ _ Hsd Hs) as (r' & Hr' & Hk).
    assert (r' = r) as ->.
    { rewrite Hpos in Hinc. apply StronglySorted_lt_NoDup in Hinc.
      apply (NoDup_fmap_eq Position df);
        [done|done|by eapply list_elem_of_lookup_2|].
      injection Hk as Hk _. congruence. }
    rewrite Hal. cbn. injection Hk as _ ->. done.
Qed.

(** On two files that share the positions 2 and 5, the output has the
    sites at 1, 2, 3 and 5. *)
Lemma combine_rows_positions_witness :
  ∃ tr out,
    Forall wf_sampledata [example_file_a; example_file_b]
    ∧ run_combine_sampledata "out.samples" [example_file_a; example_file_b]
      = (tr, Ok out)
    ∧ StronglySorted Z.lt (row_position <$> out_sites out)
    ∧ row_position <$> out_sites out = [1; 2; 3; 5]%Z.
Proof.
  assert (Forall wf_sampledata [example_file_a; example_file_b]) as Hwf
    by (apply (bool_decide_unpack _); by vm_compute).
  destruct (run_combine_sampledata "out.samples" [example_file_a; example_file_b])
    as [tr [out|e]] eqn:Hrun; [|by vm_compute in Hrun].
  destruct (combine_rows_positions _ _ _ _ _ Hwf Hrun) as (Hsorted & _).
  exists tr, out. split; [done|]. split; [done|]. split; [done|].
  vm_compute in Hrun. by simplify_eq.
Defined.

(** ** combine-sampledata: completion *)


Lemma combine_block_step_md df cur genos md i sd acc' :
  combine_block_step df (cur, genos, md) (i, sd) = Ok acc' →
  acc'.2 = scatter_rows i
             (np_where ((λ r, bool_decide (is_Some (SiteID r !! i))) <$> df))
             ((λ m, [m]) <$> sites_metadata sd) md.
Proof.
  unfold combine_block_step. intros H. inv_bind H. inv_bind H. simplify_eq.
  unfold assign_block in Ha0. by case_decide; simplify_eq.
Qed.









(** ** combine-sampledata: the metadata of the sites *)

Lemma combine_blocks_first_column df l acc acc' ρ :
  foldM (combine_block_step df) acc l = Ok acc' →
  Forall (λ x : nat * SampleData, 1 ≤ x.1) l →
  acc'.2 !! ρ ≫= (λ row, row !! 0) = acc.2 !! ρ ≫= (λ row, row !! 0).
Proof.
  revert acc. induction l as [|[i sd] l IH]; intros [[cur genos] md].
  - cbn. by intros [= <-].
  - cbn [foldM]. intros H [Hi Hl]%Forall_cons. inv_bind H.
    rewrite (IH _ H Hl). apply combine_block_step_md in Ha. rewrite Ha.
    by apply scatter_rows_keeps_column.
Qed.

(** X20: over finalised files, a site of the output of combine-sampledata
    bears the metadata of the site of the first file with its position and
    ancestral allele, and empty metadata when the first file has no such
    site; the site metadata of the other files are not passed on. *)
Theorem combine_rows_metadata output first rest tr out row :
  Forall wf_sampledata (first :: rest) →
  run_combine_sampledata output (first :: rest) = (tr, Ok out) →
  row ∈ out_sites out →
  ∃ anc der,
    row_alleles row = [Some anc; der]
    ∧ row_metadata row
      = match find_site first (row_position row, anc) with
        | Some x => site_metadata x.2
        | None => ∅
        end.
Proof.
  intros Hwf Hrun [k Hrow]%list_elem_of_lookup.
  destruct (run_combine_rows _ _ _ _ _ Hwf Hrun)
    as (total & df & cur & genos & md & _ & Hok & Hsorted & Hbl & _ & _ & Hrows).
  destruct (Forall2_lookup_r _ _ _ _ _ Hrows Hrow) as (a & Ha & Hrow_ok).
  apply combine_site_row_Ok in Hrow_ok as (Hpos & _ & Hal & Hhead).
  destruct a as [r [g m]]. cbn in Hpos, Hal, Hhead.
  apply lookup_zip_with_Some in Ha as (? & ? & [= <- <-] & Hr & Ha).
  apply lookup_zip_with_Some in Ha as (? & ? & [= <- <-] & _ & Hm).
  exists (Ancestral r), (Derived r). split; [done|]. rewrite Hpos.
  change (Position r, Ancestral r) with (row_key r).
  assert (wf_sampledata first) as Hwf1 by (by apply Forall_cons in Hwf as [? _]).
  assert (k < length df) as Hk by (by eapply lookup_lt_Some).
  assert (r ∈ df) as Hrdf by (by eapply list_elem_of_lookup_2).
  destruct (frame_row_lookup (first :: rest) df 0 first r Hok eq_refl Hrdf)
    as [Hid _].
  cbn [imap foldM] in Hbl.
  apply bind_Ok in Hbl as ([[cur1 genos1] md1] & Hstep & Hbl).
  pose proof (combine_blocks_first_column _ _ _ _ k Hbl (imap_succ_indices _))
    as Hcol.
  apply combine_block_step_md in Hstep. cbn [snd] in Hstep, Hcol.
  rewrite Hm, Hstep in Hcol. cbn [mbind option_bind] in Hcol.
  change (length (first :: rest)) with (S (length rest)) in Hcol.
  rewrite head_lookup in Hhead. rewrite Hhead in Hcol.
  set (mask := (λ r0 : df_row, bool_decide (is_Some (SiteID r0 !! 0))) <$> df)
    in *.
  assert (mask !! k = Some (bool_decide (is_Some (SiteID r !! 0)))) as Hmask
    by (unfold mask; by rewrite list_lookup_fmap, Hr).
  destruct (find_site first (row_key r)) as [[s site]|] eqn:Hfind;
    cbn in Hid.
  - assert (k ∈ np_where mask) as [j Hj]%list_elem_of_lookup.
    { apply elem_of_np_where_from. split; [lia|].
      rewrite Nat.sub_0_r, Hmask, Hid. by rewrite bool_decide_eq_true_2. }
    destruct (np_where_omap (λ r0 : df_row, SiteID r0 !! 0) df 0 j k Hj)
      as (r' & s' & _ & Hr' & Hs' & Homap).
    rewrite Nat.sub_0_r, Hr in Hr'. injection Hr' as <-.
    rewrite Hid in Hs'. injection Hs' as <-.
    rewrite (frame_site_ids (first :: rest) df 0 first Hok Hsorted eq_refl Hwf1)
      in Homap.
    apply lookup_seq in Homap as [-> _]. cbn in Hfind.
    apply find_site_Some in Hfind as [Hsite _].
    rewrite (first_block_column (np_where mask) (sites_metadata first)
               (length df) (length rest) j k (site_metadata site)) in Hcol.
    + by injection Hcol.
    + apply NoDup_np_where_from.
    + done.
    + unfold sites_metadata. by rewrite list_lookup_fmap, Hsite.
    + done.
  - rewrite scatter_rows_notin in Hcol.
    + unfold full in Hcol. rewrite lookup_replicate_2 in Hcol by done.
      cbn in Hcol. by injection Hcol.
    + intros [_ Hin]%elem_of_np_where_from.
      rewrite Nat.sub_0_r, Hmask, Hid in Hin.
      by rewrite bool_decide_eq_false_2 in Hin by (by intros [??]).
Qed.

(** The first file has sites with metadata at 2 and 5, the second has a
    site at 1 besides. *)
Lemma combine_rows_metadata_witness :
  ∃ tr out,
    Forall wf_sampledata [example_file_h; example_file_a]
    ∧ run_combine_sampledata "out.samples" [example_file_h; example_file_a]
      = (tr, Ok out)
    ∧ row_position <$> out_sites out = [1; 2; 5]%Z
    ∧ Forall (λ row, ∃ anc der,
                row_alleles row = [Some anc; der]
                ∧ row_metadata row
                  = match find_site example_file_h (row_position row, anc) with
                    | Some x => site_metadata x.2
                    | None => ∅
                    end)
             (out_sites out).
Proof.
  assert (Forall wf_sampledata [example_file_h; example_file_a]) as Hwf
    by (apply (bool_decide_unpack _); by vm_compute).
  destruct (run_combine_sampledata "out.samples" [example_file_h; example_file_a])
    as [tr [out|e]] eqn:Hrun; [|by vm_compute in Hrun].
  exists tr, out. split; [done|]. split; [done|]. split.
  - vm_compute in Hrun. by simplify_eq.
  - apply Forall_forall. intros row Hrow.
    exact (combine_rows_metadata _ _ _ _ _ _ Hwf Hrun Hrow).
Defined.

(** ** combine-sampledata: the derived allele of a site *)

Lemma first_derived_snoc files sd k :
  first_derived (files ++ [sd]) k
  = match first_derived files k with
    | Some d => Some d
    | None => find_site sd k ≫= λ x, derived (alleles x.2)
    end.
Proof.
  unfold first_derived. rewrite omap_app.
  destruct (omap _ files) as [|d t]; [|done]. cbn.
  by destruct (find_site sd k ≫= λ x, derived (alleles x.2)).
Qed.

Lemma first_derived_absent files k :
  (∀ sd, sd ∈ files → find_site sd k = None) → first_derived files k = None.
Proof.
  unfold first_derived. induction files as [|sd files IH]; intros H; [done|].
  cbn. rewrite (H sd) by left. cbn. apply IH. intros ??. apply H. by right.
Qed.

Lemma frame_derived_step files j combined sd :
  1 ≤ j → files !! j = Some sd → NoDup (site_key <$> sites sd) →
  frame_ok files j combined →
  Forall (λ r, Derived r = first_derived (take j files) (row_key r)) combined →
  Forall (λ r, Derived r = first_derived (take (S j) files) (row_key r))
         (fillna j <$> pd_merge_outer j combined (make_site_df sd j)).
Proof.
  intros Hj Hsd Hnd (Hkeys & Hrows & Hcover) Hder.
  rewrite (take_S_r _ _ _ Hsd). apply Forall_fmap.
  unfold pd_merge_outer. apply Forall_app. split.
  - apply Forall_fmap, Forall_forall. intros l Hl. cbn.
    rewrite Forall_forall in Hder, Hrows.
    specialize (Hder _ Hl). destruct (Hrows _ Hl j) as [_ Hof].
    rewrite decide_False in Hof by lia.
    rewrite find_make_site_df, first_derived_snoc.
    destruct (find_site sd (row_key l)) as [[i site]|] eqn:Hfind; cbn.
    + rewrite row_key_fillna, row_key_mk.
      change (Position l, Ancestral l) with (row_key l).
      rewrite Hfind, <- Hder. cbn.
      destruct (Derived l); [done|]. unfold add_derived.
      destruct (derived (alleles site)); [by rewrite lookup_insert_eq|done].
    + rewrite row_key_fillna, Hfind, <- Hder. unfold fillna. cbn.
      destruct (Derived l); [done|]. done.
  - apply Forall_fmap, Forall_forall.
    intros r [Hnone [i Hi]%list_elem_of_lookup]%list_elem_of_filter.
    unfold make_site_df in Hi.
    apply list_lookup_imap_Some in Hi as (site & Hsite & ->).
    apply find_same_key_None in Hnone. rewrite row_key_mk in Hnone.
    cbn. unfold fillna. cbn. rewrite row_key_mk, first_derived_snoc.
    change (position site, ancestral (alleles site)) with (site_key site)
      in *.
    rewrite first_derived_absent.
    + rewrite (find_site_lookup sd i site Hnd Hsite). cbn.
      unfold add_derived.
      destruct (derived (alleles site)); [by rewrite lookup_insert_eq|done].
    + intros sd' [i' Hi']%list_elem_of_lookup.
      apply lookup_take_Some in Hi' as [Hi' Hlt].
      apply find_site_None. intros Hin. apply Hnone, Hcover.
      by exists i', sd'.
Qed.

Lemma frame_derived_merge_dfs files todo j combined :
  1 ≤ j → drop j files = todo → Forall wf_sampledata todo →
  frame_ok files j combined →
  Forall (λ r, Derived r = first_derived (take j files) (row_key r)) combined →
  Forall (λ r, Derived r
               = first_derived (take (j + length todo) files) (row_key r))
    (merge_dfs j combined (imap (λ i sd, make_site_df sd (j + i)) todo)).
Proof.
  revert j combined.
  induction todo as [|sd todo IH]; intros j combined Hj Hdrop Hwf Hok Hder.
  - cbn [imap merge_dfs length]. by rewrite Nat.add_0_r.
  - apply Forall_cons in Hwf as [Hsd Hwf].
    assert (files !! j = Some sd) as Hlook.
    { rewrite <- (Nat.add_0_r j), <- lookup_drop, Hdrop. done. }
    assert (drop (S j) files = todo) as Hdrop'.
    { change todo with (drop 1 (sd :: todo)). rewrite <- Hdrop, drop_drop.
      f_equal. lia. }
    rewrite imap_cons. cbn [merge_dfs length]. rewrite Nat.add_0_r.
    rewrite (imap_ext _ (λ i sd, make_site_df sd (S j + i)))
      by (intros; cbn; f_equal; lia).
    replace (j + S (length todo)) with (S j + length todo) by lia.
    apply IH; [lia|done|done|..].
    + apply frame_ok_step; auto using wf_site_keys_NoDup.
    + apply frame_derived_step; auto using wf_site_keys_NoDup.
Qed.

Lemma combined_frame_derived first rest df :
  Forall wf_sampledata (first :: rest) →
  combined_frame (first :: rest) = Ok df →
  Forall (λ r, Derived r = first_derived (first :: rest) (row_key r)) df.
Proof.
  intros Hwf. unfold combined_frame. rewrite imap_cons. intros [= <-].
  apply Forall_cons in Hwf as [Hfirst Hwf].
  unfold sort_values. rewrite merge_sort_Permutation.
  rewrite (imap_ext _ (λ i sd, make_site_df sd (1 + i))) by done.
  assert (Forall (λ r, Derived r
                       = first_derived (take (1 + length rest) (first :: rest))
                           (row_key r))
            (merge_dfs 1 (make_site_df first 0)
               (imap (λ i sd, make_site_df sd (1 + i)) rest))) as H.
  { apply (frame_derived_merge_dfs (first :: rest) rest 1); [lia|done|done|..].
    - apply frame_ok_first. by apply wf_site_keys_NoDup.
    - apply Forall_forall. intros r [i Hi]%list_elem_of_lookup.
      unfold make_site_df in Hi.
      apply list_lookup_imap_Some in Hi as (site & Hsite & ->).
      rewrite row_key_mk. cbn [Derived take]. unfold first_derived. cbn.
      change (position site, ancestral (alleles site)) with (site_key site).
      rewrite (find_site_lookup first i site) by auto using wf_site_keys_NoDup.
      cbn. by destruct (derived (alleles site)). }
  change (1 + length rest) with (length (first :: rest)) in H.
  by rewrite firstn_all in H.
Qed.

(** X21: over finalised files, the derived allele of a site of the output of
    combine-sampledata is the one that the first file listing a derived
    allele for its position and ancestral allele lists, in the order of the
    input; a site for which no file lists one has none. *)
Theorem combine_rows_derived output first rest tr out row :
  Forall wf_sampledata (first :: rest) →
  run_combine_sampledata output (first :: rest) = (tr, Ok out) →
  row ∈ out_sites out →
  ∃ anc,
    row_alleles row
    = [Some anc; first_derived (first :: rest) (row_position row, anc)].
Proof.
  intros Hwf Hrun [k Hrow]%list_elem_of_lookup.
  destruct (run_combine_rows _ _ _ _ _ Hwf Hrun)
    as (total & df & cur & genos & md & Hdf & _ & _ & _ & _ & _ & Hrows).
  pose proof (combined_frame_derived _ _ _ Hwf Hdf) as Hder.
  destruct (Forall2_lookup_r _ _ _ _ _ Hrows Hrow) as (a & Ha & Hrow_ok).
  apply combine_site_row_Ok in Hrow_ok as (Hpos & _ & Hal & _).
  destruct a as [r [g m]]. cbn in Hpos, Hal.
  apply lookup_zip_with_Some in Ha as (? & ? & [= <- <-] & Hr & _).
  rewrite Forall_forall in Hder.
  specialize (Hder r (list_elem_of_lookup_2 _ _ _ Hr)).
  exists (Ancestral r). by rewrite Hal, Hpos, Hder.
Qed.

(** At the position 2 the two files list the derived alleles C and G: the
    site of the output bears that of the first file. *)
Lemma combine_rows_derived_witness :
  ∃ tr out,
    Forall wf_sampledata [example_file_a; example_file_b]
    ∧ run_combine_sampledata "out.samples" [example_file_a; example_file_b]
      = (tr, Ok out)
    ∧ Forall (λ row, ∃ anc,
                row_alleles row
                = [Some anc;
                   first_derived [example_file_a; example_file_b]
                     (row_position row, anc)])
             (out_sites out)
    ∧ row_alleles <$> out_sites out
      = [[Some "A"; Some "C"]; [Some "A"; Some "C"]; [Some "A"; Some "G"];
         [Some "G"; Some "T"]].
Proof.
  assert (Forall wf_sampledata [example_file_a; example_file_b]) as Hwf
    by (apply (bool_decide_unpack _); by vm_compute).
  destruct (run_combine_sampledata "out.samples" [example_file_a; example_file_b])
    as [tr [out|e]] eqn:Hrun; [|by vm_compute in Hrun].
  exists tr, out. split; [done|]. split; [done|]. split.
  - apply Forall_forall. intros row Hrow.
    exact (combine_rows_derived _ _ _ _ _ _ Hwf Hrun Hrow).
  - vm_compute in Hrun. by simplify_eq.
Defined.

(** ** combine-ukbb-1kg: the check of the mutations *)

Lemma subset_fold_outcome inter tg todo k acc :
  (Forall (λ x : nat * TsSite, length (site_mutations tg x.1) = 1)
          (filter (λ x, ts_position x.2 ∈ inter)
                  (imap (λ i s, (k + i, s)) todo)) →
   ∃ acc', foldM (subset_step inter tg) acc (imap (λ i s, (k + i, s)) todo)
           = Ok acc')
  ∧ (¬ Forall (λ x : nat * TsSite, length (site_mutations tg x.1) = 1)
              (filter (λ x, ts_position x.2 ∈ inter)
                      (imap (λ i s, (k + i, s)) todo)) →
     foldM (subset_step inter tg) acc (imap (λ i s, (k + i, s)) todo)
     = Raise AssertionError).
Proof.
  revert k acc. induction todo as [|s todo IH]; intros k [S0 M0].
  - cbn. split; [by eexists|]. intros H. destruct H. constructor.
  - rewrite imap_cons.
    rewrite (imap_ext _ (λ i s, (S k + i, s)))
      by (intros; cbn; f_equal; lia).
    rewrite filter_cons. cbn [foldM snd fst].
    destruct (decide (ts_position s ∈ inter)) as [Hin|Hin].
    + destruct (decide (length (site_mutations tg (k + 0)) = 1)) as [H1|H1].
      * assert (∃ acc1, subset_step inter tg (S0, M0) (k + 0, s) = Ok acc1)
          as [acc1 ->].
        { unfold subset_step. rewrite decide_True, bool_decide_true by done.
          cbn [py_assert mbind result_bind].
          destruct (site_mutations tg (k + 0)) as [|m ?]; [done|].
          by eexists. }
        cbn [mbind result_bind]. split.
        -- intros [_ H]%Forall_cons. by apply IH.
        -- intros H. apply IH. intros H'. apply H. by constructor.
      * assert (subset_step inter tg (S0, M0) (k + 0, s)
                = Raise AssertionError) as ->.
        { unfold subset_step. by rewrite decide_True, bool_decide_false by done. }
        cbn [mbind result_bind]. split; [|done]. by intros [? _]%Forall_cons.
    + assert (subset_step inter tg (S0, M0) (k + 0, s) = Ok (S0, M0)) as ->.
      { unfold subset_step. by rewrite decide_False. }
      cbn [mbind result_bind]. apply IH.
Qed.

Lemma filter_ext_in {A} (P Q : A → Prop) `{∀ x, Decision (P x)}
    `{∀ x, Decision (Q x)} (l : list A) :
  (∀ x, x ∈ l → P x ↔ Q x) → filter P l = filter Q l.
Proof.
  induction l as [|a l IH]; [done|]. intros Hl. rewrite !filter_cons.
  rewrite IH by (intros x Hx; apply Hl; by right).
  destruct (decide (P a)) as [HP|HP], (decide (Q a)) as [HQ|HQ]; try done.
  - exfalso. apply HQ, Hl; [left|done].
  - exfalso. apply HP, Hl; [left|done].
Qed.

(** X22: the loop over the sites of the tree sequence completes when each
    site at a UKBB position has exactly one mutation, and stops with an
    [AssertionError] when one of them has none or several; the sites at the
    other positions are not looked at. *)
Theorem subset_sites_outcome ukbb tg :
  let checked :=
    filter (λ x : nat * TsSite, ts_position x.2 ∈ sites_position ukbb)
           (imap pair (ts_sites tg)) in
  (Forall (λ x, length (site_mutations tg x.1) = 1) checked →
   ∃ t0, subset_sites ukbb tg = Ok t0)
  ∧ (¬ Forall (λ x, length (site_mutations tg x.1) = 1) checked →
     subset_sites ukbb tg = Raise AssertionError).
Proof.
  intros checked.
  assert (checked
          = filter (λ x : nat * TsSite,
                      ts_position x.2 ∈ intersecting_sites ukbb tg)
                   (imap (λ i s, (0 + i, s)) (ts_sites tg))) as ->.
  { unfold checked. apply filter_ext_in.
    intros [i s] [j Hj]%list_elem_of_lookup.
    apply list_lookup_imap_Some in Hj as (s' & Hs & Heq).
    assert (s = s') as -> by congruence. cbn.
    unfold intersecting_sites, position_set.
    rewrite elem_of_intersection, !elem_of_list_to_set. split; [|tauto].
    intros Hp. split; [|done]. apply list_elem_of_fmap. exists s'.
    split; [done|]. by eapply list_elem_of_lookup_2. }
  destruct (subset_fold_outcome (intersecting_sites ukbb tg) tg
              (ts_sites tg) 0 ([], [])) as [Hok Hfail].
  unfold subset_sites.
  change (imap pair (ts_sites tg))
    with (imap (λ i s, (0 + i, s)) (ts_sites tg)).
  split.
  - intros H. destruct (Hok H) as [[S1 M1] ->]. by eexists.
  - intros H. by rewrite (Hfail H).
Qed.

(** The site at 7 of the example tree sequence loses its mutation; it is
    no UKBB position and the loop completes. With a second mutation at the
    site at 1 it stops. *)
Lemma subset_sites_outcome_witness :
  let tg :=
    {| ts_sequence_length := 10; nodes := nodes (example_tables 0 1);
       edges := edges (example_tables 0 1);
       ts_sites := ts_sites (example_tables 0 1);
       mutations := take 2 (mutations (example_tables 0 1)) |} in
  (∃ t0, subset_sites example_file_a tg = Ok t0)
  ∧ subset_sites example_file_a
      {| ts_sequence_length := 10; nodes := nodes tg; edges := edges tg;
         ts_sites := ts_sites tg;
         mutations := mutations tg
                      ++ [ {| mut_site := 0; mut_node := 1;
                              derived_state := "G"; mut_parent := 0;
                              mut_metadata := "" |} ] |}
    = Raise AssertionError.
Proof.
  intros tg. split.
  - apply (proj1 (subset_sites_outcome example_file_a tg)).
    apply (bool_decide_unpack _). by vm_compute.
  - apply (proj2 (subset_sites_outcome example_file_a _)).
    apply (bool_decide_unpack _). by vm_compute.
Defined.

(** ** combine-ukbb-1kg: the edges from the new node *)

(** X23: the edges that the handler adds from the new node 0 cover the
    stretches between the changes of the root, one after the other from
    [left] to the sequence length: each ends where the next one starts,
    and two that follow one another go to different roots. *)
Theorem root_edges_tile left root trees len :
  let es := root_edges left root trees len in
  Forall (λ e, edge_parent e = 0%Z) es
  ∧ (∃ cuts, edge_left <$> es = left :: cuts
             ∧ edge_right <$> es = cuts ++ [len]
             ∧ Forall (λ c, c ∈ fst <$> trees) cuts)
  ∧ head (edge_child <$> es) = Some (root + 1)%Z
  ∧ ∀ i e e', es !! i = Some e → es !! S i = Some e' →
              edge_child e ≠ edge_child e'.
Proof.
  cbn zeta. revert left root.
  induction trees as [|[l r] trees IH]; intros left root.
  - cbn. split; [by repeat constructor|]. split; [by exists []|].
    split; [done|]. by intros [|i] e e'.
  - cbn [root_edges]. case_decide as Hr.
    + destruct (IH l r) as (Hp & (cuts & Hl & Hrt & Hc) & Hh & Hadj).
      split; [by constructor|]. split; [|split; [done|]].
      * exists (l :: cuts). cbn [fmap list_fmap edge_left edge_right].
        split; [by rewrite Hl|]. split; [by rewrite Hrt|].
        constructor; [cbn; left|].
        eapply Forall_impl; [exact Hc|]. intros c Hin. cbn. by right.
      * intros [|i] e e'; [|apply Hadj]. cbn. intros [= <-] He'. cbn.
        destruct (root_edges l r trees len) as [|e0 es]; [done|].
        cbn in Hh, He'. simplify_eq. lia.
    + destruct (IH left root) as (Hp & (cuts & Hl & Hrt & Hc) & Hh & Hadj).
      split; [done|]. split; [|done].
      exists cuts. split; [done|]. split; [done|].
      eapply Forall_impl; [exact Hc|]. intros c Hin. cbn. by right.
Qed.

(** ** combine-ukbb-1kg: the sites of the two files written *)

Lemma lt_antisymm : AntiSymm (=) Z.lt.
Proof. intros x y ??. lia. Qed.

Section combine_ukbb_1kg_files.
Variable simplify : Tables → Tables.
Variable trees_of : Tables → list (Z * Z).
Variable sort : Tables → Tables.

(** X24: the new samples file and the ancestors tree sequence that
    combine-ukbb-1kg writes have their sites at the same positions, in the
    same order, when the sites of the two inputs are in increasing order of
    position, as tsinfer and tskit have them. *)
Theorem ukbb_files_same_positions n ukbb tg written :
  StronglySorted Z.lt (sites_position ukbb) →
  StronglySorted Z.lt (ts_position <$> ts_sites tg) →
  simplify_keeps_sites simplify →
  sort_keeps_sites sort →
  ancestors_tables simplify trees_of sort ukbb tg = Ok written →
  row_position <$> ukbb_subset_rows n ukbb tg
  = ts_position <$> ts_sites written.
Proof.
  intros Hukbb Htg Hsimplify Hsort (t0 & t & Ht0 & Ht & ->)%ancestors_tables_inv.
  destruct (Hsimplify t0) as [Hs1 _].
  destruct (renumber_spec _ _ _ Ht)
    as (oldest & root & trees & _ & _ & _ & _ & Hs3 & _).
  destruct (subset_sites_spec _ _ _ Ht0) as (_ & _ & Hsites & _).
  assert (ts_position <$> ts_sites t0
          = filter (λ p, p ∈ intersecting_sites ukbb tg)
                   (ts_position <$> ts_sites tg)) as Hpos.
  { rewrite Hsites, <- list_fmap_compose.
    apply (fmap_filter_comm ts_position
             (λ p, p ∈ intersecting_sites ukbb tg)
             (Hdec:=λ p, decide_rel (∈) p (intersecting_sites ukbb tg))). }
  assert (StronglySorted Z.lt (ts_position <$> ts_sites t0)) as Hsorted0.
  { rewrite Hpos. eapply StronglySorted_sublist; [done|apply sublist_filter]. }
  destruct (Hsort t) as [Hs2 _]; [by rewrite Hs3, Hs1|].
  rewrite Hs2, Hs3, Hs1, Hpos.
  assert (row_position <$> ukbb_subset_rows n ukbb tg
          = filter (λ p, p ∈ intersecting_sites ukbb tg) (sites_position ukbb))
    as ->.
  { unfold ukbb_subset_rows, sites_position.
    rewrite <- list_fmap_compose.
    apply (fmap_filter_comm position
             (λ p, p ∈ intersecting_sites ukbb tg)
             (Hdec:=λ p, decide_rel (∈) p (intersecting_sites ukbb tg))). }
  apply (StronglySorted_unique Z.lt (AntiSymm0:=lt_antisymm)).
  - eapply StronglySorted_sublist; [exact Hukbb|apply sublist_filter].
  - eapply StronglySorted_sublist; [exact Htg|apply sublist_filter].
  - apply NoDup_Permutation.
    + by apply NoDup_filter, StronglySorted_lt_NoDup.
    + by apply NoDup_filter, StronglySorted_lt_NoDup.
    + intros p. rewrite !list_elem_of_filter. unfold intersecting_sites.
      rewrite elem_of_intersection, elem_of_list_to_set.
      unfold position_set. rewrite elem_of_list_to_set. tauto.
Qed.


End combine_ukbb_1kg_files.

Lemma ukbb_files_same_positions_witness :
  ∃ written,
    ancestors_tables example_simplify_isolated example_trees_of example_sort
      example_file_a example_tables_isolated = Ok written
    ∧ row_position <$> ukbb_subset_rows 1 example_file_a example_tables_isolated
      = ts_position <$> ts_sites written.
Proof.
  eexists.
  match goal with |- ?P ∧ _ => assert P as Hrun by (vm_compute; reflexivity) end.
  split; [exact Hrun|].
  apply (ukbb_files_same_positions example_simplify_isolated example_trees_of
           example_sort 1 example_file_a example_tables_isolated _);
    [apply (bool_decide_unpack _); by vm_compute
    |apply (bool_decide_unpack _); by vm_compute
    |exact example_simplify_isolated_keeps_sites
    |exact (λ _ _, conj eq_refl (reflexivity _))
    |exact Hrun].
Defined.


(** ** make-sampledata-compatible: the copies *)





